(** * JulesNotif: the e-mail parser ([email_parser.py])

    A shallow embedding of [parse_jules_email] and of the helpers it calls,
    together with the part of Python's [str] and [re] that they use.

    Strings are Python [str] values restricted to code points below 256, so a
    character is an [ascii] and a string a [string].  Character classes, case
    mapping and white space follow Python's Unicode tables on that range. *)

From Stdlib Require Import String Ascii List Arith NArith Bool Lia.
Import ListNotations.
Local Open Scope list_scope.
Local Open Scope string_scope.
Local Open Scope nat_scope.

Set Implicit Arguments.

(* ================================================================= *)
(** ** Characters *)

Module Chars.

Definition ord (c : ascii) : nat := nat_of_ascii c.
Definition chr (n : nat) : ascii := ascii_of_nat n.

Definition in_range (lo hi : nat) (c : ascii) : bool :=
  (lo <=? ord c) && (ord c <=? hi).

(** [str.isspace] on one character; also the class [\s] of [re]. *)
Definition isspace (c : ascii) : bool :=
  in_range 9 13 c || in_range 28 32 c || (ord c =? 133) || (ord c =? 160).

(** [str.isalnum] on one character. *)
Definition isalnum (c : ascii) : bool :=
  in_range 48 57 c || in_range 65 90 c || in_range 97 122 c
  || (ord c =? 170) || in_range 178 179 c || (ord c =? 181)
  || in_range 185 186 c || in_range 188 190 c
  || in_range 192 214 c || in_range 216 246 c || in_range 248 255 c.

(** The class [\w] of [re]. *)
Definition isword (c : ascii) : bool := isalnum c || (ord c =? 95).

Definition lower (c : ascii) : ascii :=
  if in_range 65 90 c || in_range 192 214 c || in_range 216 222 c
  then chr (ord c + 32) else c.

(** Upper case, where it stays below 256. *)
Definition upper (c : ascii) : ascii :=
  if in_range 97 122 c || in_range 224 246 c || in_range 248 254 c
  then chr (ord c - 32) else c.

End Chars.

(* ================================================================= *)
(** ** The [str] methods the parser uses *)

Definition nl : ascii := Chars.chr 10.
Definition dquote : ascii := Chars.chr 34.
Definition squote : ascii := Chars.chr 39.

(** Truth value of a string: non-empty. *)
Definition nonempty (s : string) : bool :=
  match s with EmptyString => false | String _ _ => true end.

(** [s.lower()] *)
Fixpoint lower (s : string) : string :=
  match s with
  | EmptyString => EmptyString
  | String c s' => String (Chars.lower c) (lower s')
  end.

(** [s[:n]] *)
Fixpoint take (n : nat) (s : string) : string :=
  match n, s with
  | S n', String c s' => String c (take n' s')
  | _, _ => EmptyString
  end.

(** [s[n:]] *)
Fixpoint drop (n : nat) (s : string) : string :=
  match n, s with
  | S n', String _ s' => drop n' s'
  | _, _ => s
  end.

Fixpoint lstrip (s : string) : string :=
  match s with
  | String c s' => if Chars.isspace c then lstrip s' else s
  | EmptyString => EmptyString
  end.

Fixpoint rstrip (s : string) : string :=
  match s with
  | EmptyString => EmptyString
  | String c s' =>
      let r := rstrip s' in
      if negb (nonempty r) && Chars.isspace c then EmptyString else String c r
  end.

(** [s.strip()] *)
Definition strip (s : string) : string := rstrip (lstrip s).

(** [s.startswith(p)] *)
Definition startswith (s p : string) : bool := String.prefix p s.

(** [sub in s] *)
Fixpoint contains (sub s : string) : bool :=
  String.prefix sub s ||
  match s with
  | EmptyString => false
  | String _ s' => contains sub s'
  end.

(** [s.replace(old, new)] for a non-empty [old]: occurrences are replaced
    from the left and do not overlap.  [skip] counts the characters of an
    occurrence still to be passed over. *)
Fixpoint replace_from (old new : string) (skip : nat) (s : string) : string :=
  match s with
  | EmptyString => EmptyString
  | String c s' =>
      match skip with
      | S n => replace_from old new n s'
      | O =>
          if String.prefix old s
          then new ++ replace_from old new (String.length old - 1) s'
          else String c (replace_from old new 0 s')
      end
  end.

Definition replace (old new s : string) : string := replace_from old new 0 s.

(** [s.split(sep)] for a one-character separator. *)
Fixpoint split (sep : ascii) (s : string) : list string :=
  match s with
  | EmptyString => [EmptyString]
  | String c s' =>
      if Ascii.eqb c sep then EmptyString :: split sep s'
      else match split sep s' with
           | h :: t => String c h :: t
           | [] => [String c EmptyString]
           end
  end.

(** [sep.join(l)] *)
Definition join (sep : string) (l : list string) : string := String.concat sep l.

(* ================================================================= *)
(** ** Regular expressions: the fragment of [re] the patterns are written in *)

(** One item of a bracketed class. *)
Inductive citem : Type :=
| CChar (c : ascii)
| CRange (lo hi : ascii)
| CSpace                        (* \s *)
| CWord                         (* \w *)
| CWide (codepoint : N).      (* a character beyond 255: no modelled character equals it *)

(** What matches exactly one character. *)
Inductive atom : Type :=
| Lit (c : ascii)
| OneOf (items : list citem)    (* [...] *)
| NoneOf (items : list citem).  (* [^...] *)

(** Every quantifier of the source applies to a one-character item, so
    [Repeat] takes an [atom]:  [a*] is [Repeat 0 None a], [a+] is
    [Repeat 1 None a], [a?] is [Repeat 0 (Some 1) a] and [a{3,}] is
    [Repeat 3 None a].  All of them are greedy. *)
Inductive regex : Type :=
| Empty
| Atom (a : atom)
| Repeat (lo : nat) (hi : option nat) (a : atom)
| Cat (r1 r2 : regex)
| Or (r1 r2 : regex)
| Group (n : nat) (r : regex)
| Bol.                          (* ^ *)

Definition star (a : atom) : regex := Repeat 0 None a.
Definition plus (a : atom) : regex := Repeat 1 None a.
Definition opt (a : atom) : regex := Repeat 0 (Some 1) a.

(** A literal word. *)
Fixpoint lit (s : string) : regex :=
  match s with
  | EmptyString => Empty
  | String c EmptyString => Atom (Lit c)
  | String c s' => Cat (Atom (Lit c)) (lit s')
  end.

Fixpoint cat (rs : list regex) : regex :=
  match rs with
  | [] => Empty
  | [r] => r
  | r :: rs' => Cat r (cat rs')
  end.

Definition citem_has (it : citem) (c : ascii) : bool :=
  match it with
  | CChar x => Ascii.eqb x c
  | CRange lo hi => Chars.in_range (Chars.ord lo) (Chars.ord hi) c
  | CSpace => Chars.isspace c
  | CWord => Chars.isword c
  | CWide _ => false
  end.

(** Under IGNORECASE a class item accepts a character when it holds some
    character with the same lower case. *)
Definition citem_matches (ic : bool) (it : citem) (c : ascii) : bool :=
  if ic
  then citem_has it c || citem_has it (Chars.lower c) || citem_has it (Chars.upper c)
  else citem_has it c.

Definition atom_matches (ic : bool) (a : atom) (c : ascii) : bool :=
  match a with
  | Lit x => if ic then Ascii.eqb (Chars.lower x) (Chars.lower c) else Ascii.eqb x c
  | OneOf items => existsb (fun it => citem_matches ic it c) items
  | NoneOf items => negb (existsb (fun it => citem_matches ic it c) items)
  end.

(** Group marks: group number and the span it matched, latest first. *)
Definition marks : Type := list (nat * (nat * nat)).

Fixpoint mark_of (n : nat) (mk : marks) : option (nat * nat) :=
  match mk with
  | [] => None
  | (g, span) :: mk' => if g =? n then Some span else mark_of n mk'
  end.

Definition dec_hi (hi : option nat) : option nat :=
  match hi with Some h => Some (h - 1) | None => None end.

Definition hi_allows (hi : option nat) : bool :=
  match hi with Some h => 0 <? h | None => true end.

Section Backtracking.

Variable ic : bool.            (* re.IGNORECASE *)
Variable R : Type.

(** What is left to match: the rest of the input, its position, the marks. *)
Definition cont : Type := string -> nat -> marks -> option R.

(** Greedy repetition of a one-character item: take one more character
    while allowed, and give characters back one by one when the rest of
    the pattern fails. *)
Fixpoint rep (a : atom) (lo : nat) (hi : option nat)
         (s : string) (pos : nat) (mk : marks) (k : cont) {struct s} : option R :=
  let stop := if lo =? 0 then k s pos mk else None in
  match s with
  | String c s' =>
      if hi_allows hi && atom_matches ic a c
      then match rep a (lo - 1) (dec_hi hi) s' (S pos) mk k with
           | Some r => Some r
           | None => stop
           end
      else stop
  | EmptyString => stop
  end.

(** The backtracking matcher, in continuation-passing style: alternatives
    are tried in the order written and the first success is kept. *)
Fixpoint rmatch (r : regex) (s : string) (pos : nat) (mk : marks) (k : cont)
  : option R :=
  match r with
  | Empty => k s pos mk
  | Atom a =>
      match s with
      | String c s' => if atom_matches ic a c then k s' (S pos) mk else None
      | EmptyString => None
      end
  | Repeat lo hi a => rep a lo hi s pos mk k
  | Cat r1 r2 => rmatch r1 s pos mk (fun s' pos' mk' => rmatch r2 s' pos' mk' k)
  | Or r1 r2 =>
      match rmatch r1 s pos mk k with
      | Some x => Some x
      | None => rmatch r2 s pos mk k
      end
  | Group n r1 =>
      rmatch r1 s pos mk (fun s' pos' mk' => k s' pos' ((n, (pos, pos')) :: mk'))
  | Bol => if pos =? 0 then k s pos mk else None
  end.

End Backtracking.

(** A match object: where the match starts and ends, the group marks, and the
    input from the start of the match on. *)
Record Match : Type := mkMatch {
  m_start : nat;
  m_end : nat;
  m_marks : marks;
  m_from : string
}.

(** [m.group(0)] *)
Definition group0 (m : Match) : string := take (m_end m - m_start m) (m_from m).

Definition m_len (m : Match) : nat := m_end m - m_start m.

(** One attempt at position [pos], where [s] is the input from [pos] on.
    With [must_advance] an empty match is refused. *)
Definition match_at (ic : bool) (r : regex) (must_advance : bool)
           (s : string) (pos : nat) : option Match :=
  rmatch ic r s pos []
    (fun _ pos' mk' =>
       if must_advance && (pos' =? pos) then None
       else Some (mkMatch pos pos' mk' s)).

(** Scan to the right for the first position with a match. *)
Fixpoint search_from (ic : bool) (r : regex) (s : string) (pos : nat) : option Match :=
  match match_at ic r false s pos with
  | Some m => Some m
  | None =>
      match s with
      | EmptyString => None
      | String _ s' => search_from ic r s' (S pos)
      end
  end.

(** [re.search(r, s)] and [re.search(r, s, re.IGNORECASE)] *)
Definition re_search (ic : bool) (r : regex) (s : string) : option Match :=
  search_from ic r s 0.

(** The matches that start at one position, for [findall] and [sub]: after
    an empty match the same position is tried once more for a non-empty one. *)
Definition matches_at (ic : bool) (r : regex) (s : string) (pos : nat) : list Match :=
  match match_at ic r false s pos with
  | None => []
  | Some m =>
      if m_end m =? pos
      then m :: match match_at ic r true s pos with
                | Some m2 => [m2]
                | None => []
                end
      else [m]
  end.

(** Length of the last match of a list (0 when there is none). *)
Definition last_len (ms : list Match) : nat :=
  match rev ms with
  | m :: _ => m_len m
  | [] => 0
  end.

(** All non-overlapping matches, left to right.  [skip] counts the characters
    of the current match still to be passed over. *)
Fixpoint scan (ic : bool) (r : regex) (s : string) (pos skip : nat) : list Match :=
  match skip with
  | S n =>
      match s with
      | String _ s' => scan ic r s' (S pos) n
      | EmptyString => []
      end
  | O =>
      let ms := matches_at ic r s pos in
      (ms ++ match s with
             | String _ s' => scan ic r s' (S pos) (last_len ms - 1)
             | EmptyString => []
             end)%list
  end.

(** [re.findall(r, s)] for a pattern without groups: the matched texts. *)
Definition re_findall (ic : bool) (r : regex) (s : string) : list string :=
  map group0 (scan ic r s 0 0).

(** [re.sub(r, repl, s)] for a replacement without group references. *)
Fixpoint sub_from (ic : bool) (r : regex) (repl : string)
         (s : string) (pos skip : nat) : string :=
  match skip with
  | S n =>
      match s with
      | String _ s' => sub_from ic r repl s' (S pos) n
      | EmptyString => EmptyString
      end
  | O =>
      let ms := matches_at ic r s pos in
      String.concat EmptyString (map (fun _ => repl) ms) ++
      match s with
      | String c s' =>
          if last_len ms =? 0
          then String c (sub_from ic r repl s' (S pos) 0)
          else sub_from ic r repl s' (S pos) (last_len ms - 1)
      | EmptyString => EmptyString
      end
  end.

Definition re_sub (ic : bool) (r : regex) (repl s : string) : string :=
  sub_from ic r repl s 0 0.

(* ================================================================= *)
(** ** Exceptions *)

Inductive exn : Type := ValueError | IndexError | TypeError | MarkupError.

Inductive result (A : Type) : Type :=
| Ok (a : A)
| Raise (e : exn).
Arguments Ok {A} a.
Arguments Raise {A} e.

(** [m.group(n)] for [n > 0].  A group that is missing or took no part in the
    match does not give the caller a string; both are reported as an error. *)
Definition group (m : Match) (n : nat) : result string :=
  match mark_of n (m_marks m) with
  | Some (a, b) => Ok (take (b - a) (drop (a - m_start m) (m_from m)))
  | None => Raise IndexError
  end.

(* ================================================================= *)
(** ** Dictionaries in insertion order, and [max] *)

Definition dict (V : Type) : Type := list (string * V).

Fixpoint dict_get {V} (d : dict V) (k : string) : option V :=
  match d with
  | [] => None
  | (k', v) :: d' => if String.eqb k' k then Some v else dict_get d' k
  end.

(** [d[k] = v]: an existing key keeps its place, a new one goes last. *)
Fixpoint dict_set {V} (d : dict V) (k : string) (v : V) : dict V :=
  match d with
  | [] => [(k, v)]
  | (k', v') :: d' =>
      if String.eqb k' k then (k', v) :: d' else (k', v') :: dict_set d' k v
  end.

Definition dict_keys {V} (d : dict V) : list string := map fst d.

(** [a > b] on values that may be [None]. *)
Definition py_gt (a b : option nat) : result bool :=
  match a, b with
  | Some x, Some y => Ok (y <? x)
  | _, _ => Raise TypeError
  end.

(** The loop of [max(iterable, key=f)]: the running maximum is replaced only
    by a strictly greater key. *)
Fixpoint max_loop (key : string -> option nat) (best : string) (best_key : option nat)
         (l : list string) : result string :=
  match l with
  | [] => Ok best
  | x :: l' =>
      match py_gt (key x) best_key with
      | Ok true => max_loop key x (key x) l'
      | Ok false => max_loop key best best_key l'
      | Raise e => Raise e
      end
  end.

Definition py_max (key : string -> option nat) (l : list string) : result string :=
  match l with
  | [] => Raise ValueError
  | x :: l' => max_loop key x (key x) l'
  end.

(* ================================================================= *)
(** ** Module state and the monad of the parser *)

(** The module-level table, in the order it is written. *)
Record globals : Type := mkGlobals {
  STATUS_PATTERNS : dict (list regex)
}.

(** A computation reads and may change the module state, and returns or
    raises. *)
Definition M (A : Type) : Type := globals -> result A * globals.

Definition ret {A} (a : A) : M A := fun g => (Ok a, g).
Definition raise {A} (e : exn) : M A := fun g => (Raise e, g).
Definition lift {A} (r : result A) : M A := fun g => (r, g).

Definition bind {A B} (m : M A) (f : A -> M B) : M B :=
  fun g =>
    match m g with
    | (Ok a, g') => f a g'
    | (Raise e, g') => (Raise e, g')
    end.

(** [try: m  except Exception: h] *)
Definition try_except {A} (m : M A) (h : M A) : M A :=
  fun g =>
    match m g with
    | (Ok a, g') => (Ok a, g')
    | (Raise _, g') => h g'
    end.

Definition read_STATUS_PATTERNS : M (dict (list regex)) :=
  fun g => (Ok (STATUS_PATTERNS g), g).

Notation "x <- m ;; k" := (bind m (fun x => k))
  (at level 61, m at next level, right associativity).

(* ================================================================= *)
(** ** The markup library

    [bs4] is not part of the repository.  The parser uses three things of it,
    each of which may raise. *)
Record MarkupLibrary : Type := mkMarkupLibrary {
  soup : Type;
  (** [BeautifulSoup(html, "html.parser")] *)
  BeautifulSoup : string -> result soup;
  (** decompose every script, style and head tag, then
      [get_text(separator="\n", strip=True)] *)
  visible_text : soup -> result string;
  (** [link["href"]] for each [link] of [find_all("a", href=True)] *)
  anchor_hrefs : soup -> result (list string)
}.

(** A library that rejects every document. *)
Definition rejecting_markup : MarkupLibrary :=
  mkMarkupLibrary (fun _ : string => @Raise unit MarkupError)
                  (fun _ => Raise MarkupError)
                  (fun _ => Raise MarkupError).

(* ================================================================= *)
(** ** The patterns of [email_parser.py] *)

Definition ws : atom := OneOf [CSpace].

Definition initial_STATUS_PATTERNS : dict (list regex) :=
  [ ("completed",
      [ lit "completed";
        lit "finished";
        lit "done";
        lit "merged";
        cat [lit "task"; plus ws; lit "complete"];
        lit "successfully" ]);
    ("failed",
      [ lit "failed";
        lit "error";
        lit "unable";
        cat [lit "could"; star ws; lit "n"; Atom (OneOf [CChar "o"; CChar squote]); lit "t"];
        lit "unsuccessful" ]);
    ("needs_review",
      [ lit "review";
        lit "waiting";
        lit "pending";
        cat [lit "ready"; plus ws; lit "for"; plus ws; lit "review"];
        cat [lit "pull"; plus ws; lit "request"];
        cat [lit "change"; opt (Lit "s"); plus ws; lit "ready"] ]);
    ("in_progress",
      [ lit "started";
        lit "working";
        cat [lit "in"; plus ws; lit "progress"];
        lit "processing";
        lit "running" ]);
    ("cancelled",
      [ cat [lit "cancel"; opt (Lit "l"); lit "ed"];
        lit "stopped";
        lit "aborted" ]) ].

Definition initial_globals : globals := mkGlobals initial_STATUS_PATTERNS.

(** The three prefixes [_clean_subject] removes. *)
Definition prefix_bracket : regex :=
  cat [Bol; star ws; lit "[Jules]"; star ws].
Definition prefix_label : regex :=
  cat [Bol; star ws; lit "Jules:"; star ws].
Definition prefix_google : regex :=
  cat [Bol; star ws; lit "Google Jules"; star ws;
       Atom (OneOf [CChar "-"; CWide 8211%N; CWide 8212%N; CChar ":"]); star ws].

(** [[a-zA-Z0-9_.-]+/[a-zA-Z0-9_.-]+] *)
Definition tokchar : atom :=
  OneOf [CRange "a" "z"; CRange "A" "Z"; CRange "0" "9"; CChar "_"; CChar "."; CChar "-"].
Definition owner_name : regex := cat [plus tokchar; Atom (Lit "/"); plus tokchar].

Definition repo_label : regex :=
  cat [Or (lit "repository") (lit "repo"); plus (OneOf [CChar ":"; CSpace]); Group 1 owner_name].
Definition repo_github : regex :=
  cat [lit "github.com/"; Group 1 owner_name].
Definition repo_suffix : regex :=
  cat [Group 1 owner_name; plus ws; lit "repository"].
Definition repo_patterns : list regex := [repo_label; repo_github; repo_suffix].
Definition repo_bare : regex := Group 1 owner_name.

(** [&\w+;] *)
Definition entity : regex := cat [Atom (Lit "&"); plus (OneOf [CWord]); Atom (Lit ";")].

(** [\n{3,}] *)
Definition blank_lines : regex := Repeat 3 None (Lit nl).

Definition url_pattern : regex :=
  cat [lit "http"; opt (Lit "s"); lit "://";
       plus (NoneOf [CSpace; CChar "<"; CChar ">"; CChar dquote; CChar squote;
                    CChar ")"; CChar "]"])].

(* ================================================================= *)
(** ** The parser *)

Record RawEmail : Type := mkRawEmail {
  subject : string;
  snippet : string;
  body_html : string;
  body_text : string
}.

Record ParsedNotification : Type := mkParsed {
  status : string;
  title : string;
  repo : string;
  summary : string;
  link : string;
  raw_subject : string
}.

(** Sum of [len(re.findall(pattern, text, re.IGNORECASE))] over the patterns
    of one status. *)
Definition score_of (patterns : list regex) (text : string) : nat :=
  fold_left (fun score pattern => score + length (re_findall true pattern text))
            patterns 0.

(** One round of the loop that fills [scores]. *)
Definition score_step (text : string) (scores : dict nat)
           (entry : string * list regex) : dict nat :=
  let score := score_of (snd entry) text in
  if 0 <? score then dict_set scores (fst entry) score else scores.

Definition collect_scores (table : dict (list regex)) (text : string) : dict nat :=
  fold_left (score_step text) table [].

Definition _detect_status (text : string) : M string :=
  table <- read_STATUS_PATTERNS ;;
  let scores := collect_scores table text in
  match scores with
  | [] => ret "unknown"
  | _ => lift (py_max (dict_get scores) (dict_keys scores))
  end.

Definition _clean_subject (subject : string) : string :=
  let subject := re_sub true prefix_bracket "" subject in
  let subject := re_sub true prefix_label "" subject in
  let subject := re_sub true prefix_google "" subject in
  let t := strip subject in
  if nonempty t then t else "Jules Notification".

(** The loop over [repo_patterns]: the group of the first pattern found. *)
Fixpoint first_repo (patterns : list regex) (text : string) : option (result string) :=
  match patterns with
  | [] => None
  | pattern :: rest =>
      match re_search true pattern text with
      | Some m => Some (group m 1)
      | None => first_repo rest text
      end
  end.

Definition _extract_repo (text subject : string) : result string :=
  match first_repo repo_patterns text with
  | Some r => r
  | None =>
      match re_search false repo_bare subject with
      | Some m =>
          match group m 1 with
          | Ok candidate =>
              if contains "/" candidate && negb (startswith candidate "http")
              then Ok candidate
              else Ok ""
          | Raise e => Raise e
          end
      | None => Ok ""
      end
  end.

Definition _build_summary (snippet body_text : string) : string :=
  if nonempty snippet then
    let summary := replace "&quot;" (String dquote "")
                     (replace "&#39;" (String squote "") snippet) in
    let summary := re_sub false entity "" summary in
    take 300 summary
  else if nonempty body_text then
    let lines := filter nonempty (map strip (split nl body_text)) in
    let summary := join " " (firstn 3 lines) in
    take 300 summary
  else "New notification from Jules".

Definition is_jules_link (url : string) : bool :=
  contains "jules" (lower url) || contains "github.com" (lower url).

(** [full_text]: what the classifier and the repository extractor scan. *)
Definition scanning_text (subject snippet body_plain : string) : string :=
  lower (subject ++ " " ++ snippet ++ " " ++ body_plain).

Section WithMarkup.

Variable bs : MarkupLibrary.

Definition _html_to_text (html : string) : M string :=
  try_except
    (sp <- lift (BeautifulSoup bs html) ;;
     text <- lift (visible_text bs sp) ;;
     let text := re_sub false blank_lines (String nl (String nl "")) text in
     ret (strip text))
    (ret html).

(** The HTML branch of [_extract_jules_link]: [Some href] when the loop
    returns, [None] when control falls through to the text branch. *)
Definition anchor_link (html : string) : M (option string) :=
  if nonempty html then
    try_except
      (sp <- lift (BeautifulSoup bs html) ;;
       hrefs <- lift (anchor_hrefs bs sp) ;;
       ret (find is_jules_link hrefs))
      (ret None)
  else ret None.

Definition _extract_jules_link (html text : string) : M string :=
  found <- anchor_link html ;;
  match found with
  | Some href => ret href
  | None =>
      let urls := re_findall false url_pattern text in
      match find is_jules_link urls with
      | Some url => ret url
      | None => ret ""
      end
  end.

Definition parse_jules_email (email_data : RawEmail) : M ParsedNotification :=
  let subject := subject email_data in
  let snippet := snippet email_data in
  let body_html := body_html email_data in
  let body_text := body_text email_data in
  body_plain <- (if nonempty body_html then _html_to_text body_html
                 else ret body_text) ;;
  let full_text := scanning_text subject snippet body_plain in
  st <- _detect_status full_text ;;
  let ti := _clean_subject subject in
  rp <- lift (_extract_repo full_text subject) ;;
  let su := _build_summary snippet body_plain in
  li <- _extract_jules_link body_html body_plain ;;
  ret (mkParsed st ti rp su li subject).

End WithMarkup.

(* ================================================================= *)
(** ** What a pattern matches, stated without the matcher *)

Fixpoint all_chars (p : ascii -> bool) (w : string) : bool :=
  match w with
  | EmptyString => true
  | String c w' => p c && all_chars p w'
  end.

Definition within (hi : option nat) (n : nat) : Prop :=
  match hi with Some h => n <= h | None => True end.

(** [matches ic r pos w mk mk']: at position [pos] the pattern [r] can
    consume exactly [w], turning the marks [mk] into [mk']. *)
Inductive matches (ic : bool) : regex -> nat -> string -> marks -> marks -> Prop :=
| MEmpty pos mk : matches ic Empty pos "" mk mk
| MAtom a c pos mk :
    atom_matches ic a c = true ->
    matches ic (Atom a) pos (String c "") mk mk
| MRepeat lo hi a w pos mk :
    all_chars (atom_matches ic a) w = true ->
    lo <= String.length w -> within hi (String.length w) ->
    matches ic (Repeat lo hi a) pos w mk mk
| MCat r1 r2 w1 w2 pos mk mk1 mk2 :
    matches ic r1 pos w1 mk mk1 ->
    matches ic r2 (pos + String.length w1) w2 mk1 mk2 ->
    matches ic (Cat r1 r2) pos (w1 ++ w2) mk mk2
| MOrL r1 r2 w pos mk mk' :
    matches ic r1 pos w mk mk' -> matches ic (Or r1 r2) pos w mk mk'
| MOrR r1 r2 w pos mk mk' :
    matches ic r2 pos w mk mk' -> matches ic (Or r1 r2) pos w mk mk'
| MGroup n r w pos mk mk' :
    matches ic r pos w mk mk' ->
    matches ic (Group n r) pos w mk ((n, (pos, pos + String.length w)) :: mk')
| MBol mk : matches ic Bol 0 "" mk mk.

(** Group [n] is set by every match of the pattern. *)
Fixpoint sets_group (n : nat) (r : regex) : bool :=
  match r with
  | Group g r1 => (g =? n) || sets_group n r1
  | Cat r1 r2 => sets_group n r1 || sets_group n r2
  | Or r1 r2 => sets_group n r1 && sets_group n r2
  | _ => false
  end.

(** The score of one status on a text, read off a table. *)
Definition category_score (table : dict (list regex)) (c text : string) : nat :=
  match dict_get table c with
  | Some patterns => score_of patterns text
  | None => 0
  end.

Definition scored (table : dict (list regex)) (text c : string) : bool :=
  0 <? category_score table c text.

(* ================================================================= *)
(** ** Repository labels, tokens and URLs, stated without the patterns *)

(** A character of an owner or repository name: a letter, a digit, or one of
    the three signs. *)
Definition token_char (c : ascii) : bool :=
  Chars.in_range 97 122 c || Chars.in_range 65 90 c || Chars.in_range 48 57 c
  || Ascii.eqb c "_" || Ascii.eqb c "." || Ascii.eqb c "-".

Definition is_token (w : string) : Prop :=
  nonempty w = true /\ all_chars token_char w = true.

(** [owner/name] *)
Definition owner_slash_name (tok : string) : Prop :=
  exists o n, tok = o ++ "/" ++ n /\ is_token o /\ is_token n.

(** What may stand between the label and the token. *)
Definition label_sep (c : ascii) : bool := Ascii.eqb c ":" || Chars.isspace c.

(** Where a token ends: the text stops, or a character follows that is not
    of a token. *)
Definition ends_token (post : string) : bool :=
  match post with
  | EmptyString => true
  | String c _ => negb (token_char c)
  end.

(** In the words of the spec: [text] holds the label [repository:] or
    [repo:], white space if any, and then [tok], a whole owner/name token. *)
Definition labelled_token (text tok : string) : Prop :=
  exists pre lab sp post,
    text = pre ++ lab ++ ":" ++ sp ++ tok ++ post /\
    (lab = "repository" \/ lab = "repo") /\
    all_chars Chars.isspace sp = true /\
    owner_slash_name tok /\ ends_token post = true.

(** In the words of the spec: [text] holds a github.com URL whose
    owner/name token is [tok]. *)
Definition github_url_token (text tok : string) : Prop :=
  exists pre post,
    text = pre ++ "github.com/" ++ tok ++ post /\
    owner_slash_name tok /\ ends_token post = true.

(** The label as the first pattern of [repo_patterns] reads it: after [pre]
    the text goes on with the word repository or repo in any letter case,
    one or more colons or white-space characters (a colon is not needed),
    and an owner/name token. *)
Definition label_at (text pre : string) : Prop :=
  exists lab sep tok post,
    text = pre ++ lab ++ sep ++ tok ++ post /\
    (lower lab = "repository" \/ lower lab = "repo") /\
    nonempty sep = true /\ all_chars label_sep sep = true /\
    owner_slash_name tok.

(** The characters that end a URL. *)
Definition url_stop (c : ascii) : bool :=
  Chars.isspace c || Ascii.eqb c "<" || Ascii.eqb c ">" || Ascii.eqb c dquote
  || Ascii.eqb c squote || Ascii.eqb c ")" || Ascii.eqb c "]".

Definition url_shaped (u : string) : Prop :=
  exists rest,
    (u = "http://" ++ rest \/ u = "https://" ++ rest) /\
    nonempty rest = true /\
    all_chars (fun c => negb (url_stop c)) rest = true.

Definition occurs_in (u text : string) : Prop :=
  exists pre post, text = pre ++ u ++ post.

(** The choice at the end of [_extract_jules_link]. *)
Definition first_jules_link (urls : list string) : string :=
  match find is_jules_link urls with
  | Some url => url
  | None => ""
  end.

(** The end of [_clean_subject]: trim, and fall back when nothing is left. *)
Definition title_or_default (s : string) : string :=
  let t := strip s in
  if nonempty t then t else "Jules Notification".

(** The least number of characters a match of the pattern consumes. *)
Fixpoint min_len (r : regex) : nat :=
  match r with
  | Empty => 0
  | Atom _ => 1
  | Repeat lo _ _ => lo
  | Cat r1 r2 => min_len r1 + min_len r2
  | Or r1 r2 => Nat.min (min_len r1) (min_len r2)
  | Group _ r1 => min_len r1
  | Bol => 0
  end.

(** A match object over the lowercased input. *)
Definition lower_match (m : Match) : Match :=
  mkMatch (m_start m) (m_end m) (m_marks m) (lower (m_from m)).

(** The six values of the [status] field. *)
Definition status_values : list string :=
  ["completed"; "failed"; "needs_review"; "in_progress"; "cancelled"; "unknown"].

(** Group 1 of every match of the pattern is an [owner/name] token inside
    the match. *)
Definition captures_token (ic : bool) (r : regex) : Prop :=
  forall pos w mk,
    matches ic r pos w [] mk ->
    exists a tok b,
      w = a ++ tok ++ b /\ owner_slash_name tok /\
      mark_of 1 mk = Some (pos + String.length a,
                           pos + String.length a + String.length tok).

(** A markup library for which every document parses, holds no text and has
    the given anchors. *)
Definition anchors_markup (hrefs : list string) : MarkupLibrary :=
  mkMarkupLibrary (fun _ : string => Ok tt)
                  (fun _ => Ok "")
                  (fun _ => Ok hrefs).

(** How many times [c] stands at the start of [s]. *)
Fixpoint leading (c : ascii) (s : string) : nat :=
  match s with
  | String x s' => if Ascii.eqb c x then S (leading c s') else 0
  | EmptyString => 0
  end.

(** Three line feeds. *)
Definition nl3 : string := String nl (String nl (String nl "")).

(** A markup library for which every document parses, has the given text
    and no anchors. *)
Definition text_markup (text : string) : MarkupLibrary :=
  mkMarkupLibrary (fun _ : string => Ok tt)
                  (fun _ => Ok text)
                  (fun _ => Ok []).

(** [href] is the target of an anchor of the non-empty document [html], as
    the markup library reads it. *)
Definition anchor_href_of (bs : MarkupLibrary) (html href : string) : Prop :=
  nonempty html = true /\
  exists (sp : soup bs) (hrefs : list string),
    BeautifulSoup bs html = Ok sp /\ anchor_hrefs bs sp = Ok hrefs /\
    List.In href hrefs.

(** What the text branch of the link extractor can return: an http or https
    URL that stands in [text]. *)
Definition url_found_in (text url : string) : Prop :=
  url_shaped url /\ occurs_in url text.

(* ================================================================= *)
(** ** The e-mails of the scenarios *)

Definition completed_email : RawEmail :=
  mkRawEmail
    "[Jules] Task completed for your PR"
    "Your task finished successfully. Repository: octo/cat. See https://github.com/octo/cat/pull/5"
    "" "".

Definition empty_email : RawEmail := mkRawEmail "" "" "" "".

Definition task_url_email : RawEmail :=
  mkRawEmail "See https://jules.google.com/task/123" "" "" "".

(* ================================================================= *)
(** * The callers: [gmail_client.py], [notifier.py] and [main.py] *)

(** ** Text that may hold characters beyond 255

    The notification texts hold emoji, so they are lists of code points. *)
Definition ustring : Type := list N.

Definition u_of (s : string) : ustring := map N_of_ascii (list_ascii_of_string s).

(** [sep.join(parts)] *)
Fixpoint ujoin (sep : ustring) (parts : list ustring) : ustring :=
  match parts with
  | [] => []
  | [x] => x
  | x :: rest => (x ++ sep ++ ujoin sep rest)%list
  end.

(** ** What the Gmail API hands over *)

(** An entry of the [messages] list. *)
Record msg_meta : Type := mkMeta { meta_id : string; meta_threadId : string }.

(** A MIME part: [mimeType], [body.data], [headers] (name and value) and
    [parts]; a key that is absent has the default of its [.get]. *)
#[warnings="-register-all"]
Inductive payload : Type :=
| Payload (mimeType : string) (body_data : string)
          (headers : list (string * string)) (parts : list payload).

Definition mimeType (p : payload) : string :=
  match p with Payload m _ _ _ => m end.
Definition body_data (p : payload) : string :=
  match p with Payload _ d _ _ => d end.
Definition headers (p : payload) : list (string * string) :=
  match p with Payload _ _ h _ => h end.
Definition parts (p : payload) : list payload :=
  match p with Payload _ _ _ ps => ps end.

(** A message as [messages().get(format="full")] returns it; [id] may be
    missing, which [msg["id"]] turns into a KeyError. *)
Record message : Type := mkMessage {
  msg_id : option string;
  msg_threadId : string;
  msg_snippet : string;
  msg_payload : payload
}.

(** ** Calls that leave the program, in the order they are made *)
Inductive call : Type :=
| CallList (query : string)
| CallGet (id : string)
| CallTrash (id : string)
| CallModify (id : string) (removeLabelId : string)
| CallPost (url : string) (data : ustring) (headers : dict ustring).

(** The world outside: each answer may depend on every call made before.
    [None] and [false] stand for a raised exception. *)
Record World : Type := mkWorld {
  api_list : list call -> string -> option (list msg_meta);
  api_get : list call -> string -> option message;
  api_trash : list call -> string -> bool;
  api_modify : list call -> string -> string -> bool;
  (** [requests.post(url, data=text.encode("utf-8"), headers=..., timeout=10)]:
      the status code *)
  http_post : list call -> string -> ustring -> dict ustring -> option nat;
  (** [base64.urlsafe_b64decode(data).decode("utf-8", errors="replace")] *)
  b64decode : string -> option string
}.

(** ** The monad of the callers *)

Inductive io_exn : Type :=
| ParserRaised (e : exn)
| KeyError (key : string).

Inductive outcome (A : Type) : Type :=
| Returns (a : A)
| Throws (e : io_exn).
Arguments Returns {A} a.
Arguments Throws {A} e.

(** The parser's module state, the calls made so far, and the counter of
    the monitor. *)
Record state : Type := mkState {
  st_globals : globals;
  st_trace : list call;
  processed_count : nat
}.

Definition IO (A : Type) : Type := state -> outcome A * state.

Definition io_ret {A} (a : A) : IO A := fun st => (Returns a, st).
Definition io_throw {A} (e : io_exn) : IO A := fun st => (Throws e, st).

Definition io_bind {A B} (m : IO A) (f : A -> IO B) : IO B :=
  fun st =>
    match m st with
    | (Returns a, st') => f a st'
    | (Throws e, st') => (Throws e, st')
    end.

Notation "x <~ m ;; k" := (io_bind m (fun x => k))
  (at level 61, m at next level, right associativity).

(** Make one call: it is appended to the trace and answered from the trace
    before it. *)
Definition ask {A} (c : call) (answer : list call -> A) : IO A :=
  fun st =>
    (Returns (answer (st_trace st)),
     mkState (st_globals st) (st_trace st ++ [c])%list (processed_count st)).

(** Run a computation of the parser on the parser's module state. *)
Definition run_parser {A} (m : M A) : IO A :=
  fun st =>
    match m (st_globals st) with
    | (Ok a, g) => (Returns a, mkState g (st_trace st) (processed_count st))
    | (Raise e, g) =>
        (Throws (ParserRaised e), mkState g (st_trace st) (processed_count st))
    end.

Definition count_one : IO unit :=
  fun st =>
    (Returns tt, mkState (st_globals st) (st_trace st) (processed_count st + 1)).

(* ================================================================= *)
(** ** [gmail_client.py] *)

Module GmailClient.

(** The dict [get_email_content] returns. *)
Record email_data : Type := mkEmailData {
  ed_id : string;
  ed_thread_id : string;
  ed_subject : string;
  ed_from : string;
  ed_date : string;
  ed_snippet : string;
  ed_body_html : string;
  ed_body_text : string
}.

Definition get_jules_emails (w : World) (query : string) : IO (list msg_meta) :=
  results <~ ask (CallList query) (fun h => api_list w h query) ;;
  match results with
  | Some messages => io_ret messages
  | None => io_ret []
  end.

(** The body of one part taken by itself. *)
Definition direct_body (w : World) (p : payload) : option (string * string) :=
  if nonempty (body_data p) then
    match b64decode w (body_data p) with
    | Some decoded =>
        if contains "html" (mimeType p) then Some (decoded, "")
        else if contains "plain" (mimeType p) then Some ("", decoded)
        else Some ("", "")
    | None => None
    end
  else Some ("", "").

(** One round of the loop over [parts]. *)
Definition merge_part (acc part : string * string) : string * string :=
  (if nonempty (fst part) then fst part else fst acc,
   if nonempty (snd part) then snd part else snd acc).

(** [None] when a decoding raises. *)
Fixpoint _extract_body (w : World) (p : payload) : option (string * string) :=
  match direct_body w p with
  | None => None
  | Some direct =>
      (fix loop (ps : list payload) (acc : string * string)
         : option (string * string) :=
         match ps with
         | [] => Some acc
         | part :: rest =>
             match _extract_body w part with
             | None => None
             | Some found => loop rest (merge_part acc found)
             end
         end) (parts p) direct
  end.

(** [{h["name"].lower(): h["value"] for h in headers}] *)
Definition header_map (hs : list (string * string)) : dict string :=
  fold_left (fun d h => dict_set d (lower (fst h)) (snd h)) hs [].

(** [d.get(k, default)] *)
Definition dict_get_default {V} (d : dict V) (k : string) (default : V) : V :=
  match dict_get d k with
  | Some v => v
  | None => default
  end.

(** What follows the API call in [get_email_content]; [None] is the empty
    dict of the [except] branch. *)
Definition email_of_message (w : World) (msg : message) : option email_data :=
  let hm := header_map (headers (msg_payload msg)) in
  match msg_id msg with
  | None => None
  | Some id =>
      match _extract_body w (msg_payload msg) with
      | None => None
      | Some (html, text) =>
          Some (mkEmailData id (msg_threadId msg)
                  (dict_get_default hm "subject" "(no subject)")
                  (dict_get_default hm "from" "")
                  (dict_get_default hm "date" "")
                  (msg_snippet msg) html text)
      end
  end.

Definition get_email_content (w : World) (id : string) : IO (option email_data) :=
  answer <~ ask (CallGet id) (fun h => api_get w h id) ;;
  match answer with
  | Some msg => io_ret (email_of_message w msg)
  | None => io_ret None
  end.

Definition trash_email (w : World) (id : string) : IO bool :=
  ask (CallTrash id) (fun h => api_trash w h id).

Definition archive_email (w : World) (id : string) : IO bool :=
  ask (CallModify id "INBOX") (fun h => api_modify w h id "INBOX").

Definition mark_as_read (w : World) (id : string) : IO bool :=
  ask (CallModify id "UNREAD") (fun h => api_modify w h id "UNREAD").

Definition cleanup_email (w : World) (id action : string) : IO bool :=
  let action := strip (lower action) in
  if String.eqb action "trash" then trash_email w id
  else if String.eqb action "archive" then archive_email w id
  else if String.eqb action "read" then mark_as_read w id
  else trash_email w id.

End GmailClient.

(* ================================================================= *)
(** ** [notifier.py] *)

Module Notifier.

Record config : Type := mkConfig {
  priority : string;
  tags : list string;
  emoji : ustring
}.

Definition STATUS_CONFIG : dict config :=
  [ ("completed", mkConfig "default" ["white_check_mark"; "jules"] [9989%N]);
    ("failed", mkConfig "high" ["x"; "jules"; "warning"] [10060%N]);
    ("needs_review", mkConfig "high" ["eyes"; "jules"] [128064%N]);
    ("in_progress", mkConfig "low" ["hourglass"; "jules"] [9203%N]);
    ("cancelled", mkConfig "default" ["no_entry_sign"; "jules"] [128683%N]);
    ("unknown", mkConfig "default" ["bell"; "jules"] [128276%N]) ].

(** The object: [self.topic], [self.server], [self.url]. *)
Record t : Type := mk { topic : string; server : string; url : string }.

Fixpoint char_in (c : ascii) (chars : string) : bool :=
  match chars with
  | EmptyString => false
  | String x chars' => Ascii.eqb x c || char_in c chars'
  end.

(** [s.rstrip(chars)] *)
Fixpoint rstrip_chars (chars s : string) : string :=
  match s with
  | EmptyString => EmptyString
  | String c s' =>
      let r := rstrip_chars chars s' in
      if negb (nonempty r) && char_in c chars then EmptyString else String c r
  end.

(** [__init__] *)
Definition init (topic server : string) : t :=
  let server := rstrip_chars "/" server in
  mk topic server (server ++ "/" ++ topic).

(** [text.encode("latin-1", errors="ignore").decode("latin-1")] *)
Definition _make_header_safe (text : ustring) : ustring :=
  filter (fun c => (c <? 256)%N) text.

(** [STATUS_CONFIG.get(status, STATUS_CONFIG["unknown"])]; the default is
    looked up first and its key may be missing. *)
Definition config_for (table : dict config) (status : string) : outcome config :=
  match dict_get table "unknown" with
  | None => Throws (KeyError "unknown")
  | Some default => Returns (GmailClient.dict_get_default table status default)
  end.

Definition request_headers (cfg : config) (title : ustring) (link : string)
  : dict ustring :=
  let safe_title := _make_header_safe (u_of "Jules: " ++ title)%list in
  let headers := [ ("Title", safe_title);
                   ("Priority", u_of (priority cfg));
                   ("Tags", u_of (join "," (tags cfg))) ] in
  if nonempty link then
    dict_set (dict_set headers "Click" (u_of link))
             "Actions" (u_of ("view, Open in Browser, " ++ link))
  else headers.

Definition send_notification (w : World) (self : t) (title message : ustring)
           (status link : string) : IO bool :=
  match config_for STATUS_CONFIG status with
  | Throws e => io_throw e
  | Returns cfg =>
      let full_message := (emoji cfg ++ [32%N] ++ message)%list in
      let headers := request_headers cfg title link in
      response <~ ask (CallPost (url self) full_message headers)
                      (fun h => http_post w h (url self) full_message headers) ;;
      match response with
      | Some status_code => io_ret (status_code =? 200)
      | None => io_ret false
      end
  end.

End Notifier.

(* ================================================================= *)
(** ** [main.py] *)

Module JulesMonitor.

(** [self.config] and [self.notifier]. *)
Record t : Type := mk {
  gmail_query : string;
  email_action : string;
  notifier : Notifier.t
}.

Definition _build_notification_message (parsed : ParsedNotification) : ustring :=
  let parts :=
    ((if nonempty (repo parsed)
      then [(128230%N :: u_of " Repo: " ++ u_of (repo parsed))%list] else []) ++
     (if nonempty (summary parsed) then [u_of (summary parsed)] else []) ++
     (if nonempty (link parsed)
      then [(10%N :: 128279%N :: 32%N :: u_of (link parsed))%list] else []))%list in
  match parts with
  | [] => u_of "New update from Jules"
  | _ => ujoin [10%N] parts
  end.

(** The four fields [parse_jules_email] reads from the fetched dict. *)
Definition raw_of (d : GmailClient.email_data) : RawEmail :=
  mkRawEmail (GmailClient.ed_subject d) (GmailClient.ed_snippet d)
             (GmailClient.ed_body_html d) (GmailClient.ed_body_text d).

(** The body of the loop of [check_once]; [true] when the message is
    counted as processed.  Console output is left out. *)
Definition process_message (w : World) (bs : MarkupLibrary) (self : t)
           (msg_meta : msg_meta) : IO bool :=
  let msg_id := meta_id msg_meta in
  fetched <~ GmailClient.get_email_content w msg_id ;;
  match fetched with
  | None => io_ret false
  | Some email_data =>
      parsed <~ run_parser (parse_jules_email bs (raw_of email_data)) ;;
      let notif_message := _build_notification_message parsed in
      sent <~ Notifier.send_notification w (notifier self)
                (u_of (title parsed)) notif_message (status parsed) (link parsed) ;;
      if sent then
        _ <~ GmailClient.cleanup_email w msg_id (email_action self) ;;
        _ <~ count_one ;;
        io_ret true
      else io_ret false
  end.

Fixpoint process_all (w : World) (bs : MarkupLibrary) (self : t)
         (messages : list msg_meta) (processed : nat) : IO nat :=
  match messages with
  | [] => io_ret processed
  | msg_meta :: rest =>
      done <~ process_message w bs self msg_meta ;;
      process_all w bs self rest (if done then processed + 1 else processed)
  end.

Definition check_once (w : World) (bs : MarkupLibrary) (self : t) : IO nat :=
  messages <~ GmailClient.get_jules_emails w (gmail_query self) ;;
  match messages with
  | [] => io_ret 0
  | _ => process_all w bs self messages 0
  end.

End JulesMonitor.

(* ================================================================= *)
(** ** Reading the trace *)

(** The parts of a payload, itself first, in the order they are visited. *)
Fixpoint nodes (p : payload) : list payload :=
  match p with
  | Payload _ _ _ ps => p :: flat_map nodes ps
  end.

(** The loop over [parts] of [_extract_body], by name. *)
Fixpoint merge_all (w : World) (ps : list payload) (acc : string * string)
  : option (string * string) :=
  match ps with
  | [] => Some acc
  | part :: rest =>
      match GmailClient._extract_body w part with
      | None => None
      | Some found => merge_all w rest (GmailClient.merge_part acc found)
      end
  end.

(** The header a lookup of [key] finds: the last one whose lowercased name
    is [key]. *)
Definition last_header (hs : list (string * string)) (key : string) : option string :=
  option_map snd (find (fun h => String.eqb (lower (fst h)) key) (rev hs)).

(** A call that trashes a message or takes a label off it. *)
Definition is_cleanup (c : call) : bool :=
  match c with
  | CallTrash _ | CallModify _ _ => true
  | _ => false
  end.

Definition cleanup_of (id : string) (c : call) : Prop :=
  c = CallTrash id \/ c = CallModify id "INBOX" \/ c = CallModify id "UNREAD".

(** The calls made for one message, after the calls [h]: the fetch alone,
    the fetch and a post that was not answered with 200, or the fetch, a post
    answered with 200 and the cleanup. *)
Inductive handled (w : World) (self : JulesMonitor.t) (h : list call) (id : string)
  : list call -> bool -> Prop :=
| not_fetched : handled w self h id [CallGet id] false
| not_sent data hd :
    http_post w (h ++ [CallGet id])%list
              (Notifier.url (JulesMonitor.notifier self)) data hd <> Some 200 ->
    handled w self h id
            [CallGet id; CallPost (Notifier.url (JulesMonitor.notifier self)) data hd]
            false
| cleaned data hd c :
    http_post w (h ++ [CallGet id])%list
              (Notifier.url (JulesMonitor.notifier self)) data hd = Some 200 ->
    cleanup_of id c ->
    handled w self h id
            [CallGet id; CallPost (Notifier.url (JulesMonitor.notifier self)) data hd; c]
            true.

Inductive handled_all (w : World) (self : JulesMonitor.t)
  : list call -> list msg_meta -> list call -> nat -> Prop :=
| all_done h : handled_all w self h [] [] 0
| all_next h m rest seg b segs n :
    handled w self h (meta_id m) seg b ->
    handled_all w self (h ++ seg)%list rest segs n ->
    handled_all w self h (m :: rest) (seg ++ segs)%list ((if b then 1 else 0) + n).

(** [h] is the decoded body of a part of [p] whose type holds html. *)
Definition html_source (w : World) (p : payload) (h : string) : Prop :=
  exists n,
    In n (nodes p) /\ contains "html" (mimeType n) = true /\
    nonempty (body_data n) = true /\ b64decode w (body_data n) = Some h.

(** [t] is the decoded body of a part of [p] whose type holds plain and
    not html. *)
Definition text_source (w : World) (p : payload) (t : string) : Prop :=
  exists n,
    In n (nodes p) /\ contains "html" (mimeType n) = false /\
    contains "plain" (mimeType n) = true /\
    nonempty (body_data n) = true /\ b64decode w (body_data n) = Some t.

(** The ids fetched, in the order of the calls. *)
Fixpoint fetched_ids (calls : list call) : list string :=
  match calls with
  | [] => []
  | CallGet id :: rest => id :: fetched_ids rest
  | _ :: rest => fetched_ids rest
  end.

(** What [get_jules_emails] makes of the answer to the list call. *)
Definition listed (w : World) (h : list call) (query : string) : list msg_meta :=
  match api_list w h query with
  | Some messages => messages
  | None => []
  end.

(** ** A small world to run the callers in *)

Definition sample_message : message :=
  mkMessage (Some "m1") "t1" "Your task finished successfully."
    (Payload "multipart/alternative" ""
       [("Subject", "[Jules] Task completed"); ("From", "jules@google.com");
        ("SUBJECT", "[Jules] Task completed for octo/cat repository")]
       [Payload "text/plain" "Repository: octo/cat" [] [];
        Payload "text/html" "<p>Repository: octo/cat</p>" [] []]).

(** Two messages are listed, the first can be fetched, every post is answered
    with 200 and a body decodes to itself. *)
Definition sample_world : World :=
  mkWorld (fun _ _ => Some [mkMeta "m1" "t1"; mkMeta "m2" "t2"])
          (fun _ id => if String.eqb id "m1" then Some sample_message else None)
          (fun _ _ => true)
          (fun _ _ _ => true)
          (fun _ _ _ _ => Some 200)
          (fun data => Some data).

Definition sample_monitor : JulesMonitor.t :=
  JulesMonitor.mk "from:jules is:unread" " Archive "
                  (Notifier.init "my-topic" "https://ntfy.sh/").

Definition initial_state : state := mkState initial_globals [] 0.

(* ================================================================= *)
(** ** Strings *)

Lemma append_assoc (a b c : string) : (a ++ b) ++ c = a ++ (b ++ c).
Proof. induction a as [|x a IH]; simpl; [reflexivity | now rewrite IH]. Qed.

Lemma append_empty_r (a : string) : a ++ "" = a.
Proof. induction a as [|x a IH]; simpl; [reflexivity | now rewrite IH]. Qed.

Lemma length_append (a b : string) :
  String.length (a ++ b) = String.length a + String.length b.
Proof. induction a as [|x a IH]; simpl; [reflexivity | now rewrite IH]. Qed.

Lemma length_take (n : nat) (s : string) : String.length (take n s) <= n.
Proof.
  revert s; induction n as [|n IH]; intros [|c s]; simpl; try lia.
  specialize (IH s); lia.
Qed.

Lemma take_append (a b : string) : take (String.length a) (a ++ b) = a.
Proof. induction a as [|x a IH]; simpl; [now destruct b | now rewrite IH]. Qed.

Lemma drop_append (a b : string) : drop (String.length a) (a ++ b) = b.
Proof. induction a as [|x a IH]; simpl; [now destruct b | exact IH]. Qed.

Lemma all_chars_append (p : ascii -> bool) (a b : string) :
  all_chars p (a ++ b) = all_chars p a && all_chars p b.
Proof.
  induction a as [|x a IH]; simpl; [reflexivity|].
  now rewrite IH, andb_assoc.
Qed.

(* ================================================================= *)
(** ** The matcher against the declarative reading *)

Section MatcherCorrect.

Variable ic : bool.
Variable R : Type.

Lemma rep_sound (a : atom) (s : string) :
  forall lo hi pos mk (k : cont R) x,
    rep ic a lo hi s pos mk k = Some x ->
    exists w s',
      s = w ++ s' /\ all_chars (atom_matches ic a) w = true /\
      lo <= String.length w /\ within hi (String.length w) /\
      k s' (pos + String.length w) mk = Some x.
Proof.
  induction s as [|c s IH]; intros lo hi pos mk k x H; simpl in H.
  - destruct (lo =? 0) eqn:E; [|discriminate].
    apply Nat.eqb_eq in E. exists "", "". simpl.
    rewrite Nat.add_0_r. repeat split; try lia; auto.
    destruct hi; simpl; lia.
  - assert (Hstop : (if lo =? 0 then k (String c s) pos mk else None) = Some x ->
                    exists w s', String c s = w ++ s' /\
                      all_chars (atom_matches ic a) w = true /\
                      lo <= String.length w /\ within hi (String.length w) /\
                      k s' (pos + String.length w) mk = Some x).
    { intros Hs. destruct (lo =? 0) eqn:E; [|discriminate].
      apply Nat.eqb_eq in E. exists "", (String c s). simpl.
      rewrite Nat.add_0_r. repeat split; try lia; auto.
      destruct hi; simpl; lia. }
    destruct (hi_allows hi && atom_matches ic a c) eqn:Hc; [|auto].
    destruct (rep ic a (lo - 1) (dec_hi hi) s (S pos) mk k) as [y|] eqn:Hr; [|auto].
    injection H as <-.
    apply andb_prop in Hc. destruct Hc as [Hh Ha].
    destruct (IH _ _ _ _ _ _ Hr) as (w & s' & -> & Hall & Hlo & Hhi & Hk).
    exists (String c w), s'. simpl. rewrite Ha, Hall.
    replace (pos + S (String.length w)) with (S pos + String.length w) by lia.
    repeat split; auto; try lia.
    destruct hi as [h|]; simpl in *; auto.
    apply Nat.ltb_lt in Hh. lia.
Qed.

Lemma rep_complete (a : atom) (w : string) :
  forall lo hi pos mk (k : cont R) s' x,
    all_chars (atom_matches ic a) w = true ->
    lo <= String.length w -> within hi (String.length w) ->
    k s' (pos + String.length w) mk = Some x ->
    exists y, rep ic a lo hi (w ++ s') pos mk k = Some y.
Proof.
  induction w as [|c w IH]; intros lo hi pos mk k s' x Hall Hlo Hhi Hk; simpl in *.
  - assert (lo = 0) by lia. subst lo. rewrite Nat.add_0_r in Hk.
    destruct s' as [|c s']; simpl; [eauto|].
    destruct (hi_allows hi && atom_matches ic a c); [|eauto].
    destruct (rep ic a 0 (dec_hi hi) s' (S pos) mk k); eauto.
  - apply andb_prop in Hall. destruct Hall as [Ha Hall].
    assert (Hh : hi_allows hi = true).
    { destruct hi as [h|]; simpl in *; auto. apply Nat.ltb_lt. lia. }
    rewrite Hh, Ha. simpl.
    destruct (IH (lo - 1) (dec_hi hi) (S pos) mk k s' x) as [y Hy]; auto; try lia.
    + destruct hi as [h|]; simpl in *; auto. lia.
    + replace (S pos + String.length w) with (pos + S (String.length w)) by lia.
      exact Hk.
    + rewrite Hy. eauto.
Qed.

Lemma rmatch_sound (r : regex) :
  forall s pos mk (k : cont R) x,
    rmatch ic r s pos mk k = Some x ->
    exists w s' mk',
      s = w ++ s' /\ matches ic r pos w mk mk' /\
      k s' (pos + String.length w) mk' = Some x.
Proof.
  induction r as [|a|lo hi a|r1 IH1 r2 IH2|r1 IH1 r2 IH2|n r IH|];
    intros s pos mk k x H; simpl in H.
  - exists "", s, mk. simpl. rewrite Nat.add_0_r. repeat split; auto. constructor.
  - destruct s as [|c s]; [discriminate|].
    destruct (atom_matches ic a c) eqn:Ha; [|discriminate].
    exists (String c ""), s, mk. simpl.
    replace (pos + 1) with (S pos) by lia.
    repeat split; auto. now constructor.
  - destruct (rep_sound _ _ _ _ _ _ _ H) as (w & s' & -> & Hall & Hlo & Hhi & Hk).
    exists w, s', mk. repeat split; auto. now constructor.
  - destruct (IH1 _ _ _ _ _ H) as (w1 & s1 & mk1 & -> & M1 & H1).
    destruct (IH2 _ _ _ _ _ H1) as (w2 & s2 & mk2 & -> & M2 & H2).
    exists (w1 ++ w2), s2, mk2. rewrite append_assoc, length_append, Nat.add_assoc.
    repeat split; auto. econstructor; eauto.
  - destruct (rmatch ic r1 s pos mk k) as [y|] eqn:E.
    + injection H as <-.
      destruct (IH1 _ _ _ _ _ E) as (w & s' & mk' & -> & M1 & H1).
      exists w, s', mk'. repeat split; auto. now apply MOrL.
    + destruct (IH2 _ _ _ _ _ H) as (w & s' & mk' & -> & M1 & H1).
      exists w, s', mk'. repeat split; auto. now apply MOrR.
  - destruct (IH _ _ _ _ _ H) as (w & s' & mk' & -> & M1 & H1).
    exists w, s', ((n, (pos, pos + String.length w)) :: mk').
    repeat split; auto. now constructor.
  - destruct (pos =? 0) eqn:E; [|discriminate].
    apply Nat.eqb_eq in E. subst pos.
    exists "", s, mk. simpl. repeat split; auto. constructor.
Qed.

Lemma rmatch_complete (r : regex) pos w mk mk' :
  matches ic r pos w mk mk' ->
  forall s' (k : cont R) x,
    k s' (pos + String.length w) mk' = Some x ->
    exists y, rmatch ic r (w ++ s') pos mk k = Some y.
Proof.
  induction 1 as [pos mk|a c pos mk Ha|lo hi a w pos mk Hall Hlo Hhi
                 |r1 r2 w1 w2 pos mk mk1 mk2 M1 IH1 M2 IH2
                 |r1 r2 w pos mk mk' M1 IH1|r1 r2 w pos mk mk' M2 IH2
                 |n r w pos mk mk' M1 IH1|mk];
    intros s' k x Hk; simpl in *.
  - rewrite Nat.add_0_r in Hk. eauto.
  - rewrite Ha. replace (pos + 1) with (S pos) in Hk by lia. eauto.
  - eapply rep_complete; eauto.
  - rewrite append_assoc.
    rewrite length_append, Nat.add_assoc in Hk.
    destruct (IH2 _ _ _ Hk) as [y Hy].
    exact (IH1 _ (fun s0 p0 m0 => rmatch ic r2 s0 p0 m0 k) _ Hy).
  - destruct (IH1 _ _ _ Hk) as [y Hy]. rewrite Hy. eauto.
  - destruct (rmatch ic r1 (w ++ s') pos mk k); eauto.
  - exact (IH1 _ (fun s0 p0 m0 => k s0 p0 ((n, (pos, p0)) :: m0)) _ Hk).
  - eauto.
Qed.

End MatcherCorrect.

(** Marks are only ever added. *)
Lemma matches_keeps_mark ic r pos w mk mk' n :
  matches ic r pos w mk mk' ->
  mark_of n mk <> None -> mark_of n mk' <> None.
Proof.
  induction 1; intros Hn; auto.
  simpl. destruct (n0 =? n); [discriminate | auto].
Qed.

Lemma matches_sets_group ic r pos w mk mk' n :
  matches ic r pos w mk mk' ->
  sets_group n r = true -> mark_of n mk' <> None.
Proof.
  induction 1; simpl; intros Hs; try discriminate.
  - apply orb_prop in Hs. destruct Hs as [Hs|Hs].
    + eapply matches_keeps_mark; eauto.
    + auto.
  - apply andb_prop in Hs. tauto.
  - apply andb_prop in Hs. tauto.
  - destruct (n0 =? n); [discriminate|]. simpl in Hs. auto.
Qed.

Lemma match_at_sound ic r must s pos m :
  match_at ic r must s pos = Some m ->
  exists w post,
    s = w ++ post /\ matches ic r pos w [] (m_marks m) /\
    m_start m = pos /\ m_end m = pos + String.length w /\ m_from m = s.
Proof.
  unfold match_at. intros H.
  apply rmatch_sound in H. destruct H as (w & post & mk' & -> & Hm & Hk).
  destruct (must && (pos + String.length w =? pos)); [discriminate|].
  injection Hk as <-. simpl. exists w, post. auto.
Qed.

Lemma match_at_complete ic r pos w mk' post :
  matches ic r pos w [] mk' ->
  exists m, match_at ic r false (w ++ post) pos = Some m.
Proof.
  intros Hm. unfold match_at.
  eapply rmatch_complete; eauto. simpl. reflexivity.
Qed.

Lemma search_from_sound ic r s :
  forall pos m,
    search_from ic r s pos = Some m ->
    exists pre w post,
      s = pre ++ w ++ post /\
      matches ic r (pos + String.length pre) w [] (m_marks m) /\
      m_start m = pos + String.length pre /\
      m_end m = m_start m + String.length w /\
      m_from m = w ++ post.
Proof.
  induction s as [|c s IH]; intros pos m H; simpl in H.
  - destruct (match_at ic r false "" pos) as [m0|] eqn:E; [|discriminate].
    injection H as <-.
    destruct (match_at_sound _ _ _ _ _ E) as (w & post & Hs & Hm & Hst & Hen & Hfr).
    exists "", w, post. simpl. rewrite Nat.add_0_r, Hst.
    repeat split; auto. congruence.
  - destruct (match_at ic r false (String c s) pos) as [m0|] eqn:E.
    + injection H as <-.
      destruct (match_at_sound _ _ _ _ _ E) as (w & post & Hs & Hm & Hst & Hen & Hfr).
      exists "", w, post. simpl. rewrite Nat.add_0_r, Hst.
      repeat split; auto. congruence.
    + destruct (IH _ _ H) as (pre & w & post & -> & Hm & Hst & Hen & Hfr).
      exists (String c pre), w, post. simpl.
      replace (pos + S (String.length pre)) with (S pos + String.length pre) by lia.
      auto.
Qed.

Lemma search_from_complete ic r w mk' post pre :
  forall pos,
    matches ic r (pos + String.length pre) w [] mk' ->
    exists m, search_from ic r (pre ++ w ++ post) pos = Some m.
Proof.
  induction pre as [|c pre IH]; intros pos Hm; simpl in *.
  - rewrite Nat.add_0_r in Hm.
    destruct (match_at_complete post Hm) as [m Hmm].
    exists m. destruct (w ++ post); simpl; now rewrite Hmm.
  - destruct (match_at ic r false (String c (pre ++ w ++ post)) pos); [eauto|].
    apply IH. now replace (S pos + String.length pre) with (pos + S (String.length pre)) by lia.
Qed.

(** A group that every match sets can always be read. *)
Lemma group_defined ic r s m n :
  re_search ic r s = Some m -> sets_group n r = true ->
  exists t, group m n = Ok t.
Proof.
  intros H Hs. apply search_from_sound in H.
  destruct H as (pre & w & post & _ & Hm & _).
  pose proof (matches_sets_group n Hm Hs) as Hn.
  unfold group. destruct (mark_of n (m_marks m)) as [[a b]|]; [eauto | congruence].
Qed.

(* ================================================================= *)
(** ** Dictionaries and [max] *)

Section Dict.

Variable V : Type.
Implicit Types (d e : dict V) (k c : string) (v : V).

Lemma dict_get_keys d c : In c (dict_keys d) -> dict_get d c <> None.
Proof.
  induction d as [|[k v] d IH]; simpl; [tauto|].
  intros [->|H].
  - now rewrite String.eqb_refl.
  - destruct (String.eqb k c); [discriminate | auto].
Qed.

Lemma dict_get_app_l d e c :
  In c (dict_keys d) -> dict_get (d ++ e)%list c = dict_get d c.
Proof.
  induction d as [|[k v] d IH]; simpl; [tauto|].
  intros [->|H].
  - now rewrite String.eqb_refl.
  - destruct (String.eqb k c); auto.
Qed.

Lemma dict_get_app_r d e c :
  ~ In c (dict_keys d) -> dict_get (d ++ e)%list c = dict_get e c.
Proof.
  induction d as [|[k v] d IH]; simpl; [reflexivity|].
  intros H. destruct (String.eqb_spec k c) as [->|Hne]; [tauto|].
  apply IH. tauto.
Qed.

Lemma dict_set_new d k v :
  ~ In k (dict_keys d) -> dict_set d k v = (d ++ [(k, v)])%list.
Proof.
  induction d as [|[k' v'] d IH]; simpl; [reflexivity|].
  intros H. destruct (String.eqb_spec k' k) as [->|Hne]; [tauto|].
  rewrite IH; tauto.
Qed.

Lemma dict_keys_app d e : dict_keys (d ++ e)%list = (dict_keys d ++ dict_keys e)%list.
Proof. unfold dict_keys. apply map_app. Qed.

End Dict.

Section Max.

Variable f : string -> option nat.
Variable g : string -> nat.

Lemma max_loop_stays (l : list string) (a : string) :
  (forall x, In x (a :: l) -> f x = Some (g x)) ->
  (forall x, In x l -> g x <= g a) ->
  max_loop f a (f a) l = Ok a.
Proof.
  induction l as [|x l IH]; intros Hf Hle; simpl; [reflexivity|].
  rewrite (Hf x), (Hf a) by (simpl; auto). simpl.
  assert (Hx : g x <= g a) by (apply Hle; simpl; auto).
  apply Nat.ltb_ge in Hx. rewrite Hx.
  rewrite <- (Hf a) by (simpl; auto).
  apply IH.
  - intros y [->|Hy]; apply Hf; simpl; auto.
  - intros y Hy. apply Hle. simpl; auto.
Qed.

Lemma max_loop_first (l1 l2 : list string) (a : string) :
  forall best,
    (forall x, In x (best :: l1 ++ a :: l2)%list -> f x = Some (g x)) ->
    g best < g a ->
    (forall x, In x l1 -> g x < g a) ->
    (forall x, In x l2 -> g x <= g a) ->
    max_loop f best (f best) (l1 ++ a :: l2)%list = Ok a.
Proof.
  induction l1 as [|x l1 IH]; intros best Hf Hb H1 H2; simpl.
  - rewrite (Hf a), (Hf best) by (simpl; auto). simpl.
    apply Nat.ltb_lt in Hb. rewrite Hb.
    rewrite <- (Hf a) by (simpl; auto).
    apply max_loop_stays; auto.
    intros y Hy. apply Hf. simpl in *. tauto.
  - rewrite (Hf x), (Hf best) by (simpl; auto). simpl.
    destruct (g best <? g x) eqn:E.
    + rewrite <- (Hf x) by (simpl; auto).
      apply IH; auto.
      * intros y Hy. apply Hf. simpl in *. tauto.
      * apply H1. simpl; auto.
      * intros y Hy. apply H1. simpl; auto.
    + rewrite <- (Hf best) by (simpl; auto).
      apply IH; auto.
      * intros y Hy. apply Hf. simpl in *. tauto.
      * intros y Hy. apply H1. simpl; auto.
Qed.

(** [max] returns the first element whose key is the greatest. *)
Lemma py_max_first (l1 l2 : list string) (a : string) :
  (forall x, In x (l1 ++ a :: l2)%list -> f x = Some (g x)) ->
  (forall x, In x l1 -> g x < g a) ->
  (forall x, In x l2 -> g x <= g a) ->
  py_max f (l1 ++ a :: l2)%list = Ok a.
Proof.
  intros Hf H1 H2. destruct l1 as [|x l1]; simpl.
  - apply max_loop_stays; auto.
  - apply max_loop_first; auto.
    + apply H1. simpl; auto.
    + intros y Hy. apply H1. simpl; auto.
Qed.

End Max.

Lemma max_loop_returns (d : dict nat) (l : list string) :
  forall best,
    (forall x, In x (best :: l) -> dict_get d x <> None) ->
    exists r, max_loop (dict_get d) best (dict_get d best) l = Ok r.
Proof.
  induction l as [|x l IH]; intros best H; simpl; [eauto|].
  destruct (dict_get d x) as [vx|] eqn:Ex; [|exfalso; apply (H x); simpl; auto].
  destruct (dict_get d best) as [vb|] eqn:Eb; [|exfalso; apply (H best); simpl; auto].
  simpl. destruct (vb <? vx).
  - rewrite <- Ex. apply IH. intros y [->|Hy]; apply H; simpl; auto.
  - rewrite <- Eb. apply IH. intros y [->|Hy]; apply H; simpl; auto.
Qed.

(** [max] over the keys of a non-empty dictionary does not raise. *)
Lemma py_max_returns (d : dict nat) :
  d <> [] -> exists r, py_max (dict_get d) (dict_keys d) = Ok r.
Proof.
  intros Hd. destruct d as [|[k v] d]; [congruence|].
  unfold py_max. cbn [dict_keys map fst].
  apply max_loop_returns. intros x Hx. apply dict_get_keys. exact Hx.
Qed.

(* ================================================================= *)
(** ** The status classifier *)

Lemma _detect_status_returns (text : string) (g : globals) :
  exists st, _detect_status text g = (Ok st, g).
Proof.
  unfold _detect_status, bind, read_STATUS_PATTERNS, ret, lift.
  destruct (collect_scores (STATUS_PATTERNS g) text) as [|e d] eqn:E; [eauto|].
  destruct (@py_max_returns (e :: d)) as [r Hr]; [discriminate|].
  rewrite Hr. eauto.
Qed.

Section Scores.

Variable table : dict (list regex).
Variable text : string.
Hypothesis table_keys_distinct : NoDup (dict_keys table).

Lemma collect_invariant (rest : dict (list regex)) :
  forall done acc,
    table = (done ++ rest)%list ->
    dict_keys acc = filter (scored table text) (dict_keys done) ->
    (forall c, In c (dict_keys acc) ->
               dict_get acc c = Some (category_score table c text)) ->
    dict_keys (fold_left (score_step text) rest acc) = filter (scored table text) (dict_keys table) /\
    (forall c, In c (dict_keys (fold_left (score_step text) rest acc)) ->
               dict_get (fold_left (score_step text) rest acc) c
               = Some (category_score table c text)).
Proof.
  induction rest as [|[k ps] rest IH]; intros done acc Ht Hk Hg; simpl.
  - rewrite app_nil_r in Ht. subst done. auto.
  - assert (Hfresh : ~ In k (dict_keys done)).
    { pose proof table_keys_distinct as N. rewrite Ht, dict_keys_app in N.
      simpl in N. apply NoDup_remove_2 in N. intros Hin. apply N.
      apply in_or_app. auto. }
    assert (Hsc : category_score table k text = score_of ps text).
    { unfold category_score. rewrite Ht, dict_get_app_r by exact Hfresh.
      simpl. now rewrite String.eqb_refl. }
    assert (Hacc : ~ In k (dict_keys acc)).
    { rewrite Hk. intros Hin. apply filter_In in Hin. tauto. }
    apply (IH (done ++ [(k, ps)])%list).
    + now rewrite <- app_assoc.
    + rewrite dict_keys_app, filter_app. simpl.
      unfold score_step, scored at 2. simpl. rewrite Hsc.
      destruct (0 <? score_of ps text).
      * rewrite dict_set_new, dict_keys_app by exact Hacc. simpl. now rewrite Hk.
      * now rewrite app_nil_r.
    + unfold score_step. simpl.
      destruct (0 <? score_of ps text); [|exact Hg].
      rewrite dict_set_new by exact Hacc.
      intros c Hc. rewrite dict_keys_app in Hc. apply in_app_or in Hc.
      destruct (in_dec string_dec c (dict_keys acc)) as [Hin|Hout].
      * rewrite dict_get_app_l by exact Hin. auto.
      * rewrite dict_get_app_r by exact Hout.
        destruct Hc as [Hc|Hc]; [tauto|]. simpl in Hc.
        destruct Hc as [<-|[]]. simpl. now rewrite String.eqb_refl, Hsc.
Qed.

Lemma collect_scores_spec :
  dict_keys (collect_scores table text) = filter (scored table text) (dict_keys table) /\
  (forall c, In c (dict_keys (collect_scores table text)) ->
             dict_get (collect_scores table text) c
             = Some (category_score table c text)).
Proof.
  apply (@collect_invariant table [] []); simpl; auto; tauto.
Qed.

(** The classifier returns the first status, in table order, whose score is
    positive and the greatest. *)
Lemma detect_first_max (l1 l2 : list string) (a : string) :
  dict_keys table = (l1 ++ a :: l2)%list ->
  0 < category_score table a text ->
  (forall c, In c l1 -> category_score table c text < category_score table a text) ->
  (forall c, In c l2 -> category_score table c text <= category_score table a text) ->
  _detect_status text (mkGlobals table) = (Ok a, mkGlobals table).
Proof.
  intros Hkeys Ha H1 H2.
  destruct collect_scores_spec as [Hk Hg].
  rewrite Hkeys, filter_app in Hk. simpl in Hk.
  assert (Hsa : scored table text a = true) by (apply Nat.ltb_lt; exact Ha).
  rewrite Hsa in Hk.
  unfold _detect_status, bind, read_STATUS_PATTERNS, ret, lift. simpl.
  destruct (collect_scores table text) as [|e d] eqn:E.
  - simpl in Hk. destruct (filter (scored table text) l1); discriminate.
  - rewrite Hk.
    rewrite py_max_first with (g := fun c => category_score table c text); auto.
    + intros x Hx. apply Hg. rewrite Hk. exact Hx.
    + intros x Hx. apply filter_In in Hx. apply H1. tauto.
    + intros x Hx. apply filter_In in Hx. apply H2. tauto.
Qed.

Lemma detect_unknown :
  (forall c, In c (dict_keys table) -> category_score table c text = 0) ->
  _detect_status text (mkGlobals table) = (Ok "unknown", mkGlobals table).
Proof.
  intros H0. destruct collect_scores_spec as [Hk _].
  assert (Hnil : forall l, (forall c, In c l -> category_score table c text = 0) ->
                           filter (scored table text) l = []).
  { induction l as [|c l IH]; simpl; intros Hl; [reflexivity|].
    unfold scored at 1. rewrite (Hl c) by auto. simpl.
    apply IH. intros x Hx. apply Hl. auto. }
  rewrite (Hnil _ H0) in Hk.
  unfold _detect_status, bind, read_STATUS_PATTERNS, ret. simpl.
  destruct (collect_scores table text); [reflexivity | discriminate].
Qed.

End Scores.

(* ================================================================= *)
(** ** Every step of the parser returns *)

Lemma _extract_repo_returns (text subject : string) :
  exists r, _extract_repo text subject = Ok r.
Proof.
  unfold _extract_repo, repo_patterns, first_repo.
  destruct (re_search true repo_label text) as [m|] eqn:E1.
  { eapply group_defined; eauto. }
  destruct (re_search true repo_github text) as [m|] eqn:E2.
  { eapply group_defined; eauto. }
  destruct (re_search true repo_suffix text) as [m|] eqn:E3.
  { eapply group_defined; eauto. }
  destruct (re_search false repo_bare subject) as [m|] eqn:E4; [|eauto].
  destruct (@group_defined _ _ _ _ 1 E4 eq_refl) as [t ->].
  destruct (contains "/" t && negb (startswith t "http")); eauto.
Qed.

Section Returns.

Variable bs : MarkupLibrary.

Lemma _html_to_text_eq (html : string) (g : globals) :
  _html_to_text bs html g =
  (Ok match BeautifulSoup bs html with
      | Ok sp =>
          match visible_text bs sp with
          | Ok text => strip (re_sub false blank_lines (String nl (String nl "")) text)
          | Raise _ => html
          end
      | Raise _ => html
      end, g).
Proof.
  unfold _html_to_text, try_except, bind, lift, ret.
  destruct (BeautifulSoup bs html) as [sp|e]; [|reflexivity].
  destruct (visible_text bs sp); reflexivity.
Qed.

Lemma anchor_link_eq (html : string) (g : globals) :
  anchor_link bs html g =
  (Ok (if nonempty html then
         match BeautifulSoup bs html with
         | Ok sp =>
             match anchor_hrefs bs sp with
             | Ok hrefs => find is_jules_link hrefs
             | Raise _ => None
             end
         | Raise _ => None
         end
       else None), g).
Proof.
  unfold anchor_link, try_except, bind, lift, ret.
  destruct (nonempty html); [|reflexivity].
  destruct (BeautifulSoup bs html) as [sp|e]; [|reflexivity].
  destruct (anchor_hrefs bs sp); reflexivity.
Qed.

Lemma _extract_jules_link_eq (html text : string) (g : globals) :
  _extract_jules_link bs html text g =
  (Ok match fst (anchor_link bs html g) with
      | Ok (Some href) => href
      | _ => match find is_jules_link (re_findall false url_pattern text) with
             | Some url => url
             | None => ""
             end
      end, g).
Proof.
  unfold _extract_jules_link, bind. rewrite anchor_link_eq. simpl.
  destruct (if nonempty html then _ else _); unfold ret; [reflexivity|].
  destruct (find is_jules_link (re_findall false url_pattern text)); reflexivity.
Qed.

(** The body of [parse_jules_email], with every step run. *)
Lemma parse_jules_email_eq (e : RawEmail) (g : globals) :
  exists body_plain st rp li,
    (if nonempty (body_html e) then _html_to_text bs (body_html e) else ret (body_text e)) g
    = (Ok body_plain, g) /\
    _detect_status (scanning_text (subject e) (snippet e) body_plain) g = (Ok st, g) /\
    _extract_repo (scanning_text (subject e) (snippet e) body_plain) (subject e)
    = Ok rp /\
    _extract_jules_link bs (body_html e) body_plain g = (Ok li, g) /\
    parse_jules_email bs e g
    = (Ok (mkParsed st (_clean_subject (subject e)) rp
                    (_build_summary (snippet e) body_plain) li (subject e)), g).
Proof.
  assert (Hb : exists body_plain,
             (if nonempty (body_html e) then _html_to_text bs (body_html e)
              else ret (body_text e)) g = (Ok body_plain, g)).
  { destruct (nonempty (body_html e)); [|unfold ret; eauto].
    rewrite _html_to_text_eq. eauto. }
  destruct Hb as [body_plain Hb].
  destruct (_detect_status_returns
              (scanning_text (subject e) (snippet e) body_plain) g) as [st Hst].
  destruct (_extract_repo_returns
              (scanning_text (subject e) (snippet e) body_plain) (subject e))
    as [rp Hrp].
  pose proof (_extract_jules_link_eq (body_html e) body_plain g) as Hli.
  eexists body_plain, st, rp, _. repeat split; eauto.
  unfold parse_jules_email, bind at 1. rewrite Hb.
  unfold bind at 1. rewrite Hst.
  unfold bind at 1, lift. rewrite Hrp.
  unfold bind. rewrite Hli. reflexivity.
Qed.

End Returns.

(* ================================================================= *)
(** ** Totality, determinism and the scenarios *)

(** C5.  For every markup library, every e-mail and every module state,
    [parse_jules_email] returns a record (it raises nothing), the record keeps
    the subject verbatim and the module state is as before.  A failure of the
    markup library inside [_html_to_text] gives back the HTML unparsed, and
    inside [_extract_jules_link] it falls through to the scan of the text. *)
Theorem parse_jules_email_total (bs : MarkupLibrary) (e : RawEmail) (g : globals) :
  (exists r, parse_jules_email bs e g = (Ok r, g) /\ raw_subject r = subject e) /\
  (forall html,
      _html_to_text bs html g =
      (Ok match BeautifulSoup bs html with
          | Ok sp =>
              match visible_text bs sp with
              | Ok text => strip (re_sub false blank_lines (String nl (String nl "")) text)
              | Raise _ => html
              end
          | Raise _ => html
          end, g)) /\
  (forall html text,
      _extract_jules_link bs html text g =
      (Ok match (if nonempty html then
                   match BeautifulSoup bs html with
                   | Ok sp =>
                       match anchor_hrefs bs sp with
                       | Ok hrefs => find is_jules_link hrefs
                       | Raise _ => None
                       end
                   | Raise _ => None
                   end
                 else None) with
          | Some href => href
          | None => match find is_jules_link (re_findall false url_pattern text) with
                    | Some url => url
                    | None => ""
                    end
          end, g)).
Proof.
  split; [|split].
  - destruct (parse_jules_email_eq bs e g) as (bp & st & rp & li & _ & _ & _ & _ & H).
    rewrite H. eexists. split; reflexivity.
  - intros html. apply _html_to_text_eq.
  - intros html text. rewrite _extract_jules_link_eq, anchor_link_eq. simpl.
    destruct (if nonempty html then _ else _); reflexivity.
Qed.

(** C9.  Two calls in a row on the same e-mail, from any module state, return
    the same record, and the module state after them is the one before. *)
Theorem parse_jules_email_deterministic (bs : MarkupLibrary) (e : RawEmail) (g : globals) :
  exists r,
    parse_jules_email bs e g = (Ok r, g) /\
    (r1 <- parse_jules_email bs e ;; r2 <- parse_jules_email bs e ;; ret (r1, r2)) g
    = (Ok (r, r), g).
Proof.
  destruct (parse_jules_email_eq bs e g) as (bp & st & rp & li & _ & _ & _ & _ & H).
  eexists. split; [exact H|].
  unfold bind. rewrite H, H. reflexivity.
Qed.

(** C7.  The summary is at most 300 characters long, whichever branch builds
    it, and so is the [summary] field of every parsed record. *)
Theorem summary_cap (bs : MarkupLibrary) :
  (forall snippet body_text, String.length (_build_summary snippet body_text) <= 300) /\
  (forall e g, exists r,
      parse_jules_email bs e g = (Ok r, g) /\ String.length (summary r) <= 300).
Proof.
  assert (H : forall snippet body_text,
             String.length (_build_summary snippet body_text) <= 300).
  { intros sn bt. unfold _build_summary.
    destruct (nonempty sn); [apply length_take|].
    destruct (nonempty bt); [apply length_take|].
    simpl. lia. }
  split; [exact H|].
  intros e g.
  destruct (parse_jules_email_eq bs e g) as (bp & st & rp & li & _ & _ & _ & _ & Hp).
  rewrite Hp. eexists. split; [reflexivity|]. simpl. apply H.
Qed.

(** C8.  With all four fields empty the parser returns the defaults: status
    unknown, the fallback title, no repository, the fallback summary and no
    link. *)
Theorem parse_empty_email (bs : MarkupLibrary) :
  parse_jules_email bs empty_email initial_globals
  = (Ok (mkParsed "unknown" "Jules Notification" "" "New notification from Jules" "" ""),
     initial_globals).
Proof. vm_compute. reflexivity. Qed.

(** C1, as the spec has it: repo [octo/cat] and the pull-request link.  The
    parser returns neither. *)
Lemma completed_scenario_as_stated_fails :
  fst (parse_jules_email rejecting_markup completed_email initial_globals)
  <> Ok (mkParsed "completed" "Task completed for your PR" "octo/cat"
                  (snippet completed_email)
                  "https://github.com/octo/cat/pull/5"
                  (subject completed_email)).
Proof. vm_compute. discriminate. Qed.

(** C1, amended.  For the completed-task e-mail the parser returns status
    completed, the subject without its bracketed tag as title, the repository
    token with the full stop that follows it, the snippet as summary, and no
    link, since the body is empty. *)
Theorem completed_scenario (bs : MarkupLibrary) :
  parse_jules_email bs completed_email initial_globals
  = (Ok (mkParsed "completed" "Task completed for your PR" "octo/cat."
                  (snippet completed_email) "" (subject completed_email)),
     initial_globals)
  /\ String.length (snippet completed_email) <= 300.
Proof. split; [vm_compute; reflexivity | vm_compute; lia]. Qed.

(** C10.  For the subject [See https://jules.google.com/task/123], with
    nothing else in the e-mail, no pattern of the list matches the scanned
    text; the bare owner/name pattern matches the subject from position 12,
    after the scheme, so the candidate does not start with [http] and is
    returned as the repository. *)
Theorem repo_from_url_in_subject :
  let s := subject task_url_email in
  first_repo repo_patterns (scanning_text s "" "") = None /\
  (exists m, re_search false repo_bare s = Some m /\ m_start m = 12 /\
             group m 1 = Ok "jules.google.com/task") /\
  startswith "jules.google.com/task" "http" = false /\
  _extract_repo (scanning_text s "" "") s = Ok "jules.google.com/task" /\
  forall bs,
    fst (parse_jules_email bs task_url_email initial_globals)
    = Ok (mkParsed "unknown" s "jules.google.com/task" "New notification from Jules" "" s).
Proof.
  repeat split; try (vm_compute; reflexivity).
  eexists. repeat split; vm_compute; reflexivity.
Qed.

(* ================================================================= *)
(** ** The tie-break of the classifier *)

Lemma initial_keys_distinct : NoDup (dict_keys initial_STATUS_PATTERNS).
Proof.
  unfold initial_STATUS_PATTERNS, dict_keys. simpl.
  repeat constructor; simpl; intuition discriminate.
Qed.

(** C4, as the spec has it: of two statuses with equal positive scores that
    no other status exceeds, the earlier one is returned.  A third status,
    earlier than both and with the same score, wins instead. *)
Lemma tie_break_as_stated_fails :
  ~ (forall text l1 a l2 b l3,
        dict_keys initial_STATUS_PATTERNS = (l1 ++ a :: l2 ++ b :: l3)%list ->
        category_score initial_STATUS_PATTERNS a text
        = category_score initial_STATUS_PATTERNS b text ->
        0 < category_score initial_STATUS_PATTERNS a text ->
        (forall c, In c (dict_keys initial_STATUS_PATTERNS) ->
                   category_score initial_STATUS_PATTERNS c text
                   <= category_score initial_STATUS_PATTERNS a text) ->
        _detect_status text initial_globals = (Ok a, initial_globals)).
Proof.
  intros H.
  specialize (H "done failed review" ["completed"] "failed" [] "needs_review"
                ["in_progress"; "cancelled"] eq_refl eq_refl).
  assert (H' : _detect_status "done failed review" initial_globals
               = (Ok "failed", initial_globals)).
  { apply H.
    - vm_compute. lia.
    - intros c Hc. simpl in Hc.
      destruct Hc as [<-|[<-|[<-|[<-|[<-|[]]]]]]; vm_compute; lia. }
  vm_compute in H'. discriminate H'.
Qed.

(** C4, amended.  When two statuses have equal positive scores, every status
    declared before the earlier of them scores strictly less and no status
    scores more, the classifier returns the earlier of the two; and when no
    status has a positive score it returns unknown.  The declared order is
    completed, failed, needs_review, in_progress, cancelled. *)
Theorem tie_break_declared_order (text : string) :
  dict_keys initial_STATUS_PATTERNS
  = ["completed"; "failed"; "needs_review"; "in_progress"; "cancelled"] /\
  (forall l1 a l2 b l3,
      dict_keys initial_STATUS_PATTERNS = (l1 ++ a :: l2 ++ b :: l3)%list ->
      category_score initial_STATUS_PATTERNS a text
      = category_score initial_STATUS_PATTERNS b text ->
      0 < category_score initial_STATUS_PATTERNS a text ->
      (forall c, In c l1 ->
                 category_score initial_STATUS_PATTERNS c text
                 < category_score initial_STATUS_PATTERNS a text) ->
      (forall c, In c (dict_keys initial_STATUS_PATTERNS) ->
                 category_score initial_STATUS_PATTERNS c text
                 <= category_score initial_STATUS_PATTERNS a text) ->
      _detect_status text initial_globals = (Ok a, initial_globals)) /\
  ((forall c, In c (dict_keys initial_STATUS_PATTERNS) ->
              category_score initial_STATUS_PATTERNS c text = 0) ->
   _detect_status text initial_globals = (Ok "unknown", initial_globals)).
Proof.
  split; [reflexivity|]. split.
  - intros l1 a l2 b l3 Hk Hab Ha H1 Hle.
    apply (@detect_first_max _ text initial_keys_distinct l1 (l2 ++ b :: l3)%list);
      auto.
    intros c Hc. apply Hle. rewrite Hk. apply in_or_app. right. right. exact Hc.
  - apply detect_unknown. exact initial_keys_distinct.
Qed.

Lemma tie_break_declared_order_witness :
  _detect_status "failed review" initial_globals = (Ok "failed", initial_globals) /\
  _detect_status "nothing here" initial_globals = (Ok "unknown", initial_globals).
Proof.
  split.
  - destruct (tie_break_declared_order "failed review") as (_ & H & _).
    apply (H ["completed"] "failed" [] "needs_review" ["in_progress"; "cancelled"]).
    + reflexivity.
    + vm_compute. reflexivity.
    + vm_compute. lia.
    + intros c [<-|[]]. vm_compute. lia.
    + intros c Hc. simpl in Hc.
      destruct Hc as [<-|[<-|[<-|[<-|[<-|[]]]]]]; vm_compute; lia.
  - destruct (tie_break_declared_order "nothing here") as (_ & _ & H).
    apply H. intros c Hc. simpl in Hc.
    destruct Hc as [<-|[<-|[<-|[<-|[<-|[]]]]]]; vm_compute; reflexivity.
Defined.

(* ================================================================= *)
(** ** Classes and literals *)

Ltac each_char c :=
  destruct c as [[] [] [] [] [] [] [] []]; vm_compute; reflexivity.

Lemma tokchar_matches (c : ascii) : atom_matches true tokchar c = token_char c.
Proof. each_char c. Qed.

Lemma label_sep_matches (c : ascii) :
  atom_matches true (OneOf [CChar ":"; CSpace]) c = label_sep c.
Proof. each_char c. Qed.

Lemma ws_matches (c : ascii) : atom_matches true ws c = Chars.isspace c.
Proof. each_char c. Qed.

Lemma slash_matches (c : ascii) : atom_matches true (Lit "/") c = Ascii.eqb c "/".
Proof. each_char c. Qed.

Lemma url_char_matches (c : ascii) :
  atom_matches false
    (NoneOf [CSpace; CChar "<"; CChar ">"; CChar dquote; CChar squote;
             CChar ")"; CChar "]"]) c
  = negb (url_stop c).
Proof. each_char c. Qed.

Lemma all_chars_ext (p q : ascii -> bool) (w : string) :
  (forall c, p c = q c) -> all_chars p w = all_chars q w.
Proof.
  intros H. induction w as [|c w IH]; simpl; [reflexivity|].
  now rewrite H, IH.
Qed.

Lemma nonempty_length (w : string) : nonempty w = true <-> 1 <= String.length w.
Proof. destruct w; simpl; split; intros; try lia; try discriminate; auto. Qed.

Section Inversion.

Variable ic : bool.

Lemma matches_Empty_inv pos w mk mk' :
  matches ic Empty pos w mk mk' -> w = "" /\ mk' = mk.
Proof. inversion 1; subst; auto. Qed.

Lemma matches_Atom_inv a pos w mk mk' :
  matches ic (Atom a) pos w mk mk' ->
  exists c, w = String c "" /\ atom_matches ic a c = true /\ mk' = mk.
Proof. inversion 1; subst; eauto. Qed.

Lemma matches_Repeat_inv lo hi a pos w mk mk' :
  matches ic (Repeat lo hi a) pos w mk mk' ->
  all_chars (atom_matches ic a) w = true /\
  lo <= String.length w /\ within hi (String.length w) /\ mk' = mk.
Proof. inversion 1; subst; auto. Qed.

Lemma matches_Cat_inv r1 r2 pos w mk mk2 :
  matches ic (Cat r1 r2) pos w mk mk2 ->
  exists w1 w2 mk1,
    w = w1 ++ w2 /\ matches ic r1 pos w1 mk mk1 /\
    matches ic r2 (pos + String.length w1) w2 mk1 mk2.
Proof. inversion 1; subst; eauto 7. Qed.

Lemma matches_Or_inv r1 r2 pos w mk mk' :
  matches ic (Or r1 r2) pos w mk mk' ->
  matches ic r1 pos w mk mk' \/ matches ic r2 pos w mk mk'.
Proof. inversion 1; subst; auto. Qed.

Lemma matches_Group_inv n r pos w mk mk' :
  matches ic (Group n r) pos w mk mk' ->
  exists mk0, mk' = (n, (pos, pos + String.length w)) :: mk0 /\
              matches ic r pos w mk mk0.
Proof. inversion 1; subst; eauto. Qed.

Lemma matches_Bol_inv pos w mk mk' :
  matches ic Bol pos w mk mk' -> pos = 0 /\ w = "" /\ mk' = mk.
Proof. inversion 1; subst; auto. Qed.

End Inversion.

(** A literal word matches itself, up to case under IGNORECASE, and leaves
    the marks alone. *)
Lemma matches_lit_inv (ic : bool) (s : string) :
  forall pos w mk mk',
    matches ic (lit s) pos w mk mk' ->
    mk' = mk /\ String.length w = String.length s /\
    (if ic then lower w = lower s else w = s).
Proof.
  induction s as [|c s IH]; intros pos w mk mk' H.
  - simpl in H. apply matches_Empty_inv in H. destruct H as [-> ->].
    destruct ic; auto.
  - assert (Hone : forall x, atom_matches ic (Lit c) x = true ->
                     if ic then Chars.lower x = Chars.lower c else x = c).
    { intros x Hx. simpl in Hx. destruct ic; apply Ascii.eqb_eq in Hx; auto. }
    destruct s as [|d t].
    + simpl in H. apply matches_Atom_inv in H. destruct H as (x & -> & Hx & ->).
      apply Hone in Hx. simpl. destruct ic; [rewrite Hx|subst]; auto.
    + change (lit (String c (String d t)))
        with (Cat (Atom (Lit c)) (lit (String d t))) in H.
      apply matches_Cat_inv in H. destruct H as (w1 & w2 & mk1 & -> & M1 & M2).
      apply matches_Atom_inv in M1. destruct M1 as (x & -> & Hx & ->).
      destruct (IH _ _ _ _ M2) as (-> & Hlen & Hw).
      apply Hone in Hx.
      split; [reflexivity|]. split.
      * simpl in *. now rewrite Hlen.
      * change (String x "" ++ w2) with (String x w2).
        destruct ic.
        -- change (lower (String x w2)) with (String (Chars.lower x) (lower w2)).
           rewrite Hw, Hx. reflexivity.
        -- subst. reflexivity.
Qed.

Lemma matches_lit_intro (s : string) :
  forall pos w mk,
    lower w = lower s -> matches true (lit s) pos w mk mk.
Proof.
  induction s as [|c s IH]; intros pos w mk H.
  - destruct w; [constructor | discriminate].
  - destruct w as [|x w]; [discriminate|].
    simpl in H. injection H as Hc Hw.
    assert (Hx : matches true (Atom (Lit c)) pos (String x "") mk mk).
    { constructor. simpl. rewrite Hc. apply Ascii.eqb_refl. }
    destruct s as [|d t].
    + destruct w; [exact Hx | discriminate].
    + change (lit (String c (String d t)))
        with (Cat (Atom (Lit c)) (lit (String d t))).
      change (String x w) with (String x "" ++ w).
      econstructor; [exact Hx|]. apply IH. exact Hw.
Qed.

(* ================================================================= *)
(** ** The repository label *)

Lemma token_run (w : string) :
  all_chars (atom_matches true tokchar) w = true /\ 1 <= String.length w <->
  is_token w.
Proof.
  unfold is_token. rewrite (all_chars_ext _ token_char w tokchar_matches).
  rewrite nonempty_length. tauto.
Qed.

Lemma owner_name_inv pos w mk mk' :
  matches true owner_name pos w mk mk' -> owner_slash_name w /\ mk' = mk.
Proof.
  unfold owner_name, plus. cbn [cat]. intros H.
  apply matches_Cat_inv in H. destruct H as (o & w2 & mk1 & -> & Mo & H).
  apply matches_Cat_inv in H. destruct H as (sl & n & mk2 & -> & Ms & Mn).
  apply matches_Repeat_inv in Mo. destruct Mo as (Ho & Hol & _ & ->).
  apply matches_Atom_inv in Ms. destruct Ms as (c & -> & Hc & ->).
  apply matches_Repeat_inv in Mn. destruct Mn as (Hn & Hnl & _ & ->).
  rewrite slash_matches in Hc. apply Ascii.eqb_eq in Hc. subst c.
  split; [|reflexivity].
  exists o, n. repeat split; try (apply token_run; auto).
Qed.

Lemma owner_name_intro pos w mk :
  owner_slash_name w -> matches true owner_name pos w mk mk.
Proof.
  intros (o & n & -> & Ho & Hn).
  apply token_run in Ho. apply token_run in Hn.
  unfold owner_name, plus. cbn [cat].
  econstructor; [constructor; simpl; tauto|].
  change ("/" ++ n) with (String "/" "" ++ n).
  econstructor; [constructor; reflexivity|].
  constructor; simpl; tauto.
Qed.

Lemma repo_label_inv pos w mk :
  matches true repo_label pos w [] mk ->
  exists lab sep tok,
    w = lab ++ sep ++ tok /\
    (lower lab = "repository" \/ lower lab = "repo") /\
    nonempty sep = true /\ all_chars label_sep sep = true /\
    owner_slash_name tok /\
    mk = [(1, (pos + String.length lab + String.length sep,
               pos + String.length lab + String.length sep + String.length tok))].
Proof.
  unfold repo_label, plus. cbn [cat]. intros H.
  apply matches_Cat_inv in H. destruct H as (lab & w2 & mk1 & -> & Ml & H).
  apply matches_Cat_inv in H. destruct H as (sep & tok & mk2 & -> & Ms & Mt).
  apply matches_Repeat_inv in Ms. destruct Ms as (Hs & Hsl & _ & ->).
  apply matches_Group_inv in Mt. destruct Mt as (mk0 & -> & Mt).
  apply owner_name_inv in Mt. destruct Mt as [Ht ->].
  assert (Hlab : mk1 = [] /\ (lower lab = "repository" \/ lower lab = "repo")).
  { apply matches_Or_inv in Ml.
    destruct Ml as [Ml|Ml]; apply matches_lit_inv in Ml;
      destruct Ml as (-> & _ & Hl); auto. }
  destruct Hlab as [-> Hlab].
  exists lab, sep, tok. repeat split; auto.
  - now apply nonempty_length.
  - now rewrite (all_chars_ext _ _ sep label_sep_matches) in Hs.
Qed.

Lemma repo_label_intro pos lab sep tok :
  (lower lab = "repository" \/ lower lab = "repo") ->
  nonempty sep = true -> all_chars label_sep sep = true ->
  owner_slash_name tok ->
  exists mk, matches true repo_label pos (lab ++ sep ++ tok) [] mk.
Proof.
  intros Hlab Hs1 Hs2 Ht.
  unfold repo_label, plus. cbn [cat]. eexists.
  econstructor.
  - destruct Hlab as [H|H].
    + apply MOrL. apply matches_lit_intro. exact H.
    + apply MOrR. apply matches_lit_intro. exact H.
  - econstructor.
    + constructor.
      * now rewrite (all_chars_ext _ _ sep label_sep_matches).
      * now apply nonempty_length.
      * exact I.
    + constructor. apply owner_name_intro. exact Ht.
Qed.

Lemma drop_two (a b c : string) :
  drop (String.length a + String.length b) (a ++ b ++ c) = c.
Proof.
  rewrite <- length_append, <- append_assoc. apply drop_append.
Qed.


Lemma rmatch_lit_step (ic : bool) (R : Type) (c : ascii) (s' : string) :
  forall s pos mk (k : cont R),
    rmatch ic (lit (String c s')) s pos mk k
    = rmatch ic (Atom (Lit c)) s pos mk
        (fun s1 p1 m1 => rmatch ic (lit s') s1 p1 m1 k).
Proof. intros s pos mk k. destruct s'; reflexivity. Qed.

Lemma rmatch_lit_hit (R : Type) (s : string) :
  forall w rest pos mk (k : cont R),
    lower w = lower s ->
    rmatch true (lit s) (w ++ rest) pos mk k = k rest (pos + String.length w) mk.
Proof.
  induction s as [|c s IH]; intros w rest pos mk k H.
  - destruct w; [|discriminate]. simpl. now rewrite Nat.add_0_r.
  - destruct w as [|x w]; [discriminate|].
    simpl in H. injection H as Hx Hw.
    rewrite rmatch_lit_step.
    change (String x w ++ rest) with (String x (w ++ rest)).
    cbn [rmatch atom_matches]. rewrite Hx, Ascii.eqb_refl.
    rewrite IH by exact Hw. cbn [String.length].
    now replace (S pos + String.length w) with (pos + S (String.length w)) by lia.
Qed.

Lemma rmatch_lit_app (ic : bool) (R : Type) (s1 s2 : string) :
  forall s pos mk (k : cont R),
    rmatch ic (lit (s1 ++ s2)) s pos mk k
    = rmatch ic (lit s1) s pos mk
        (fun s' pos' mk' => rmatch ic (lit s2) s' pos' mk' k).
Proof.
  induction s1 as [|c s1 IH]; intros s pos mk k; [reflexivity|].
  change (String c s1 ++ s2) with (String c (s1 ++ s2)).
  rewrite !rmatch_lit_step. cbn [rmatch].
  destruct s as [|x s]; [reflexivity|].
  destruct (atom_matches ic (Lit c) x); [apply IH | reflexivity].
Qed.

Lemma sep_not_s (x : ascii) :
  label_sep x = true -> atom_matches true (Lit "s") x = false.
Proof.
  destruct x as [[] [] [] [] [] [] [] []]; vm_compute; intros H;
    first [reflexivity | discriminate H].
Qed.

Lemma token_not_sep (x : ascii) :
  token_char x = true -> label_sep x = false.
Proof.
  destruct x as [[] [] [] [] [] [] [] []]; vm_compute; intros H;
    first [reflexivity | discriminate H].
Qed.

(** The alternation of the two label words on a text that goes on with a
    separator: the word at hand is consumed, whichever of the two it is. *)
Lemma label_word_run (R : Type) (lab : string) (c : ascii) (t : string)
      (pos : nat) (mk : marks) (k : cont R) (x : R) :
  (lower lab = "repository" \/ lower lab = "repo") ->
  label_sep c = true ->
  k (String c t) (pos + String.length lab) mk = Some x ->
  rmatch true (Or (lit "repository") (lit "repo")) (lab ++ String c t) pos mk k
  = Some x.
Proof.
  intros Hlab Hc Hk. cbn [rmatch].
  destruct Hlab as [H|H].
  - rewrite (@rmatch_lit_hit R "repository") by exact H.
    now rewrite Hk.
  - change "repository" with ("repo" ++ "sitory").
    rewrite rmatch_lit_app.
    rewrite !(@rmatch_lit_hit R "repo") by exact H.
    rewrite rmatch_lit_step. cbn [rmatch].
    rewrite (sep_not_s _ Hc). exact Hk.
Qed.

(** A greedy repetition without an upper bound takes a whole run when what
    follows the run cannot go on with it and the rest of the pattern
    succeeds there. *)
Lemma rep_run (ic : bool) (R : Type) (a : atom) (w : string) :
  forall lo pos mk (k : cont R) rest x,
    all_chars (atom_matches ic a) w = true ->
    lo <= String.length w ->
    (forall c t, rest = String c t -> atom_matches ic a c = false) ->
    k rest (pos + String.length w) mk = Some x ->
    rep ic a lo None (w ++ rest) pos mk k = Some x.
Proof.
  induction w as [|c w IH]; intros lo pos mk k rest x Hall Hlo Hrest Hk.
  - cbn [String.length] in *. assert (lo = 0) by lia. subst lo.
    rewrite Nat.add_0_r in Hk.
    change ("" ++ rest) with rest.
    destruct rest as [|c t]; cbn [rep]; [exact Hk|].
    rewrite (Hrest c t eq_refl). simpl. exact Hk.
  - cbn [all_chars] in Hall. apply andb_prop in Hall. destruct Hall as [Ha Hall].
    change (String c w ++ rest) with (String c (w ++ rest)).
    cbn [rep hi_allows dec_hi]. rewrite Ha. cbn [andb].
    rewrite (IH (lo - 1) (S pos) mk k rest x); auto.
    + cbn [String.length] in Hlo. lia.
    + cbn [String.length] in Hk.
      now replace (S pos + String.length w) with (pos + S (String.length w)) by lia.
Qed.

Lemma token_run_on (w rest : string) (R : Type) (pos : nat) (mk : marks)
      (k : cont R) (x : R) :
  is_token w ->
  (forall c t, rest = String c t -> token_char c = false) ->
  k rest (pos + String.length w) mk = Some x ->
  rep true tokchar 1 None (w ++ rest) pos mk k = Some x.
Proof.
  intros Hw Hrest Hk. apply token_run in Hw. destruct Hw as [Hall Hlen].
  apply rep_run; auto.
  intros c t E. rewrite tokchar_matches. eauto.
Qed.

(** The owner/name pattern on a whole token. *)
Lemma owner_name_run (R : Type) (owner name post : string) (q : nat) (mk : marks)
      (k : cont R) (x : R) :
  is_token owner -> is_token name -> ends_token post = true ->
  k post (q + String.length (owner ++ "/" ++ name)) mk = Some x ->
  rmatch true owner_name (owner ++ "/" ++ name ++ post) q mk k = Some x.
Proof.
  intros Ho Hn Hp Hk. unfold owner_name, plus. cbn [cat rmatch].
  apply token_run_on; [exact Ho | intros c t E; now injection E as <- _ |].
  change ("/" ++ name ++ post) with (String "/" (name ++ post)).
  cbn iota. rewrite slash_matches, Ascii.eqb_refl.
  apply token_run_on; [exact Hn | |].
  - intros c t ->. simpl in Hp. now apply negb_true_iff in Hp.
  - rewrite length_append in Hk. cbn [String.length append] in Hk.
    rewrite <- Hk. f_equal. lia.
Qed.

(** The label pattern at the start of a label, its separators and a whole
    token: one match, and its group is the token. *)
Lemma repo_label_at (p : nat) (lab sep owner name post : string) :
  (lower lab = "repository" \/ lower lab = "repo") ->
  nonempty sep = true -> all_chars label_sep sep = true ->
  is_token owner -> is_token name -> ends_token post = true ->
  exists m,
    match_at true repo_label false
             (lab ++ sep ++ owner ++ "/" ++ name ++ post) p = Some m /\
    group m 1 = Ok (owner ++ "/" ++ name).
Proof.
  intros Hlab Hs1 Hs2 Ho Hn Hp.
  set (tok := owner ++ "/" ++ name).
  set (s := lab ++ sep ++ owner ++ "/" ++ name ++ post).
  set (q := p + String.length lab + String.length sep).
  exists (mkMatch p (q + String.length tok) [(1, (q, q + String.length tok))] s).
  split.
  - unfold match_at, repo_label, plus. cbn [cat rmatch]. subst s.
    destruct sep as [|c sep']; [discriminate|].
    change (String c sep' ++ owner ++ "/" ++ name ++ post)
      with (String c (sep' ++ owner ++ "/" ++ name ++ post)).
    pose proof Hs2 as Hc. cbn [all_chars] in Hc. apply andb_prop in Hc.
    destruct Hc as [Hc _].
    apply label_word_run; [exact Hlab | exact Hc |].
    change (String c (sep' ++ owner ++ "/" ++ name ++ post))
      with (String c sep' ++ owner ++ "/" ++ name ++ post).
    apply rep_run.
    + now rewrite (all_chars_ext _ _ (String c sep') label_sep_matches).
    + cbn [String.length]. lia.
    + intros d t E. rewrite label_sep_matches. apply token_not_sep.
      destruct Ho as [Ho1 Ho2]. destruct owner as [|o owner']; [discriminate|].
      injection E as <- _. cbn [all_chars] in Ho2.
      now apply andb_prop in Ho2.
    + apply owner_name_run; auto.
  - unfold group. cbn [m_marks mark_of Nat.eqb m_start m_from].
    replace (q + String.length tok - q) with (String.length tok) by lia.
    replace (q - p) with (String.length lab + String.length sep) by (subst q; lia).
    subst s. rewrite drop_two.
    replace (owner ++ "/" ++ name ++ post) with (tok ++ post).
    + now rewrite take_append.
    + subst tok. now rewrite !append_assoc.
Qed.

(** The search skips a prefix at no place of which the pattern matches. *)
Lemma search_from_skip ic r (pre s : string) (m : Match) :
  forall pos,
    (forall a b, pre = a ++ b -> nonempty b = true ->
                 match_at ic r false (b ++ s) (pos + String.length a) = None) ->
    match_at ic r false s (pos + String.length pre) = Some m ->
    search_from ic r (pre ++ s) pos = Some m.
Proof.
  induction pre as [|c pre IH]; intros pos Hnone Hm.
  - cbn [String.length] in Hm. rewrite Nat.add_0_r in Hm.
    change ("" ++ s) with s. destruct s; simpl; now rewrite Hm.
  - change (String c pre ++ s) with (String c (pre ++ s)).
    cbn [search_from].
    pose proof (Hnone "" (String c pre) eq_refl eq_refl) as H0.
    cbn [String.length] in H0. rewrite Nat.add_0_r in H0.
    change (String c pre ++ s) with (String c (pre ++ s)) in H0.
    rewrite H0. apply IH.
    + intros a b -> Hb.
      specialize (Hnone (String c a) b eq_refl Hb).
      cbn [String.length] in Hnone.
      now replace (S pos + String.length a) with (pos + S (String.length a)) by lia.
    + cbn [String.length] in Hm.
      now replace (S pos + String.length pre) with (pos + S (String.length pre)) by lia.
Qed.

(** The search returns the leftmost place where the pattern matches. *)
Lemma search_from_leftmost ic r (pre w post : string) (mk : marks) :
  forall pos m,
    search_from ic r (pre ++ w ++ post) pos = Some m ->
    matches ic r (pos + String.length pre) w [] mk ->
    m_start m <= pos + String.length pre.
Proof.
  induction pre as [|c pre IH]; intros pos m Hs Hm.
  - cbn [String.length] in *. rewrite Nat.add_0_r in *.
    change ("" ++ w ++ post) with (w ++ post) in Hs.
    destruct (match_at_complete post Hm) as [m0 Hm0].
    assert (E : search_from ic r (w ++ post) pos = Some m0).
    { destruct (w ++ post); simpl; now rewrite Hm0. }
    rewrite E in Hs. injection Hs as <-.
    apply match_at_sound in Hm0. destruct Hm0 as (_ & _ & _ & _ & -> & _). lia.
  - change (String c pre ++ w ++ post) with (String c (pre ++ w ++ post)) in Hs.
    cbn [search_from] in Hs.
    destruct (match_at ic r false (String c (pre ++ w ++ post)) pos) as [m0|] eqn:E.
    + injection Hs as <-.
      apply match_at_sound in E. destruct E as (_ & _ & _ & _ & -> & _). lia.
    + cbn [String.length] in *.
      replace (pos + S (String.length pre)) with (S pos + String.length pre) in * by lia.
      eapply IH; eauto.
Qed.

(** What the search for the label pattern finds is the first label of the
    text. *)
Lemma first_label_from_search (text : string) (m : Match) :
  re_search true repo_label text = Some m ->
  forall pre1, label_at text pre1 -> m_start m <= String.length pre1.
Proof.
  intros Hs pre1 (lab & sep & tok & post & E & Hlab & Hs1 & Hs2 & Ht).
  destruct (@repo_label_intro (0 + String.length pre1) _ _ _ Hlab Hs1 Hs2 Ht)
    as [mk Hm].
  unfold re_search in Hs. rewrite E in Hs.
  replace (pre1 ++ lab ++ sep ++ tok ++ post)
    with (pre1 ++ (lab ++ sep ++ tok) ++ post) in Hs
    by now rewrite !append_assoc.
  change (m_start m <= 0 + String.length pre1).
  eapply search_from_leftmost; eauto.
Qed.

(** No label before [pre]: the label pattern matches at no place of [pre]. *)
Lemma no_label_no_match (pre s : string) :
  (forall pre1, label_at (pre ++ s) pre1 -> String.length pre <= String.length pre1) ->
  forall a b, pre = a ++ b -> nonempty b = true ->
    match_at true repo_label false (b ++ s) (0 + String.length a) = None.
Proof.
  intros Hfirst a b -> Hb.
  destruct (match_at true repo_label false (b ++ s) (0 + String.length a))
    as [m|] eqn:E; [|reflexivity].
  exfalso.
  apply match_at_sound in E. destruct E as (w & post & Hw & Hm & _).
  apply repo_label_inv in Hm.
  destruct Hm as (lab & sep & tok & -> & Hlab & Hs1 & Hs2 & Ht & _).
  assert (Hl : label_at ((a ++ b) ++ s) a).
  { exists lab, sep, tok, post. rewrite append_assoc, Hw, !append_assoc. auto. }
  apply Hfirst in Hl. rewrite length_append in Hl.
  apply nonempty_length in Hb. lia.
Qed.

(** C6, as the spec has it: whenever the text holds a [repository:] or
    [repo:] label followed by an owner/name token and a github.com URL with
    another token, the labelled token is returned.  In
    [the repo github.com/other/proj and repository: acme/widgets] the word
    repo and a blank stand before the URL; the label pattern needs no colon
    and matches there first, and the extractor returns [github.com/other]. *)
Lemma repo_label_as_stated_fails :
  ~ (forall text subject tok url_tok,
        labelled_token text tok -> github_url_token text url_tok ->
        url_tok <> tok ->
        _extract_repo text subject = Ok tok).
Proof.
  intros H.
  assert (H' : _extract_repo
                 "the repo github.com/other/proj and repository: acme/widgets" ""
               = Ok "acme/widgets").
  { apply H with (url_tok := "other/proj").
    - exists "the repo github.com/other/proj and ", "repository", " ", "".
      repeat split; auto.
      exists "acme", "widgets". repeat split; reflexivity.
    - exists "the repo ", " and repository: acme/widgets".
      repeat split.
      exists "other", "proj". repeat split; reflexivity.
    - discriminate. }
  vm_compute in H'. discriminate H'.
Qed.

(** C6, amended.  The repository extractor returns the whole owner/name
    token of the first label of the scanned text, where a label is the word
    repository or repo in any letter case followed by one or more colons or
    white-space characters (a colon is not needed) and an owner/name token.
    The label pattern is tried before the github.com pattern, so a
    github.com URL plays no part, wherever it stands, unless the word
    repository or repo and white space stand directly before it: then that
    is the first label and the result is cut from the URL. *)
Theorem repo_first_label_token
        (text subject pre lab sep owner name post : string) :
  text = pre ++ lab ++ sep ++ owner ++ "/" ++ name ++ post ->
  (lower lab = "repository" \/ lower lab = "repo") ->
  nonempty sep = true -> all_chars label_sep sep = true ->
  is_token owner -> is_token name -> ends_token post = true ->
  (forall pre1, label_at text pre1 -> String.length pre <= String.length pre1) ->
  _extract_repo text subject = Ok (owner ++ "/" ++ name).
Proof.
  intros -> Hlab Hs1 Hs2 Ho Hn Hp Hfirst.
  destruct (@repo_label_at (0 + String.length pre) lab sep owner name post
              Hlab Hs1 Hs2 Ho Hn Hp) as (m & Hm & Hg).
  assert (Hs : re_search true repo_label
                 (pre ++ lab ++ sep ++ owner ++ "/" ++ name ++ post) = Some m).
  { unfold re_search. apply search_from_skip; [|exact Hm].
    apply no_label_no_match. exact Hfirst. }
  unfold _extract_repo, repo_patterns, first_repo. rewrite Hs. exact Hg.
Qed.

Lemma repo_first_label_token_witness :
  _extract_repo "see github.com/other/proj for repository: acme/widgets now" ""
  = Ok "acme/widgets" /\
  _extract_repo "the repo github.com/other/proj and repository: acme/widgets" ""
  = Ok "github.com/other".
Proof.
  split.
  - apply (@repo_first_label_token
             "see github.com/other/proj for repository: acme/widgets now" ""
             "see github.com/other/proj for " "repository" ": "
             "acme" "widgets" " now").
    + reflexivity.
    + left. reflexivity.
    + reflexivity.
    + reflexivity.
    + split; reflexivity.
    + split; reflexivity.
    + reflexivity.
    + intros pre1 H1.
      assert (Hs : exists m,
                 re_search true repo_label
                   "see github.com/other/proj for repository: acme/widgets now"
                 = Some m /\ m_start m = 30).
      { vm_compute. eexists. split; reflexivity. }
      destruct Hs as (m & Hm & Hst).
      change (30 <= String.length pre1). rewrite <- Hst.
      exact (first_label_from_search Hm H1).
  - apply (@repo_first_label_token
             "the repo github.com/other/proj and repository: acme/widgets" ""
             "the " "repo" " " "github.com" "other"
             "/proj and repository: acme/widgets").
    + reflexivity.
    + right. reflexivity.
    + reflexivity.
    + reflexivity.
    + split; reflexivity.
    + split; reflexivity.
    + reflexivity.
    + intros pre1 H1.
      assert (Hs : exists m,
                 re_search true repo_label
                   "the repo github.com/other/proj and repository: acme/widgets"
                 = Some m /\ m_start m = 4).
      { vm_compute. eexists. split; reflexivity. }
      destruct Hs as (m & Hm & Hst).
      change (4 <= String.length pre1). rewrite <- Hst.
      exact (first_label_from_search Hm H1).
Defined.

Example repo_label_after_url :
  _extract_repo "see github.com/other/proj for repository: acme/widgets" ""
  = Ok "acme/widgets".
Proof. vm_compute. reflexivity. Qed.

(* ================================================================= *)
(** ** The link extractor *)

Lemma matches_at_sound ic r s pos m :
  In m (matches_at ic r s pos) ->
  exists w post,
    s = w ++ post /\ matches ic r pos w [] (m_marks m) /\ group0 m = w.
Proof.
  assert (Hone : forall must m0, match_at ic r must s pos = Some m0 ->
                   exists w post, s = w ++ post /\
                     matches ic r pos w [] (m_marks m0) /\ group0 m0 = w).
  { intros must m0 H. apply match_at_sound in H.
    destruct H as (w & post & Hs & Hm & Hst & Hen & Hfr).
    exists w, post. repeat split; auto.
    unfold group0. rewrite Hen, Hst, Hfr, Hs.
    replace (pos + String.length w - pos) with (String.length w) by lia.
    apply take_append. }
  unfold matches_at.
  destruct (match_at ic r false s pos) as [m0|] eqn:E0; [|intros []].
  destruct (m_end m0 =? pos).
  - intros [<-|Hin]; [eauto|].
    destruct (match_at ic r true s pos) as [m2|] eqn:E2; [|destruct Hin].
    destruct Hin as [<-|[]]. eauto.
  - intros [<-|[]]. eauto.
Qed.

Lemma scan_sound ic r s :
  forall pos skip m,
    In m (scan ic r s pos skip) ->
    exists pre w post,
      s = pre ++ w ++ post /\
      matches ic r (pos + String.length pre) w [] (m_marks m) /\ group0 m = w.
Proof.
  induction s as [|c s IH]; intros pos skip m H.
  - destruct skip as [|n]; simpl in H; [|destruct H].
    rewrite app_nil_r in H. apply matches_at_sound in H.
    destruct H as (w & post & Hs & Hm & Hg).
    exists "", w, post. simpl. rewrite Nat.add_0_r. auto.
  - assert (Htail : forall k, In m (scan ic r s (S pos) k) ->
                      exists pre w post, String c s = pre ++ w ++ post /\
                        matches ic r (pos + String.length pre) w [] (m_marks m) /\
                        group0 m = w).
    { intros k Hk. destruct (IH _ _ _ Hk) as (pre & w & post & -> & Hm & Hg).
      exists (String c pre), w, post. simpl.
      replace (pos + S (String.length pre)) with (S pos + String.length pre) by lia.
      auto. }
    destruct skip as [|n]; simpl in H; [|eauto].
    apply in_app_or in H. destruct H as [H|H]; [|eauto].
    apply matches_at_sound in H. destruct H as (w & post & Hs & Hm & Hg).
    exists "", w, post. simpl. rewrite Nat.add_0_r. auto.
Qed.

(** Everything [findall] returns is a piece of the text that the pattern
    matches. *)
Lemma re_findall_sound ic r s u :
  In u (re_findall ic r s) ->
  occurs_in u s /\ exists pos mk, matches ic r pos u [] mk.
Proof.
  unfold re_findall. intros H. apply in_map_iff in H.
  destruct H as (m & <- & Hin). apply scan_sound in Hin.
  destruct Hin as (pre & w & post & -> & Hm & ->).
  split; [exists pre, post; reflexivity | eauto].
Qed.

Lemma url_pattern_inv pos w mk mk' :
  matches false url_pattern pos w mk mk' -> url_shaped w.
Proof.
  unfold url_pattern, plus, opt. cbn [cat]. intros H.
  apply matches_Cat_inv in H. destruct H as (w1 & x1 & mk1 & -> & M1 & H).
  apply matches_Cat_inv in H. destruct H as (w2 & x2 & mk2 & -> & M2 & H).
  apply matches_Cat_inv in H. destruct H as (w3 & w4 & mk3 & -> & M3 & M4).
  apply matches_lit_inv in M1. destruct M1 as (_ & _ & ->).
  apply matches_lit_inv in M3. destruct M3 as (_ & _ & ->).
  apply matches_Repeat_inv in M2. destruct M2 as (H2 & _ & Hhi & _).
  apply matches_Repeat_inv in M4. destruct M4 as (H4 & Hlo & _ & _).
  rewrite (all_chars_ext _ _ w4 url_char_matches) in H4.
  exists w4. split; [|split; [now apply nonempty_length | exact H4]].
  destruct w2 as [|c [|d w2]]; simpl in Hhi.
  - left. reflexivity.
  - change (Ascii.eqb "s" c && true = true) in H2.
    rewrite andb_true_r in H2. apply Ascii.eqb_eq in H2. subst c.
    right. reflexivity.
  - lia.
Qed.

Lemma find_first (A : Type) (p : A -> bool) (pre post : list A) (x : A) :
  (forall y, In y pre -> p y = false) -> p x = true ->
  find p (pre ++ x :: post)%list = Some x.
Proof.
  intros Hpre Hx. induction pre as [|y pre IH]; simpl.
  - now rewrite Hx.
  - rewrite (Hpre y) by (simpl; auto). apply IH.
    intros z Hz. apply Hpre. simpl; auto.
Qed.

(** C2, as the spec has it: with no HTML body, a matching URL anywhere in
    the scanning text is returned.  A URL in the snippet alone is not. *)
Lemma link_in_snippet_as_stated_fails :
  ~ (forall bs e g url,
        body_html e = "" ->
        find is_jules_link
             (re_findall false url_pattern
                         (scanning_text (subject e) (snippet e) (body_text e)))
        = Some url ->
        exists r, parse_jules_email bs e g = (Ok r, g) /\ link r = url).
Proof.
  intros H.
  destruct (H rejecting_markup completed_email initial_globals
              "https://github.com/octo/cat/pull/5" eq_refl) as (r & Hr & Hl).
  - vm_compute. reflexivity.
  - vm_compute in Hr. injection Hr as <-. discriminate Hl.
Qed.

(** C2, amended.  When the HTML body is empty, cannot be parsed or has no
    matching anchor, the link extractor scans its text argument, which the
    parser sets to the normalized body as it is (not lowercased, without
    subject or snippet), for the URL pattern from left to right and returns
    the first URL found that contains jules or github.com in any case, or the
    empty string.  Every URL found lies in that text, has the scheme http or
    https and holds no white space and none of the six closing characters.
    With an empty HTML body the link of the parsed record is therefore the
    one found in the body text, whatever subject and snippet hold. *)
Theorem link_fallback_scans_body (bs : MarkupLibrary) (html text : string) (g : globals) :
  fst (anchor_link bs html g) = Ok None ->
  _extract_jules_link bs html text g
  = (Ok (first_jules_link (re_findall false url_pattern text)), g) /\
  (forall u, In u (re_findall false url_pattern text) ->
             url_shaped u /\ occurs_in u text) /\
  (forall pre u post,
      re_findall false url_pattern text = (pre ++ u :: post)%list ->
      (forall y, In y pre -> is_jules_link y = false) -> is_jules_link u = true ->
      first_jules_link (re_findall false url_pattern text) = u) /\
  (forall subj snip,
      html = "" ->
      exists r,
        parse_jules_email bs (mkRawEmail subj snip html text) g = (Ok r, g) /\
        link r = first_jules_link (re_findall false url_pattern text)).
Proof.
  intros Hnone.
  assert (Hlink : _extract_jules_link bs html text g
                  = (Ok (first_jules_link (re_findall false url_pattern text)), g)).
  { rewrite _extract_jules_link_eq, Hnone. reflexivity. }
  split; [exact Hlink|]. split; [|split].
  - intros u Hu. apply re_findall_sound in Hu.
    destruct Hu as (Hocc & p & mk & Hm). split; [|exact Hocc].
    eapply url_pattern_inv; eauto.
  - intros pre u post Hf Hpre Hu. unfold first_jules_link.
    rewrite Hf, (@find_first _ _ _ post _ Hpre Hu). reflexivity.
  - intros subj snip ->.
    destruct (parse_jules_email_eq bs (mkRawEmail subj snip "" text) g)
      as (bp & st & rp & li & Hb & _ & _ & Hli & Hp).
    simpl in Hb, Hli. unfold ret in Hb. injection Hb as <-.
    rewrite Hlink in Hli. injection Hli as <-.
    rewrite Hp. eexists. split; reflexivity.
Qed.

Lemma link_fallback_scans_body_witness :
  _extract_jules_link rejecting_markup "<a href=x>"
    "Open https://Jules.google.com/task/7 (or http://example.org)." initial_globals
  = (Ok "https://Jules.google.com/task/7", initial_globals).
Proof.
  destruct (@link_fallback_scans_body rejecting_markup "<a href=x>"
              "Open https://Jules.google.com/task/7 (or http://example.org)."
              initial_globals eq_refl) as [H _].
  rewrite H. vm_compute. reflexivity.
Defined.

(* ================================================================= *)
(** ** The title *)

Lemma matches_min_len ic r pos w mk mk' :
  matches ic r pos w mk mk' -> min_len r <= String.length w.
Proof.
  induction 1; simpl; try lia.
  rewrite length_append. lia.
Qed.

Lemma drop_empty (n : nat) : drop n "" = "".
Proof. destruct n; reflexivity. Qed.

Lemma drop_drop (n k : nat) (s : string) : drop n (drop k s) = drop (k + n) s.
Proof.
  revert s. induction k as [|k IH]; intros s; simpl; [reflexivity|].
  destruct s as [|c s]; [now rewrite drop_empty | apply IH].
Qed.

Lemma length_lstrip (s : string) : String.length (lstrip s) <= String.length s.
Proof.
  induction s as [|c s IH]; simpl; [lia|].
  destruct (Chars.isspace c); simpl; lia.
Qed.

Lemma drop_lstrip (s : string) :
  drop (String.length s - String.length (lstrip s)) s = lstrip s.
Proof.
  induction s as [|c s IH]; [reflexivity|].
  cbn [lstrip]. destruct (Chars.isspace c) eqn:E.
  - pose proof (length_lstrip s).
    change (String.length (String c s)) with (S (String.length s)).
    replace (S (String.length s) - String.length (lstrip s))
      with (S (String.length s - String.length (lstrip s))) by lia.
    exact IH.
  - now rewrite Nat.sub_diag.
Qed.

Section Anchored.

Variable ic : bool.
Variable r : regex.
Variable repl : string.

(** [^] matches at position 0 only. *)
Lemma match_at_anchored must s pos :
  0 < pos -> match_at ic (Cat Bol r) must s pos = None.
Proof.
  intros H. unfold match_at. simpl.
  destruct (pos =? 0) eqn:E; [apply Nat.eqb_eq in E; lia | reflexivity].
Qed.

Lemma sub_from_anchored s :
  forall pos skip, 0 < pos -> sub_from ic (Cat Bol r) repl s pos skip = drop skip s.
Proof.
  induction s as [|c s IH]; intros pos skip H.
  - destruct skip; simpl; [|reflexivity].
    unfold matches_at. now rewrite match_at_anchored.
  - destruct skip as [|n]; simpl.
    + unfold matches_at. rewrite match_at_anchored by exact H. simpl.
      rewrite IH by lia. reflexivity.
    + apply IH. lia.
Qed.

(** An anchored pattern that is not found leaves the string as it is. *)
Lemma re_sub_anchored_miss s :
  match_at ic (Cat Bol r) false s 0 = None -> re_sub ic (Cat Bol r) repl s = s.
Proof.
  intros H. unfold re_sub. destruct s as [|c s]; simpl.
  - unfold matches_at. now rewrite H.
  - unfold matches_at. rewrite H. simpl. rewrite sub_from_anchored by lia.
    reflexivity.
Qed.

(** An anchored pattern that is found is replaced once, at the start. *)
Lemma re_sub_anchored_hit s m :
  match_at ic (Cat Bol r) false s 0 = Some m -> 0 < m_end m ->
  re_sub ic (Cat Bol r) repl s = repl ++ drop (m_end m) s.
Proof.
  intros H Hpos.
  destruct (match_at_sound _ _ _ _ _ H) as (w & post & Hs & _ & Hst & Hen & _).
  assert (Hms : matches_at ic (Cat Bol r) s 0 = [m]).
  { unfold matches_at. rewrite H.
    destruct (m_end m =? 0) eqn:E; [apply Nat.eqb_eq in E; lia | reflexivity]. }
  assert (Hlen : last_len [m] = m_end m).
  { unfold last_len, m_len. simpl. rewrite Hst. lia. }
  unfold re_sub. destruct s as [|c s]; simpl; rewrite Hms; simpl String.concat.
  - now rewrite drop_empty.
  - rewrite Hlen. destruct (m_end m) as [|n] eqn:En; [lia|].
    simpl. rewrite Nat.sub_0_r, sub_from_anchored by lia. reflexivity.
Qed.

End Anchored.

(** [\s*] at the end of a pattern takes the whole run of white space. *)
Lemma star_ws_greedy (R : Type) (k : cont R) (mk : marks) (s : string) :
  forall pos,
    (forall s' pos', k s' pos' mk <> None) ->
    rep true ws 0 None s pos mk k
    = k (lstrip s) (pos + (String.length s - String.length (lstrip s))) mk.
Proof.
  induction s as [|c s IH]; intros pos Hk.
  - simpl. now rewrite Nat.add_0_r.
  - cbn [rep lstrip hi_allows dec_hi andb Nat.eqb Nat.sub].
    rewrite ws_matches. destruct (Chars.isspace c) eqn:E.
    + rewrite IH by exact Hk.
      pose proof (length_lstrip s).
      change (String.length (String c s)) with (S (String.length s)).
      replace (pos + (S (String.length s) - String.length (lstrip s)))
        with (S pos + (String.length s - String.length (lstrip s))) by lia.
      destruct (k (lstrip s) _ mk) eqn:Ek; [reflexivity|].
      exfalso. eapply Hk. exact Ek.
    + now rewrite Nat.sub_diag, Nat.add_0_r.
Qed.

(** With an empty replacement, an anchored pattern that cannot match the
    empty string only ever removes a prefix. *)
Lemma re_sub_anchored_prefix ic r s :
  1 <= min_len r -> exists n, re_sub ic (Cat Bol r) "" s = drop n s.
Proof.
  intros Hmin.
  destruct (match_at ic (Cat Bol r) false s 0) as [m|] eqn:E.
  - exists (m_end m). rewrite (@re_sub_anchored_hit ic r "" s m E); [reflexivity|].
    destruct (match_at_sound _ _ _ _ _ E) as (w & post & _ & Hm & _ & Hen & _).
    apply matches_min_len in Hm. simpl in Hm. lia.
  - exists 0. now rewrite re_sub_anchored_miss.
Qed.

Lemma bracket_hit (rest : string) :
  match_at true prefix_bracket false ("[Jules] Jules: " ++ rest) 0
  = Some (mkMatch 0 8 [] ("[Jules] Jules: " ++ rest)).
Proof. vm_compute. reflexivity. Qed.

Lemma bracket_miss (rest : string) :
  match_at true prefix_bracket false ("Jules: " ++ rest) 0 = None.
Proof. vm_compute. reflexivity. Qed.

Lemma label_head (R : Type) (k : cont R) (rest : string) :
  rmatch true (Cat Bol (Cat (star ws) (lit "Jules:"))) ("Jules: " ++ rest) 0 [] k
  = k (String " " rest) 6 [].
Proof. vm_compute. reflexivity. Qed.

Lemma label_hit (rest : string) :
  match_at true prefix_label false ("Jules: " ++ rest) 0
  = Some (mkMatch 0 (7 + (String.length rest - String.length (lstrip rest))) []
                  ("Jules: " ++ rest)).
Proof.
  unfold match_at.
  change (rmatch true prefix_label ("Jules: " ++ rest) 0 [] ?k)
    with (rmatch true (Cat Bol (Cat (star ws) (lit "Jules:"))) ("Jules: " ++ rest) 0 []
                 (fun s' pos' mk' => rep true ws 0 None s' pos' mk' k)).
  rewrite label_head.
  rewrite star_ws_greedy by (intros s' pos'; simpl; discriminate).
  cbn [andb]. f_equal. f_equal.
  cbn [lstrip]. change (Chars.isspace " ") with true. cbn iota.
  pose proof (length_lstrip rest).
  change (String.length (String " " rest)) with (S (String.length rest)). lia.
Qed.

Lemma title_or_default_nonempty (s : string) : nonempty (title_or_default s) = true.
Proof.
  unfold title_or_default. destruct (nonempty (strip s)) eqn:E; [exact E | reflexivity].
Qed.

Lemma _clean_subject_unfold (s : string) :
  _clean_subject s
  = title_or_default
      (re_sub true prefix_google ""
         (re_sub true prefix_label "" (re_sub true prefix_bracket "" s))).
Proof. reflexivity. Qed.

(** C3, as the spec has it: of two stacked prefixes only the first is
    removed.  Removing the bracketed tag alone would leave the label in the
    title; the title extractor removes the label as well. *)
Lemma stacked_prefix_as_stated_fails :
  title_or_default (re_sub true prefix_bracket "" "[Jules] Jules: fix the build")
  = "Jules: fix the build" /\
  _clean_subject "[Jules] Jules: fix the build" <> "Jules: fix the build".
Proof. split; [vm_compute; reflexivity | vm_compute; discriminate]. Qed.

(** C3, amended.  The title extractor applies the three case-insensitive
    prefix substitutions one after the other: the bracketed tag, then the
    label with a colon, then the Google label with a dash or colon.  Each
    removes its pattern from the start of what the one before left, so what
    is removed is a prefix of the subject and stacked prefixes all go.  The
    rest is trimmed, and the fallback literal is returned when nothing is
    left, so the title is never empty.  For a subject that stacks the tag and
    the label, both are removed, with the white space after them. *)
Theorem clean_subject_removes_stacked_prefixes :
  (forall s,
      _clean_subject s
      = title_or_default
          (re_sub true prefix_google ""
             (re_sub true prefix_label "" (re_sub true prefix_bracket "" s)))) /\
  (forall s, exists n, _clean_subject s = title_or_default (drop n s)) /\
  (forall rest,
      _clean_subject ("[Jules] Jules: " ++ rest)
      = title_or_default (re_sub true prefix_google "" (lstrip rest))) /\
  _clean_subject "[Jules] Jules: fix the build" = "fix the build" /\
  (forall s, nonempty (_clean_subject s) = true) /\
  _clean_subject "" = "Jules Notification".
Proof.
  split; [exact _clean_subject_unfold|]. split; [|split; [|split; [|split]]].
  - intros s. rewrite _clean_subject_unfold.
    destruct (@re_sub_anchored_prefix true (cat [star ws; lit "[Jules]"; star ws]) s)
      as [n1 H1]; [vm_compute; lia|].
    change (Cat Bol (cat [star ws; lit "[Jules]"; star ws])) with prefix_bracket in H1.
    rewrite H1.
    destruct (@re_sub_anchored_prefix true (cat [star ws; lit "Jules:"; star ws])
                (drop n1 s)) as [n2 H2]; [vm_compute; lia|].
    change (Cat Bol (cat [star ws; lit "Jules:"; star ws])) with prefix_label in H2.
    rewrite H2.
    destruct (@re_sub_anchored_prefix true
                (cat [star ws; lit "Google Jules"; star ws;
                      Atom (OneOf [CChar "-"; CWide 8211%N; CWide 8212%N; CChar ":"]);
                      star ws])
                (drop n2 (drop n1 s))) as [n3 H3]; [vm_compute; lia|].
    change (Cat Bol (cat [star ws; lit "Google Jules"; star ws;
                          Atom (OneOf [CChar "-"; CWide 8211%N; CWide 8212%N; CChar ":"]);
                          star ws]))
      with prefix_google in H3.
    rewrite H3, !drop_drop. eauto.
  - intros rest. rewrite _clean_subject_unfold.
    assert (H1 : re_sub true prefix_bracket "" ("[Jules] Jules: " ++ rest)
                 = "Jules: " ++ rest).
    { apply (@re_sub_anchored_hit true (cat [star ws; lit "[Jules]"; star ws]) ""
               _ _ (bracket_hit rest)).
      simpl. lia. }
    assert (H2 : re_sub true prefix_label "" ("Jules: " ++ rest) = lstrip rest).
    { pose proof (@re_sub_anchored_hit true (cat [star ws; lit "Jules:"; star ws]) ""
                    _ _ (label_hit rest)) as H.
      cbn [m_end] in H.
      change (Cat Bol (cat [star ws; lit "Jules:"; star ws])) with prefix_label in H.
      rewrite H by lia.
      change ("" ++ ?x) with x.
      change (drop (7 + ?n) ("Jules: " ++ rest)) with (drop n rest).
      apply drop_lstrip. }
    rewrite H1, H2. reflexivity.
  - vm_compute. reflexivity.
  - intros s. rewrite _clean_subject_unfold. apply title_or_default_nonempty.
  - vm_compute. reflexivity.
Qed.

(* ================================================================= *)
(** ** More on the classifier *)

(** Every non-empty list has a first element of greatest key. *)
Lemma first_maximum (g : string -> nat) (l : list string) :
  l <> [] ->
  exists l1 a l2,
    l = (l1 ++ a :: l2)%list /\
    (forall x, In x l1 -> g x < g a) /\ (forall x, In x l2 -> g x <= g a).
Proof.
  induction l as [|x l IH]; [congruence|]. intros _.
  destruct l as [|y l].
  - exists [], x, []. simpl. repeat split; intros z [].
  - destruct IH as (l1 & a & l2 & Hl & H1 & H2); [discriminate|].
    destruct (Nat.ltb_spec (g x) (g a)) as [Hlt|Hge].
    + exists (x :: l1), a, l2. rewrite Hl. repeat split; auto.
      intros z [<-|Hz]; auto.
    + exists [], x, (y :: l). repeat split; [intros z []|].
      intros z Hz. rewrite Hl in Hz. apply in_app_or in Hz.
      destruct Hz as [Hz|[<-|Hz]].
      * specialize (H1 z Hz). lia.
      * exact Hge.
      * specialize (H2 z Hz). lia.
Qed.

(** What the classifier returns on any table whose keys are distinct. *)
Lemma detect_characterised (table : dict (list regex)) (text : string) :
  NoDup (dict_keys table) ->
  ((forall c, In c (dict_keys table) -> category_score table c text = 0) /\
   _detect_status text (mkGlobals table) = (Ok "unknown", mkGlobals table))
  \/
  (exists l1 a l2,
      dict_keys table = (l1 ++ a :: l2)%list /\
      _detect_status text (mkGlobals table) = (Ok a, mkGlobals table) /\
      0 < category_score table a text /\
      (forall c, In c l1 -> category_score table c text < category_score table a text) /\
      (forall c, In c l2 -> category_score table c text <= category_score table a text)).
Proof.
  intros Hnd.
  assert (Hcase : dict_keys table = [] \/ dict_keys table <> []).
  { destruct (dict_keys table); [left; reflexivity | right; discriminate]. }
  destruct Hcase as [Ek|Ek].
  - left.
    assert (H0 : forall c, In c (dict_keys table) -> category_score table c text = 0).
    { rewrite Ek. intros c []. }
    split; [exact H0|]. now apply detect_unknown.
  - destruct (@first_maximum (fun c => category_score table c text) _ Ek)
      as (l1 & a & l2 & Hl & H1 & H2).
    cbv beta in H1, H2.
    destruct (category_score table a text) as [|n] eqn:Ea.
    + left.
      assert (H0 : forall c, In c (dict_keys table) -> category_score table c text = 0).
      { intros c Hc. rewrite Hl in Hc. apply in_app_or in Hc.
        destruct Hc as [Hc|[<-|Hc]].
        - specialize (H1 c Hc). lia.
        - exact Ea.
        - specialize (H2 c Hc). lia. }
      split; [exact H0|]. now apply detect_unknown.
    + right. exists l1, a, l2.
      assert (Hd : _detect_status text (mkGlobals table) = (Ok a, mkGlobals table)).
      { apply detect_first_max with (l1 := l1) (l2 := l2); auto; rewrite Ea; auto. lia. }
      rewrite Ea. repeat split; auto. lia.
Qed.

(** X1.  On any table with distinct keys the classifier returns either
    unknown, when every status scores 0, or the first status of the table
    whose score is the greatest: its score is positive, every status before
    it scores strictly less and none after it scores more. *)
Theorem classifier_first_maximum (table : dict (list regex)) (text : string) :
  NoDup (dict_keys table) ->
  ((forall c, In c (dict_keys table) -> category_score table c text = 0) /\
   _detect_status text (mkGlobals table) = (Ok "unknown", mkGlobals table))
  \/
  (exists l1 a l2,
      dict_keys table = (l1 ++ a :: l2)%list /\
      _detect_status text (mkGlobals table) = (Ok a, mkGlobals table) /\
      0 < category_score table a text /\
      (forall c, In c l1 -> category_score table c text < category_score table a text) /\
      (forall c, In c l2 -> category_score table c text <= category_score table a text)).
Proof. apply detect_characterised. Qed.

Lemma classifier_first_maximum_witness :
  ((forall c, In c (dict_keys initial_STATUS_PATTERNS) ->
              category_score initial_STATUS_PATTERNS c "review failed, error" = 0) /\
   _detect_status "review failed, error" initial_globals
   = (Ok "unknown", initial_globals))
  \/
  (exists l1 a l2,
      dict_keys initial_STATUS_PATTERNS = (l1 ++ a :: l2)%list /\
      _detect_status "review failed, error" initial_globals = (Ok a, initial_globals) /\
      0 < category_score initial_STATUS_PATTERNS a "review failed, error" /\
      (forall c, In c l1 ->
                 category_score initial_STATUS_PATTERNS c "review failed, error"
                 < category_score initial_STATUS_PATTERNS a "review failed, error") /\
      (forall c, In c l2 ->
                 category_score initial_STATUS_PATTERNS c "review failed, error"
                 <= category_score initial_STATUS_PATTERNS a "review failed, error")).
Proof.
  apply (@classifier_first_maximum initial_STATUS_PATTERNS "review failed, error").
  unfold initial_STATUS_PATTERNS, dict_keys. simpl.
  repeat constructor; simpl; intuition discriminate.
Defined.

(** X2.  The status of a parsed record is one of the six declared values. *)
Theorem status_is_declared (bs : MarkupLibrary) (e : RawEmail) :
  exists r,
    parse_jules_email bs e initial_globals = (Ok r, initial_globals) /\
    In (status r) status_values.
Proof.
  destruct (parse_jules_email_eq bs e initial_globals)
    as (bp & st & rp & li & _ & Hst & _ & _ & Hp).
  rewrite Hp. eexists. split; [reflexivity|]. simpl.
  destruct (@detect_characterised initial_STATUS_PATTERNS
              (scanning_text (subject e) (snippet e) bp) initial_keys_distinct)
    as [[_ H]|(l1 & a & l2 & Hk & H & _)];
    change (mkGlobals initial_STATUS_PATTERNS) with initial_globals in H;
    rewrite H in Hst; injection Hst as <-.
  - unfold status_values. simpl. tauto.
  - assert (Hin : In a (dict_keys initial_STATUS_PATTERNS)).
    { rewrite Hk. apply in_or_app. right. left. reflexivity. }
    unfold status_values. simpl in Hin |- *. tauto.
Qed.

(* ================================================================= *)
(** ** Letter case and the classifier *)

Lemma chars_lower_idem (c : ascii) : Chars.lower (Chars.lower c) = Chars.lower c.
Proof. each_char c. Qed.

Lemma chars_case (c : ascii) :
  Ascii.eqb (Chars.lower c) c
  || (Ascii.eqb (Chars.upper (Chars.lower c)) c && Ascii.eqb (Chars.upper c) c) = true.
Proof. each_char c. Qed.

Lemma citem_matches_lower (it : citem) (c : ascii) :
  citem_matches true it (Chars.lower c) = citem_matches true it c.
Proof.
  unfold citem_matches. rewrite chars_lower_idem.
  pose proof (chars_case c) as H. apply orb_prop in H. destruct H as [H|H].
  - apply Ascii.eqb_eq in H. now rewrite H.
  - apply andb_prop in H. destruct H as [H1 H2].
    apply Ascii.eqb_eq in H1, H2. rewrite H1, H2.
    destruct (citem_has it c), (citem_has it (Chars.lower c)); reflexivity.
Qed.

Lemma atom_matches_lower (a : atom) (c : ascii) :
  atom_matches true a (Chars.lower c) = atom_matches true a c.
Proof.
  assert (He : forall items,
             existsb (fun it => citem_matches true it (Chars.lower c)) items
             = existsb (fun it => citem_matches true it c) items).
  { induction items as [|it items IH]; cbn [existsb]; [reflexivity|].
    now rewrite citem_matches_lower, IH. }
  destruct a as [x|items|items]; cbn [atom_matches].
  - now rewrite chars_lower_idem.
  - apply He.
  - now rewrite He.
Qed.

Section LowerSimulation.

Variables R R' : Type.
Variable f : R -> R'.

Lemma rep_lower (a : atom) (s : string) :
  forall lo hi pos mk (k : cont R) (k' : cont R'),
    (forall s' p m, k' (lower s') p m = option_map f (k s' p m)) ->
    rep true a lo hi (lower s) pos mk k' = option_map f (rep true a lo hi s pos mk k).
Proof.
  induction s as [|c s IH]; intros lo hi pos mk k k' Hk.
  - simpl. destruct (lo =? 0); [apply (Hk "") | reflexivity].
  - cbn [rep lower]. rewrite atom_matches_lower.
    assert (Hstop : (if lo =? 0 then k' (String (Chars.lower c) (lower s)) pos mk else None)
                    = option_map f (if lo =? 0 then k (String c s) pos mk else None)).
    { destruct (lo =? 0); [apply (Hk (String c s)) | reflexivity]. }
    destruct (hi_allows hi && atom_matches true a c); [|exact Hstop].
    rewrite (IH _ _ _ _ k k' Hk).
    destruct (rep true a (lo - 1) (dec_hi hi) s (S pos) mk k); [reflexivity | exact Hstop].
Qed.

End LowerSimulation.

Lemma rmatch_lower (R R' : Type) (f : R -> R') (r : regex) :
  forall s pos mk (k : cont R) (k' : cont R'),
    (forall s' p m, k' (lower s') p m = option_map f (k s' p m)) ->
    rmatch true r (lower s) pos mk k' = option_map f (rmatch true r s pos mk k).
Proof.
  induction r as [|a|lo hi a|r1 IH1 r2 IH2|r1 IH1 r2 IH2|n r IH|];
    intros s pos mk k k' Hk; cbn [rmatch].
  - apply Hk.
  - destruct s as [|c s]; [reflexivity|]. cbn [lower].
    rewrite atom_matches_lower.
    destruct (atom_matches true a c); [apply Hk | reflexivity].
  - now apply rep_lower.
  - apply IH1. intros s' p m. now apply IH2.
  - rewrite (IH1 _ _ _ k k' Hk).
    destruct (rmatch true r1 s pos mk k); [reflexivity|]. now apply IH2.
  - apply IH. intros s' p m. apply Hk.
  - destruct (pos =? 0); [apply Hk | reflexivity].
Qed.

Lemma match_at_lower (r : regex) (must : bool) (s : string) (pos : nat) :
  match_at true r must (lower s) pos
  = option_map lower_match (match_at true r must s pos).
Proof.
  unfold match_at. apply rmatch_lower. intros s' p m.
  destruct (must && (p =? pos)); reflexivity.
Qed.

Lemma matches_at_lower (r : regex) (s : string) (pos : nat) :
  matches_at true r (lower s) pos = map lower_match (matches_at true r s pos).
Proof.
  unfold matches_at. rewrite !match_at_lower.
  destruct (match_at true r false s pos) as [m|]; [|reflexivity]. simpl.
  destruct (m_end m =? pos); [|reflexivity].
  destruct (match_at true r true s pos); reflexivity.
Qed.

Lemma last_len_lower (ms : list Match) : last_len (map lower_match ms) = last_len ms.
Proof.
  unfold last_len. rewrite <- map_rev. destruct (rev ms); reflexivity.
Qed.

Lemma scan_lower (r : regex) (s : string) :
  forall pos skip,
    scan true r (lower s) pos skip = map lower_match (scan true r s pos skip).
Proof.
  induction s as [|c s IH]; intros pos skip.
  - destruct skip; cbn [scan lower]; [|reflexivity].
    change EmptyString with (lower "") at 1.
    now rewrite matches_at_lower, !app_nil_r.
  - destruct skip as [|n]; cbn [scan lower]; [|apply IH].
    change (String (Chars.lower c) (lower s)) with (lower (String c s)).
    rewrite matches_at_lower, last_len_lower, map_app, IH. reflexivity.
Qed.

Lemma take_lower (n : nat) (s : string) : take n (lower s) = lower (take n s).
Proof.
  revert s. induction n as [|n IH]; intros [|c s]; simpl; try reflexivity.
  now rewrite IH.
Qed.

(** Under IGNORECASE, what is found in the lowercased text is what is found
    in the text, lowercased. *)
Lemma re_findall_lower (r : regex) (s : string) :
  re_findall true r (lower s) = map lower (re_findall true r s).
Proof.
  unfold re_findall. rewrite scan_lower, !map_map.
  apply map_ext. intros m. unfold group0, lower_match. simpl. apply take_lower.
Qed.

Lemma score_of_lower (patterns : list regex) (text : string) :
  score_of patterns (lower text) = score_of patterns text.
Proof.
  unfold score_of. generalize 0.
  induction patterns as [|p ps IH]; intros acc; simpl; [reflexivity|].
  rewrite re_findall_lower, length_map. apply IH.
Qed.

Lemma _detect_status_lower (text : string) (g : globals) :
  _detect_status (lower text) g = _detect_status text g.
Proof.
  unfold _detect_status, bind, read_STATUS_PATTERNS.
  assert (H : collect_scores (STATUS_PATTERNS g) (lower text)
              = collect_scores (STATUS_PATTERNS g) text).
  { unfold collect_scores. generalize (@nil (string * nat)).
    induction (STATUS_PATTERNS g) as [|e t IH]; intros acc; simpl; [reflexivity|].
    unfold score_step at 2 4. rewrite score_of_lower. apply IH. }
  now rewrite H.
Qed.

(** X3.  On texts of code points below 256, which are the strings here, the
    classifier does not see letter case: two such texts that agree once
    lowercased get the same status, whatever the table of patterns.  Beyond
    that range [str.lower] and the case folding of [re] part ways, and no
    such statement is made. *)
Theorem classifier_ignores_case (t1 t2 : string) (g : globals) :
  lower t1 = lower t2 -> _detect_status t1 g = _detect_status t2 g.
Proof.
  intros H. rewrite <- (_detect_status_lower t1), <- (_detect_status_lower t2).
  now rewrite H.
Qed.

Lemma classifier_ignores_case_witness :
  _detect_status "Task COMPLETED; Could Not merge" initial_globals
  = _detect_status "task completed; could not MERGE" initial_globals.
Proof.
  apply classifier_ignores_case. vm_compute. reflexivity.
Defined.

(* ================================================================= *)
(** ** The title is trimmed *)

Lemma lstrip_head (s : string) :
  lstrip s = "" \/ exists c t, lstrip s = String c t /\ Chars.isspace c = false.
Proof.
  induction s as [|c s IH]; [left; reflexivity|].
  cbn [lstrip]. destruct (Chars.isspace c) eqn:E; [exact IH|].
  right. eauto.
Qed.

Lemma rstrip_idem (s : string) : rstrip (rstrip s) = rstrip s.
Proof.
  induction s as [|c s IH]; [reflexivity|].
  cbn [rstrip]. cbv zeta.
  destruct (negb (nonempty (rstrip s)) && Chars.isspace c) eqn:E; [reflexivity|].
  cbn [rstrip]. cbv zeta. rewrite IH, E. reflexivity.
Qed.

Lemma strip_idem (s : string) : strip (strip s) = strip s.
Proof.
  unfold strip. destruct (lstrip_head s) as [H|(c & t & H & Hc)]; rewrite H.
  - reflexivity.
  - assert (Hr : rstrip (String c t) = String c (rstrip t)).
    { cbn [rstrip]. cbv zeta. now rewrite Hc, andb_false_r. }
    rewrite Hr at 1. cbn [lstrip]. rewrite Hc, <- Hr. apply rstrip_idem.
Qed.

(** X4.  The title has no white space at either end: trimming it again
    changes nothing. *)
Theorem title_is_trimmed (s : string) : strip (_clean_subject s) = _clean_subject s.
Proof.
  rewrite _clean_subject_unfold. unfold title_or_default.
  destruct (nonempty (strip _)); [apply strip_idem | reflexivity].
Qed.

(* ================================================================= *)
(** ** The repository is a token or empty *)

Lemma tokchar_matches_any (ic : bool) (c : ascii) :
  atom_matches ic tokchar c = token_char c.
Proof. destruct ic; each_char c. Qed.

Lemma slash_matches_any (ic : bool) (c : ascii) :
  atom_matches ic (Lit "/") c = Ascii.eqb c "/".
Proof. destruct ic; each_char c. Qed.

Lemma owner_name_inv_any ic pos w mk mk' :
  matches ic owner_name pos w mk mk' -> owner_slash_name w /\ mk' = mk.
Proof.
  unfold owner_name, plus. cbn [cat]. intros H.
  apply matches_Cat_inv in H. destruct H as (o & w2 & mk1 & -> & Mo & H).
  apply matches_Cat_inv in H. destruct H as (sl & n & mk2 & -> & Ms & Mn).
  apply matches_Repeat_inv in Mo. destruct Mo as (Ho & Hol & _ & ->).
  apply matches_Atom_inv in Ms. destruct Ms as (c & -> & Hc & ->).
  apply matches_Repeat_inv in Mn. destruct Mn as (Hn & Hnl & _ & ->).
  rewrite slash_matches_any in Hc. apply Ascii.eqb_eq in Hc. subst c.
  rewrite (all_chars_ext _ token_char o (tokchar_matches_any ic)) in Ho.
  rewrite (all_chars_ext _ token_char n (tokchar_matches_any ic)) in Hn.
  split; [|reflexivity].
  exists o, n. unfold is_token. rewrite !nonempty_length. auto.
Qed.

Lemma repo_label_captures : captures_token true repo_label.
Proof.
  intros pos w mk H. apply repo_label_inv in H.
  destruct H as (lab & sep & tok & -> & _ & _ & _ & Ht & ->).
  exists (lab ++ sep), tok, "".
  rewrite append_empty_r, append_assoc, length_append, !Nat.add_assoc.
  repeat split; auto.
Qed.

Lemma repo_github_captures : captures_token true repo_github.
Proof.
  intros pos w mk H. unfold repo_github in H. cbn [cat] in H.
  apply matches_Cat_inv in H. destruct H as (a & tok & mk1 & -> & Ma & Mt).
  apply matches_lit_inv in Ma. destruct Ma as (-> & _ & _).
  apply matches_Group_inv in Mt. destruct Mt as (mk0 & -> & Mt).
  apply owner_name_inv_any in Mt. destruct Mt as [Ht ->].
  exists a, tok, "". rewrite append_empty_r. repeat split; auto.
Qed.

Lemma repo_suffix_captures : captures_token true repo_suffix.
Proof.
  intros pos w mk H. unfold repo_suffix, plus in H. cbn [cat] in H.
  apply matches_Cat_inv in H. destruct H as (tok & b & mk1 & -> & Mt & Mb).
  apply matches_Group_inv in Mt. destruct Mt as (mk0 & -> & Mt).
  apply owner_name_inv_any in Mt. destruct Mt as [Ht ->].
  apply matches_Cat_inv in Mb. destruct Mb as (b1 & b2 & mk2 & -> & M1 & M2).
  apply matches_Repeat_inv in M1. destruct M1 as (_ & _ & _ & ->).
  apply matches_lit_inv in M2. destruct M2 as (-> & _ & _).
  exists "", tok, (b1 ++ b2). simpl. rewrite Nat.add_0_r. repeat split; auto.
Qed.

Lemma repo_bare_captures : captures_token false repo_bare.
Proof.
  intros pos w mk H. unfold repo_bare in H.
  apply matches_Group_inv in H. destruct H as (mk0 & -> & Mt).
  apply owner_name_inv_any in Mt. destruct Mt as [Ht ->].
  exists "", w, "". simpl. rewrite append_empty_r, Nat.add_0_r. repeat split; auto.
Qed.

(** What [group(1)] gives for a pattern that captures a token. *)
Lemma captured_token ic r text m :
  captures_token ic r -> re_search ic r text = Some m ->
  exists tok, group m 1 = Ok tok /\ owner_slash_name tok /\ occurs_in tok text.
Proof.
  intros Hc H. apply search_from_sound in H.
  destruct H as (pre & w & post & -> & Hm & Hst & Hen & Hfr).
  apply Hc in Hm. destruct Hm as (a & tok & b & -> & Ht & Hmk).
  exists tok. split; [|split; [exact Ht|]].
  - unfold group. rewrite Hmk, Hst, Hfr.
    match goal with
    | |- Ok (take ?x (drop ?y _)) = _ =>
        replace x with (String.length tok) by lia;
        replace y with (String.length a) by lia
    end.
    rewrite !append_assoc, drop_append, take_append. reflexivity.
  - exists (pre ++ a), (b ++ post). now rewrite !append_assoc.
Qed.

Lemma _extract_repo_shape (text subject : string) :
  exists r,
    _extract_repo text subject = Ok r /\
    (r = "" \/
     (owner_slash_name r /\
      (occurs_in r text \/ (occurs_in r subject /\ startswith r "http" = false)))).
Proof.
  unfold _extract_repo, repo_patterns, first_repo.
  destruct (re_search true repo_label text) as [m|] eqn:E1.
  { destruct (@captured_token _ _ _ _ repo_label_captures E1) as (tok & -> & Ht & Ho). eauto 6. }
  destruct (re_search true repo_github text) as [m|] eqn:E2.
  { destruct (@captured_token _ _ _ _ repo_github_captures E2) as (tok & -> & Ht & Ho). eauto 6. }
  destruct (re_search true repo_suffix text) as [m|] eqn:E3.
  { destruct (@captured_token _ _ _ _ repo_suffix_captures E3) as (tok & -> & Ht & Ho). eauto 6. }
  destruct (re_search false repo_bare subject) as [m|] eqn:E4; [|eauto].
  destruct (@captured_token _ _ _ _ repo_bare_captures E4) as (tok & -> & Ht & Ho).
  destruct (contains "/" tok); simpl; [|eauto].
  destruct (startswith tok "http") eqn:Eh; simpl; [eauto|].
  exists tok. split; [reflexivity|]. right. split; [exact Ht|]. right. auto.
Qed.

(** X5.  The repository extractor returns the empty string or an
    owner/name token: two non-empty runs of letters, digits, underscores,
    dots and hyphens with one slash between them.  The token is a piece of
    the scanned text, or else a piece of the subject that does not start with
    http. *)
Theorem repo_is_token_or_empty (text subject : string) :
  exists r,
    _extract_repo text subject = Ok r /\
    (r = "" \/
     (owner_slash_name r /\
      (occurs_in r text \/ (occurs_in r subject /\ startswith r "http" = false)))).
Proof. apply _extract_repo_shape. Qed.

Lemma contains_append_r (sub pre x : string) :
  contains sub x = true -> contains sub (pre ++ x) = true.
Proof.
  intros H. induction pre as [|c pre IH]; [exact H|].
  change (String c pre ++ x) with (String c (pre ++ x)).
  cbn [contains]. rewrite IH. apply orb_true_r.
Qed.

Lemma token_has_slash (tok text : string) :
  owner_slash_name tok -> occurs_in tok text -> contains "/" text = true.
Proof.
  intros (o & n & -> & _ & _) (pre & post & ->).
  rewrite !append_assoc.
  do 2 apply contains_append_r.
  change ("/" ++ n ++ post) with (String "/" (n ++ post)).
  destruct (n ++ post); reflexivity.
Qed.

(** X6.  When neither the scanned text nor the subject holds a slash, no
    repository is reported. *)
Theorem no_slash_no_repo (text subject : string) :
  contains "/" text = false -> contains "/" subject = false ->
  _extract_repo text subject = Ok "".
Proof.
  intros Ht Hs.
  destruct (_extract_repo_shape text subject) as (r & Hr & [->|[Htok [Ho|[Ho _]]]]).
  - exact Hr.
  - rewrite (@token_has_slash _ _ Htok Ho) in Ht. discriminate.
  - rewrite (@token_has_slash _ _ Htok Ho) in Hs. discriminate.
Qed.

Lemma no_slash_no_repo_witness :
  _extract_repo "jules: build failed in repo widgets" "Jules: build failed in repo widgets"
  = Ok "".
Proof. apply no_slash_no_repo; vm_compute; reflexivity. Defined.

(* ================================================================= *)
(** ** Snippets without entities *)

Lemma prefix_amp_miss (old s : string) (c : ascii) :
  Ascii.eqb c "&" = false -> String.prefix (String "&" old) (String c s) = false.
Proof.
  intros H. cbn [String.prefix].
  destruct (ascii_dec "&" c) as [<-|_]; [discriminate H | reflexivity].
Qed.

Lemma replace_no_amp (old new s : string) :
  all_chars (fun c => negb (Ascii.eqb c "&")) s = true ->
  replace (String "&" old) new s = s.
Proof.
  unfold replace. induction s as [|c s IH]; intros H; [reflexivity|].
  cbn [all_chars] in H. apply andb_prop in H. destruct H as [Hc Hs].
  apply negb_true_iff in Hc.
  cbn [replace_from]. rewrite prefix_amp_miss by exact Hc. rewrite IH by exact Hs. reflexivity.
Qed.

Lemma entity_miss (must : bool) (s : string) (pos : nat) :
  all_chars (fun c => negb (Ascii.eqb c "&")) s = true ->
  match_at false entity must s pos = None.
Proof.
  intros H. unfold match_at, entity. cbn [cat rmatch].
  destruct s as [|c s]; [reflexivity|].
  cbn [all_chars] in H. apply andb_prop in H. destruct H as [Hc _].
  apply negb_true_iff in Hc. cbn [atom_matches].
  rewrite Ascii.eqb_sym, Hc. reflexivity.
Qed.

Lemma sub_entity_no_amp (repl s : string) :
  forall pos,
    all_chars (fun c => negb (Ascii.eqb c "&")) s = true ->
    sub_from false entity repl s pos 0 = s.
Proof.
  induction s as [|c s IH]; intros pos H; cbn [sub_from]; unfold matches_at;
    rewrite entity_miss by exact H; [reflexivity|].
  cbn [all_chars] in H. apply andb_prop in H. destruct H as [_ Hs].
  simpl. rewrite IH by exact Hs. reflexivity.
Qed.

(** X7.  A non-empty snippet without an ampersand is the summary as it is,
    cut at 300 characters; the body is not looked at. *)
Theorem plain_snippet_is_summary (snippet body_text : string) :
  nonempty snippet = true ->
  all_chars (fun c => negb (Ascii.eqb c "&")) snippet = true ->
  _build_summary snippet body_text = take 300 snippet.
Proof.
  intros Hn Ha. unfold _build_summary. rewrite Hn.
  change "&#39;" with (String "&" "#39;"). change "&quot;" with (String "&" "quot;").
  assert (H1 : replace (String "&" "#39;") (String squote "") snippet = snippet)
    by (apply replace_no_amp; exact Ha).
  rewrite H1.
  assert (H2 : replace (String "&" "quot;") (String dquote "") snippet = snippet)
    by (apply replace_no_amp; exact Ha).
  rewrite H2.
  unfold re_sub. rewrite sub_entity_no_amp by exact Ha. reflexivity.
Qed.

Lemma plain_snippet_is_summary_witness :
  _build_summary "Jules finished the task: tests pass" "ignored body"
  = take 300 "Jules finished the task: tests pass".
Proof. apply plain_snippet_is_summary; vm_compute; reflexivity. Defined.

(* ================================================================= *)
(** ** More on the link *)

(** X8.  The link extractor returns the empty string, or a string that
    holds jules or github.com in some letter case and is either the target
    of an anchor of the HTML body, returned as it stands whether or not it
    is a URL, or an http or https URL that stands in the text.  The link
    field of a parsed record is of the same kind, the text being the
    normalized body. *)
Theorem link_is_jules_or_empty (bs : MarkupLibrary) (g : globals) :
  (forall html text, exists l,
      _extract_jules_link bs html text g = (Ok l, g) /\
      (l = "" \/
       (is_jules_link l = true /\
        (anchor_href_of bs html l \/ url_found_in text l)))) /\
  (forall e, exists r body_plain,
      (if nonempty (body_html e) then _html_to_text bs (body_html e)
       else ret (body_text e)) g = (Ok body_plain, g) /\
      parse_jules_email bs e g = (Ok r, g) /\
      (link r = "" \/
       (is_jules_link (link r) = true /\
        (anchor_href_of bs (body_html e) (link r) \/
         url_found_in body_plain (link r))))).
Proof.
  assert (H : forall html text, exists l,
             _extract_jules_link bs html text g = (Ok l, g) /\
             (l = "" \/
              (is_jules_link l = true /\
               (anchor_href_of bs html l \/ url_found_in text l)))).
  { intros html text. rewrite _extract_jules_link_eq, anchor_link_eq.
    eexists. split; [reflexivity|]. simpl.
    set (t := match find is_jules_link (re_findall false url_pattern text) with
              | Some url => url
              | None => ""
              end).
    assert (Htext : t = "" \/
                    (is_jules_link t = true /\
                     (anchor_href_of bs html t \/ url_found_in text t))).
    { subst t.
      destruct (find is_jules_link (re_findall false url_pattern text))
        as [u|] eqn:E; [right | left; reflexivity].
      apply find_some in E. destruct E as [Hin Hj].
      split; [exact Hj|]. right.
      apply re_findall_sound in Hin. destruct Hin as (Hocc & p & mk & Hm).
      split; [eapply url_pattern_inv; eauto | exact Hocc]. }
    destruct (nonempty html) eqn:Hn; [|exact Htext].
    destruct (BeautifulSoup bs html) as [sp|] eqn:Hb; [|exact Htext].
    destruct (anchor_hrefs bs sp) as [hrefs|] eqn:Ha; [|exact Htext].
    destruct (find is_jules_link hrefs) as [h|] eqn:E; [|exact Htext].
    apply find_some in E. destruct E as [Hin Hj].
    right. split; [exact Hj|]. left.
    split; [exact Hn|]. exists sp, hrefs. auto. }
  split; [exact H|].
  intros e.
  destruct (parse_jules_email_eq bs e g) as (bp & st & rp & li & Hb & _ & _ & Hli & Hp).
  rewrite Hp. eexists. exists bp. split; [exact Hb|]. split; [reflexivity|]. simpl.
  destruct (H (body_html e) bp) as (l & Hl & Hor). rewrite Hl in Hli.
  injection Hli as <-. exact Hor.
Qed.

(** X9.  When the HTML body parses, the first anchor target that holds
    jules or github.com is the link, whatever the text holds and whatever
    anchors come before or after it. *)
Theorem first_matching_anchor_wins (bs : MarkupLibrary) (html text : string)
        (g : globals) (sp : soup bs) (pre post : list string) (href : string) :
  nonempty html = true ->
  BeautifulSoup bs html = Ok sp ->
  anchor_hrefs bs sp = Ok (pre ++ href :: post)%list ->
  (forall h, In h pre -> is_jules_link h = false) ->
  is_jules_link href = true ->
  _extract_jules_link bs html text g = (Ok href, g).
Proof.
  intros Hn Hb Ha Hpre Hh.
  rewrite _extract_jules_link_eq, anchor_link_eq, Hn, Hb, Ha.
  simpl. rewrite (@find_first _ _ _ post _ Hpre Hh). reflexivity.
Qed.

Lemma first_matching_anchor_wins_witness :
  _extract_jules_link
    (anchors_markup ["https://example.org/unsubscribe";
                     "https://jules.google.com/task/9";
                     "https://github.com/octo/cat"])
    "<html>" "see https://github.com/other/proj" initial_globals
  = (Ok "https://jules.google.com/task/9", initial_globals).
Proof.
  apply (@first_matching_anchor_wins
           (anchors_markup ["https://example.org/unsubscribe";
                            "https://jules.google.com/task/9";
                            "https://github.com/octo/cat"])
           "<html>" "see https://github.com/other/proj" initial_globals tt
           ["https://example.org/unsubscribe"] ["https://github.com/octo/cat"]).
  - reflexivity.
  - reflexivity.
  - reflexivity.
  - intros h [<-|[]]. vm_compute. reflexivity.
  - vm_compute. reflexivity.
Defined.

(* ================================================================= *)
(** ** The notification text *)

Lemma length_u_of (s : string) : length (u_of s) = String.length s.
Proof.
  unfold u_of. rewrite length_map.
  induction s as [|c s IH]; simpl; [reflexivity | now rewrite IH].
Qed.

Lemma u_of_nonempty (s : string) : nonempty s = true -> u_of s <> [].
Proof. destruct s; [discriminate | intros _; discriminate]. Qed.

(** X10.  The notification text is never empty, and it is at most 21
    characters longer than repository, summary and link together. *)
Theorem notification_message_bounds (parsed : ParsedNotification) :
  JulesMonitor._build_notification_message parsed <> [] /\
  length (JulesMonitor._build_notification_message parsed)
  <= String.length (repo parsed) + String.length (summary parsed)
     + String.length (link parsed) + 21.
Proof.
  unfold JulesMonitor._build_notification_message.
  destruct parsed as [st ti rp su li rs]. cbn [repo summary link].
  destruct rp as [|c1 rp], su as [|c2 su], li as [|c3 li]; cbn [nonempty app ujoin];
    (split; [discriminate|]);
    repeat (rewrite ?length_app, ?length_u_of; cbn [length String.length]);
    rewrite ?length_u_of; cbn [String.length]; try lia.
Qed.

(* ================================================================= *)
(** ** The notifier *)

(** X11.  What [_make_header_safe] returns holds only characters below 256;
    it leaves such text as it is, so applying it twice is applying it once;
    and the Title header of every request is Jules, a colon and a space
    followed by the safe part of the title. *)
Theorem header_safe_is_latin1 (text : ustring) :
  Forall (fun c => (c < 256)%N) (Notifier._make_header_safe text) /\
  Notifier._make_header_safe (Notifier._make_header_safe text)
  = Notifier._make_header_safe text /\
  (forall s, Notifier._make_header_safe (u_of s) = u_of s) /\
  (forall cfg link,
      dict_get (Notifier.request_headers cfg text link) "Title"
      = Some (u_of "Jules: " ++ Notifier._make_header_safe text)%list).
Proof.
  unfold Notifier._make_header_safe. repeat split.
  - apply Forall_forall. intros c Hc. apply filter_In in Hc.
    destruct Hc as [_ Hc]. now apply N.ltb_lt in Hc.
  - induction text as [|c text IH]; simpl; [reflexivity|].
    destruct (c <? 256)%N eqn:E; simpl; [rewrite E, IH | rewrite IH]; reflexivity.
  - intros s. unfold u_of. induction s as [|c s IH]; simpl; [reflexivity|].
    assert (E : (N_of_ascii c <? 256)%N = true).
    { apply N.ltb_lt. apply N_ascii_bounded. }
    rewrite E. simpl in IH. now rewrite IH.
  - intros cfg link. unfold Notifier.request_headers. cbv zeta.
    assert (E : Notifier._make_header_safe (u_of "Jules: " ++ text)%list
                = (u_of "Jules: " ++ filter (fun c => (c <? 256)%N) text)%list).
    { unfold Notifier._make_header_safe. rewrite filter_app. reflexivity. }
    rewrite E. destruct (nonempty link); reflexivity.
Qed.

Lemma rstrip_chars_split (chars s : string) :
  exists tail,
    s = Notifier.rstrip_chars chars s ++ tail /\
    all_chars (fun c => Notifier.char_in c chars) tail = true.
Proof.
  induction s as [|c s IH]; [exists ""; auto|].
  destruct IH as (tail & Hs & Ht).
  cbn [Notifier.rstrip_chars]. cbv zeta.
  destruct (Notifier.rstrip_chars chars s) as [|d r] eqn:Er.
  - simpl in Hs. subst tail. cbn [nonempty negb andb].
    destruct (Notifier.char_in c chars) eqn:Ec.
    + exists (String c s). simpl. now rewrite Ec, Ht.
    + exists s. simpl. auto.
  - cbn [nonempty negb andb]. exists tail. simpl. now rewrite Hs at 1.
Qed.

Lemma rstrip_chars_last (chars s x : string) (c : ascii) :
  Notifier.rstrip_chars chars s = x ++ String c "" ->
  Notifier.char_in c chars = false.
Proof.
  revert x. induction s as [|d s IH]; intros x H.
  - destruct x; discriminate.
  - cbn [Notifier.rstrip_chars] in H. cbv zeta in H.
    destruct (Notifier.rstrip_chars chars s) as [|e r] eqn:Er.
    + cbn [nonempty negb andb] in H.
      destruct (Notifier.char_in d chars) eqn:Ed.
      * destruct x; discriminate.
      * destruct x as [|y x]; simpl in H.
        -- injection H as ->. exact Ed.
        -- injection H as _ H. destruct x; discriminate.
    + cbn [nonempty negb andb] in H.
      destruct x as [|y x]; simpl in H; [discriminate|].
      injection H as _ H. eapply IH. exact H.
Qed.

(** X12.  The notifier's server is the given one without its trailing
    slashes, it does not end in a slash, and the URL is server, one slash,
    topic. *)
Theorem notifier_url_join (topic server : string) :
  (exists slashes,
      server = Notifier.server (Notifier.init topic server) ++ slashes /\
      all_chars (fun c => Ascii.eqb c "/") slashes = true) /\
  (forall x, Notifier.server (Notifier.init topic server) <> x ++ "/") /\
  Notifier.url (Notifier.init topic server)
  = Notifier.server (Notifier.init topic server) ++ "/" ++ topic.
Proof.
  unfold Notifier.init. cbn [Notifier.server Notifier.url]. repeat split.
  - destruct (rstrip_chars_split "/" server) as (tail & Hs & Ht).
    exists tail. split; [exact Hs|].
    assert (E : all_chars (fun c => Ascii.eqb c "/") tail
                = all_chars (fun c => Notifier.char_in c "/") tail).
    { apply all_chars_ext. intros c. cbn [Notifier.char_in].
      rewrite orb_false_r. apply Ascii.eqb_sym. }
    rewrite E. exact Ht.
  - intros x H. apply rstrip_chars_last in H. vm_compute in H. discriminate.
Qed.

Lemma dict_get_In (V : Type) (d : dict V) (k : string) (v : V) :
  dict_get d k = Some v -> In (k, v) d.
Proof.
  induction d as [|[k' v'] d IH]; simpl; [discriminate|].
  destruct (String.eqb_spec k' k) as [->|_].
  - intros H. injection H as ->. auto.
  - auto.
Qed.

(** X13.  The configuration lookup never raises: each of the six status
    values has its own entry, any other status gets the entry of unknown,
    and the priority is default, high or low. *)
Theorem status_config_lookup (st : string) :
  exists cfg,
    Notifier.config_for Notifier.STATUS_CONFIG st = Returns cfg /\
    In (Notifier.priority cfg) ["default"; "high"; "low"] /\
    (In st status_values -> dict_get Notifier.STATUS_CONFIG st = Some cfg) /\
    (~ In st status_values ->
     dict_get Notifier.STATUS_CONFIG "unknown" = Some cfg).
Proof.
  unfold Notifier.config_for, GmailClient.dict_get_default.
  change (dict_get Notifier.STATUS_CONFIG "unknown")
    with (Some (Notifier.mkConfig "default" ["bell"; "jules"] [128276%N])).
  destruct (dict_get Notifier.STATUS_CONFIG st) as [cfg|] eqn:E.
  - exists cfg. split; [reflexivity|].
    apply dict_get_In in E. unfold Notifier.STATUS_CONFIG, status_values in *.
    simpl in E.
    destruct E as [E|[E|[E|[E|[E|[E|[]]]]]]]; injection E as <- <-;
      (split; [simpl; tauto|]); (split; [reflexivity|]);
      intros H; exfalso; apply H; simpl; tauto.
  - eexists. split; [reflexivity|]. split; [simpl; tauto|]. split; [|reflexivity].
    intros H. exfalso.
    apply (@dict_get_keys _ Notifier.STATUS_CONFIG st); [exact H | exact E].
Qed.

(* ================================================================= *)
(** ** The cleanup action *)

Lemma lower_append (a b : string) : lower (a ++ b) = lower a ++ lower b.
Proof. induction a as [|c a IH]; simpl; [reflexivity | now rewrite IH]. Qed.

Lemma isspace_lower (c : ascii) : Chars.isspace (Chars.lower c) = Chars.isspace c.
Proof. each_char c. Qed.

Lemma all_space_lower (s : string) :
  all_chars Chars.isspace (lower s) = all_chars Chars.isspace s.
Proof.
  induction s as [|c s IH]; simpl; [reflexivity|].
  now rewrite isspace_lower, IH.
Qed.

Lemma lstrip_space_prefix (l x : string) :
  all_chars Chars.isspace l = true -> lstrip (l ++ x) = lstrip x.
Proof.
  induction l as [|c l IH]; intros H; [reflexivity|].
  cbn [all_chars] in H. apply andb_prop in H. destruct H as [Hc Hl].
  change (String c l ++ x) with (String c (l ++ x)).
  cbn [lstrip]. rewrite Hc. auto.
Qed.

Lemma rstrip_all_space (r : string) :
  all_chars Chars.isspace r = true -> rstrip r = "".
Proof.
  induction r as [|c r IH]; intros H; [reflexivity|].
  cbn [all_chars] in H. apply andb_prop in H. destruct H as [Hc Hr].
  cbn [rstrip]. cbv zeta. rewrite (IH Hr), Hc. reflexivity.
Qed.

Lemma rstrip_space_suffix (x r : string) :
  all_chars Chars.isspace r = true -> rstrip (x ++ r) = rstrip x.
Proof.
  intros H. induction x as [|c x IH]; [now apply rstrip_all_space|].
  change (String c x ++ r) with (String c (x ++ r)).
  cbn [rstrip]. cbv zeta. now rewrite IH.
Qed.

Lemma strip_lstrip_suffix (a r : string) :
  all_chars Chars.isspace r = true -> rstrip (lstrip (a ++ r)) = rstrip (lstrip a).
Proof.
  intros H. induction a as [|c a IH].
  - change ("" ++ r) with r.
    assert (E : lstrip r = "").
    { clear -H. induction r as [|c r IH]; [reflexivity|].
      cbn [all_chars] in H. apply andb_prop in H. destruct H as [Hc Hr].
      cbn [lstrip]. rewrite Hc. auto. }
    now rewrite E.
  - change (String c a ++ r) with (String c (a ++ r)). cbn [lstrip].
    destruct (Chars.isspace c); [exact IH|].
    change (String c (a ++ r)) with (String c a ++ r).
    now apply rstrip_space_suffix.
Qed.

Lemma strip_padded (l a r : string) :
  all_chars Chars.isspace l = true -> all_chars Chars.isspace r = true ->
  strip (l ++ a ++ r) = strip a.
Proof.
  intros Hl Hr. unfold strip.
  rewrite lstrip_space_prefix by exact Hl. now apply strip_lstrip_suffix.
Qed.

(** X14.  The cleanup action is read without regard to letter case and to
    white space around it, and every action other than archive and read
    moves the message to the trash. *)
Theorem cleanup_action_normalised (w : World) (id l a1 a2 r : string) :
  all_chars Chars.isspace l = true ->
  all_chars Chars.isspace r = true ->
  lower a1 = lower a2 ->
  GmailClient.cleanup_email w id (l ++ a1 ++ r) = GmailClient.cleanup_email w id a2 /\
  (strip (lower a2) <> "archive" -> strip (lower a2) <> "read" ->
   GmailClient.cleanup_email w id (l ++ a1 ++ r) = GmailClient.trash_email w id).
Proof.
  intros Hl Hr Ha.
  assert (E : strip (lower (l ++ a1 ++ r)) = strip (lower a2)).
  { rewrite !lower_append, Ha. apply strip_padded; now rewrite all_space_lower. }
  unfold GmailClient.cleanup_email. cbv zeta. rewrite E.
  split; [reflexivity|].
  intros H1 H2.
  destruct (String.eqb_spec (strip (lower a2)) "trash"); [reflexivity|].
  destruct (String.eqb_spec (strip (lower a2)) "archive"); [contradiction|].
  destruct (String.eqb_spec (strip (lower a2)) "read"); [contradiction|].
  reflexivity.
Qed.

Lemma cleanup_action_normalised_witness :
  GmailClient.cleanup_email sample_world "m1" ("  " ++ "Delete" ++ " ")
  = GmailClient.cleanup_email sample_world "m1" "delete" /\
  (strip (lower "delete") <> "archive" -> strip (lower "delete") <> "read" ->
   GmailClient.cleanup_email sample_world "m1" ("  " ++ "Delete" ++ " ")
   = GmailClient.trash_email sample_world "m1").
Proof.
  apply cleanup_action_normalised; vm_compute; reflexivity.
Defined.

(* ================================================================= *)
(** ** Headers *)

Lemma dict_get_set (V : Type) (d : dict V) (k k' : string) (v : V) :
  dict_get (dict_set d k v) k' = if String.eqb k k' then Some v else dict_get d k'.
Proof.
  induction d as [|[x y] d IH]; simpl.
  - reflexivity.
  - destruct (String.eqb_spec x k) as [->|Hxk]; simpl.
    + destruct (String.eqb k k'); reflexivity.
    + destruct (String.eqb_spec x k') as [->|Hxk'].
      * destruct (String.eqb_spec k k') as [->|_]; [contradiction | reflexivity].
      * exact IH.
Qed.

(** X15.  A header is looked up by its lowercased name, and of several
    headers with the same name in any case the last one is found; so the
    subject, sender and date of a fetched message are those of its last such
    header, or the default. *)
Theorem header_lookup_last (hs : list (string * string)) (key : string) :
  dict_get (GmailClient.header_map hs) key = last_header hs key /\
  forall w id thread snip mime data ps,
    match GmailClient.email_of_message w
            (mkMessage id thread snip (Payload mime data hs ps)) with
    | Some d =>
        GmailClient.ed_subject d
        = match last_header hs "subject" with Some v => v | None => "(no subject)" end
        /\ GmailClient.ed_from d
           = match last_header hs "from" with Some v => v | None => "" end
        /\ GmailClient.ed_date d
           = match last_header hs "date" with Some v => v | None => "" end
    | None => True
    end.
Proof.
  assert (H : forall k, dict_get (GmailClient.header_map hs) k = last_header hs k).
  { intros k. unfold GmailClient.header_map, last_header.
    induction hs as [|h hs IH] using rev_ind; [reflexivity|].
    rewrite fold_left_app, rev_app_distr. cbn [fold_left rev app find].
    rewrite dict_get_set, IH.
    destruct (String.eqb (lower (fst h)) k); reflexivity. }
  split; [apply H|].
  intros w id thread snip mime data ps. unfold GmailClient.email_of_message.
  cbn [msg_id msg_payload headers].
  destruct id; [|exact I].
  destruct (GmailClient._extract_body w (Payload mime data hs ps)) as [[html text]|];
    [|exact I].
  cbn [GmailClient.ed_subject GmailClient.ed_from GmailClient.ed_date].
  unfold GmailClient.dict_get_default. now rewrite !H.
Qed.

(* ================================================================= *)
(** ** The body of a message *)

Lemma payload_induction (P : payload -> Prop) :
  (forall m d h ps, Forall P ps -> P (Payload m d h ps)) ->
  forall p, P p.
Proof.
  intros H. fix IH 1. intros [m d h ps]. apply H.
  induction ps as [|q ps IHps]; constructor; [apply IH | exact IHps].
Qed.

Lemma _extract_body_unfold (w : World) (p : payload) :
  GmailClient._extract_body w p
  = match GmailClient.direct_body w p with
    | None => None
    | Some direct => merge_all w (parts p) direct
    end.
Proof.
  destruct p as [m d h ps]. cbn [GmailClient._extract_body parts].
  destruct (GmailClient.direct_body w (Payload m d h ps)) as [direct|]; [|reflexivity].
  revert direct. induction ps as [|q ps IH]; intros acc; [reflexivity|].
  cbn [merge_all]. destruct (GmailClient._extract_body w q); [apply IH | reflexivity].
Qed.

Lemma direct_body_fails (w : World) (p : payload) :
  GmailClient.direct_body w p = None <->
  nonempty (body_data p) = true /\ b64decode w (body_data p) = None.
Proof.
  unfold GmailClient.direct_body.
  destruct (nonempty (body_data p)); [|split; [discriminate | intros [H _]; discriminate]].
  destruct (b64decode w (body_data p)).
  - split; [|intros [_ H]; discriminate].
    destruct (contains "html" (mimeType p)); [discriminate|].
    destruct (contains "plain" (mimeType p)); discriminate.
  - tauto.
Qed.

Lemma merge_all_fails (w : World) (ps : list payload) :
  forall acc,
    merge_all w ps acc = None <->
    exists q, In q ps /\ GmailClient._extract_body w q = None.
Proof.
  induction ps as [|q ps IH]; intros acc; cbn [merge_all].
  - split; [discriminate | intros (q & [] & _)].
  - destruct (GmailClient._extract_body w q) as [found|] eqn:E.
    + rewrite IH. split.
      * intros (x & Hx & Hn). exists x. simpl. auto.
      * intros (x & [<-|Hx] & Hn); [congruence | eauto].
    + split; [|reflexivity]. intros _. exists q. simpl. auto.
Qed.

(** X16.  The body extraction fails exactly when some part of the payload,
    of whatever type, has body data whose decoding raises. *)
Theorem extract_body_fails_iff (w : World) (p : payload) :
  GmailClient._extract_body w p = None <->
  exists n, In n (nodes p) /\ nonempty (body_data n) = true /\
            b64decode w (body_data n) = None.
Proof.
  induction p as [m d h ps IH] using payload_induction.
  rewrite _extract_body_unfold. cbn [parts nodes].
  split.
  - destruct (GmailClient.direct_body w (Payload m d h ps)) as [direct|] eqn:E.
    + intros H. apply merge_all_fails in H. destruct H as (q & Hq & Hn).
      rewrite Forall_forall in IH. apply (IH q Hq) in Hn.
      destruct Hn as (n & Hn & Hd). exists n. split; [|exact Hd].
      right. apply in_flat_map. eauto.
    + intros _. apply direct_body_fails in E. exists (Payload m d h ps).
      split; [left; reflexivity | exact E].
  - intros (n & [<-|Hn] & Hd).
    + apply direct_body_fails in Hd. now rewrite Hd.
    + destruct (GmailClient.direct_body w (Payload m d h ps)); [|reflexivity].
      apply merge_all_fails. apply in_flat_map in Hn. destruct Hn as (q & Hq & Hn).
      exists q. split; [exact Hq|].
      rewrite Forall_forall in IH. apply (IH q Hq). eauto.
Qed.

Lemma direct_body_sources (w : World) (p : payload) (h t : string) :
  GmailClient.direct_body w p = Some (h, t) ->
  (h = "" \/ (contains "html" (mimeType p) = true /\ nonempty (body_data p) = true /\
              b64decode w (body_data p) = Some h)) /\
  (t = "" \/ (contains "html" (mimeType p) = false /\
              contains "plain" (mimeType p) = true /\
              nonempty (body_data p) = true /\ b64decode w (body_data p) = Some t)).
Proof.
  unfold GmailClient.direct_body.
  destruct (nonempty (body_data p)); [|intros H; injection H as <- <-; auto].
  destruct (b64decode w (body_data p)) as [decoded|]; [|discriminate].
  destruct (contains "html" (mimeType p)).
  - intros H; injection H as <- <-. auto.
  - destruct (contains "plain" (mimeType p)); intros H; injection H as <- <-; auto 6.
Qed.

Lemma merge_all_sources (w : World) (ps : list payload) :
  Forall (fun q => forall h t,
              GmailClient._extract_body w q = Some (h, t) ->
              (h = "" \/ html_source w q h) /\ (t = "" \/ text_source w q t)) ps ->
  forall acc h t,
    merge_all w ps acc = Some (h, t) ->
    (h = fst acc \/ exists q, In q ps /\ html_source w q h) /\
    (t = snd acc \/ exists q, In q ps /\ text_source w q t).
Proof.
  induction 1 as [|q ps Hq Hps IH]; intros acc h t Hm; cbn [merge_all] in Hm.
  - injection Hm as ->. simpl. auto.
  - destruct (GmailClient._extract_body w q) as [[fh ft]|] eqn:E; [|discriminate].
    destruct (Hq _ _ eq_refl) as [Hh Ht].
    destruct (IH _ _ _ Hm) as [H1 H2]. unfold GmailClient.merge_part in H1, H2.
    cbn [fst snd] in H1, H2. split.
    + destruct H1 as [->|(x & Hx & Hs)]; [|right; exists x; simpl; auto].
      destruct (nonempty fh) eqn:En; [|auto].
      destruct Hh as [->|Hh]; [discriminate|]. right. exists q. simpl. auto.
    + destruct H2 as [->|(x & Hx & Hs)]; [|right; exists x; simpl; auto].
      destruct (nonempty ft) eqn:En; [|auto].
      destruct Ht as [->|Ht]; [discriminate|]. right. exists q. simpl. auto.
Qed.

Lemma body_sources_of_payload (w : World) (p : payload) :
  forall h t,
    GmailClient._extract_body w p = Some (h, t) ->
    (h = "" \/ html_source w p h) /\ (t = "" \/ text_source w p t).
Proof.
  induction p as [m d hd ps IH] using payload_induction. intros h t.
  rewrite _extract_body_unfold. cbn [parts].
  destruct (GmailClient.direct_body w (Payload m d hd ps)) as [[dh dt]|] eqn:E;
    [|discriminate].
  intros Hm. apply direct_body_sources in E. destruct E as [Eh Et].
  destruct (merge_all_sources IH _ Hm) as [H1 H2]. cbn [fst snd] in H1, H2.
  assert (Hlift : forall q n, In q ps -> In n (nodes q) -> In n (nodes (Payload m d hd ps))).
  { intros q n Hq Hn. cbn [nodes]. right. apply in_flat_map. eauto. }
  split.
  - destruct H1 as [->|(q & Hq & n & Hn & Hrest)].
    + destruct Eh as [->|Eh]; [auto|]. right.
      exists (Payload m d hd ps). split; [left; reflexivity | exact Eh].
    + right. exists n. split; [eapply Hlift; eauto | exact Hrest].
  - destruct H2 as [->|(q & Hq & n & Hn & Hrest)].
    + destruct Et as [->|Et]; [auto|]. right.
      exists (Payload m d hd ps). split; [left; reflexivity | exact Et].
    + right. exists n. split; [eapply Hlift; eauto | exact Hrest].
Qed.

(** X17.  The HTML body that is extracted is empty or the decoded body of
    some part whose type holds html, and the text body is empty or the
    decoded body of some part whose type holds plain and not html. *)
Theorem extract_body_sources (w : World) (p : payload) (h t : string) :
  GmailClient._extract_body w p = Some (h, t) ->
  (h = "" \/ html_source w p h) /\ (t = "" \/ text_source w p t).
Proof. apply body_sources_of_payload. Qed.

Lemma extract_body_sources_witness :
  ("<p>Repository: octo/cat</p>" = ""
   \/ html_source sample_world (msg_payload sample_message) "<p>Repository: octo/cat</p>")
  /\ ("Repository: octo/cat" = ""
      \/ text_source sample_world (msg_payload sample_message) "Repository: octo/cat").
Proof.
  apply (@extract_body_sources sample_world (msg_payload sample_message)).
  vm_compute. reflexivity.
Defined.

(* ================================================================= *)
(** ** One round of the monitor *)

Lemma config_for_returns (st : string) :
  exists cfg, Notifier.config_for Notifier.STATUS_CONFIG st = Returns cfg.
Proof.
  unfold Notifier.config_for.
  change (dict_get Notifier.STATUS_CONFIG "unknown")
    with (Some (Notifier.mkConfig "default" ["bell"; "jules"] [128276%N])).
  eauto.
Qed.

Lemma send_notification_runs (w : World) (self : Notifier.t) (ti msg : ustring)
      (status link : string) (st : state) :
  exists data hd,
    Notifier.send_notification w self ti msg status link st
    = (Returns match http_post w (st_trace st) (Notifier.url self) data hd with
               | Some code => code =? 200
               | None => false
               end,
       mkState (st_globals st)
               (st_trace st ++ [CallPost (Notifier.url self) data hd])%list
               (processed_count st)).
Proof.
  unfold Notifier.send_notification.
  destruct (config_for_returns status) as [cfg ->]. cbv zeta.
  exists (Notifier.emoji cfg ++ [32%N] ++ msg)%list, (Notifier.request_headers cfg ti link).
  unfold io_bind, ask.
  destruct (http_post w (st_trace st) (Notifier.url self) _ _); reflexivity.
Qed.

Lemma cleanup_email_runs (w : World) (id action : string) (st : state) :
  exists c b,
    cleanup_of id c /\
    GmailClient.cleanup_email w id action st
    = (Returns b,
       mkState (st_globals st) (st_trace st ++ [c])%list (processed_count st)).
Proof.
  unfold GmailClient.cleanup_email, cleanup_of. cbv zeta.
  destruct (String.eqb (strip (lower action)) "trash");
    [|destruct (String.eqb (strip (lower action)) "archive");
      [|destruct (String.eqb (strip (lower action)) "read")]];
    eexists _, _; (split; [|reflexivity]); auto.
Qed.

Lemma process_message_runs (w : World) (bs : MarkupLibrary) (self : JulesMonitor.t)
      (m : msg_meta) (st : state) :
  exists seg b,
    handled w self (st_trace st) (meta_id m) seg b /\
    JulesMonitor.process_message w bs self m st
    = (Returns b,
       mkState (st_globals st) (st_trace st ++ seg)%list
               (processed_count st + if b then 1 else 0)).
Proof.
  unfold JulesMonitor.process_message. cbv zeta.
  unfold io_bind at 1. unfold GmailClient.get_email_content.
  unfold io_bind at 1, ask at 1.
  set (st1 := mkState (st_globals st) (st_trace st ++ [CallGet (meta_id m)])%list
                      (processed_count st)).
  assert (Hmiss : exists seg b,
             handled w self (st_trace st) (meta_id m) seg b /\
             (Returns false, st1)
             = (Returns b,
                mkState (st_globals st) (st_trace st ++ seg)%list
                        (processed_count st + if b then 1 else 0))).
  { exists [CallGet (meta_id m)], false. split; [constructor|].
    unfold st1. now rewrite Nat.add_0_r. }
  destruct (api_get w (st_trace st) (meta_id m)) as [msg|]; [|exact Hmiss].
  unfold io_ret at 1.
  destruct (GmailClient.email_of_message w msg) as [d|]; [|exact Hmiss].
  clear Hmiss. unfold io_bind at 1, run_parser.
  destruct (parse_jules_email_eq bs (JulesMonitor.raw_of d) (st_globals st1))
    as (bp & sx & rp & li & _ & _ & _ & _ & Hp).
  rewrite Hp. set (parsed := mkParsed _ _ _ _ _ _).
  unfold io_bind at 1.
  destruct (send_notification_runs w (JulesMonitor.notifier self)
              (u_of (title parsed)) (JulesMonitor._build_notification_message parsed)
              (status parsed) (link parsed)
              (mkState (st_globals st1) (st_trace st1) (processed_count st1)))
    as (data & hd & Hs).
  rewrite Hs. cbn [st_trace st_globals processed_count st1].
  destruct (http_post w (st_trace st ++ [CallGet (meta_id m)])%list
              (Notifier.url (JulesMonitor.notifier self)) data hd) as [code|] eqn:Ep.
  - destruct (Nat.eqb_spec code 200) as [->|Hne].
    + unfold io_bind at 1.
      destruct (cleanup_email_runs w (meta_id m) (JulesMonitor.email_action self)
                  (mkState (st_globals st)
                     ((st_trace st ++ [CallGet (meta_id m)]) ++
                      [CallPost (Notifier.url (JulesMonitor.notifier self)) data hd])%list
                     (processed_count st)))
        as (c & b & Hc & Hrun).
      rewrite Hrun. cbn [st_trace st_globals processed_count].
      exists [CallGet (meta_id m);
              CallPost (Notifier.url (JulesMonitor.notifier self)) data hd; c], true.
      split; [now constructor|].
      unfold io_bind, count_one, io_ret. cbn [st_trace st_globals processed_count].
      rewrite <- !app_assoc. reflexivity.
    + exists [CallGet (meta_id m);
              CallPost (Notifier.url (JulesMonitor.notifier self)) data hd], false.
      split.
      * constructor. rewrite Ep. intros H. injection H as H. contradiction.
      * unfold io_ret. rewrite <- app_assoc, Nat.add_0_r. reflexivity.
  - exists [CallGet (meta_id m);
            CallPost (Notifier.url (JulesMonitor.notifier self)) data hd], false.
    split.
    + constructor. rewrite Ep. discriminate.
    + unfold io_ret. rewrite <- app_assoc, Nat.add_0_r. reflexivity.
Qed.

Lemma process_all_runs (w : World) (bs : MarkupLibrary) (self : JulesMonitor.t)
      (msgs : list msg_meta) :
  forall st processed,
    exists segs n,
      handled_all w self (st_trace st) msgs segs n /\
      JulesMonitor.process_all w bs self msgs processed st
      = (Returns (processed + n),
         mkState (st_globals st) (st_trace st ++ segs)%list (processed_count st + n)).
Proof.
  induction msgs as [|m msgs IH]; intros st processed.
  - exists [], 0. split; [constructor|].
    cbn [JulesMonitor.process_all]. unfold io_ret.
    rewrite app_nil_r, !Nat.add_0_r. destruct st; reflexivity.
  - destruct (process_message_runs w bs self m st) as (seg & b & Hh & Hrun).
    cbn [JulesMonitor.process_all]. unfold io_bind. rewrite Hrun.
    destruct (IH (mkState (st_globals st) (st_trace st ++ seg)%list
                          (processed_count st + if b then 1 else 0))
                 (if b then processed + 1 else processed))
      as (segs & n & Hall & Hrest).
    rewrite Hrest. cbn [st_trace st_globals processed_count] in *.
    exists (seg ++ segs)%list, ((if b then 1 else 0) + n).
    split; [econstructor; eauto|].
    rewrite app_assoc. f_equal; [f_equal|f_equal]; destruct b; lia.
Qed.

Lemma check_once_runs (w : World) (bs : MarkupLibrary) (self : JulesMonitor.t)
      (st : state) :
  exists segs n,
    handled_all w self (st_trace st ++ [CallList (JulesMonitor.gmail_query self)])%list
                (listed w (st_trace st) (JulesMonitor.gmail_query self)) segs n /\
    JulesMonitor.check_once w bs self st
    = (Returns n,
       mkState (st_globals st)
               (st_trace st ++ CallList (JulesMonitor.gmail_query self) :: segs)%list
               (processed_count st + n)).
Proof.
  unfold JulesMonitor.check_once, io_bind at 1, GmailClient.get_jules_emails.
  unfold io_bind at 1, ask at 1.
  set (st1 := mkState (st_globals st)
                      (st_trace st ++ [CallList (JulesMonitor.gmail_query self)])%list
                      (processed_count st)).
  assert (E : (match api_list w (st_trace st) (JulesMonitor.gmail_query self) with
               | Some messages => io_ret messages
               | None => io_ret []
               end) st1
              = (Returns (listed w (st_trace st) (JulesMonitor.gmail_query self)), st1)).
  { unfold listed. destruct (api_list w (st_trace st) _); reflexivity. }
  rewrite E.
  destruct (listed w (st_trace st) (JulesMonitor.gmail_query self)) as [|m ms] eqn:El.
  - exists [], 0. split; [constructor|]. unfold io_ret, st1.
    now rewrite Nat.add_0_r.
  - destruct (process_all_runs w bs self (m :: ms) st1 0) as (segs & n & Hall & Hrun).
    rewrite Hrun. exists segs, n. split; [exact Hall|].
    unfold st1. cbn [st_trace st_globals processed_count].
    rewrite <- app_assoc. reflexivity.
Qed.

Lemma cleanup_of_is_cleanup (id : string) (c : call) :
  cleanup_of id c -> is_cleanup c = true /\ fetched_ids [c] = [].
Proof. intros [-> | [-> | ->]]; split; reflexivity. Qed.

Lemma fetched_ids_app (a b : list call) :
  fetched_ids (a ++ b) = (fetched_ids a ++ fetched_ids b)%list.
Proof.
  induction a as [|c a IH]; [reflexivity|].
  destruct c; simpl; rewrite IH; reflexivity.
Qed.

Lemma handled_count (w : World) (self : JulesMonitor.t) h id seg b :
  handled w self h id seg b ->
  length (filter is_cleanup seg) = (if b then 1 else 0) /\ fetched_ids seg = [id].
Proof.
  intros H. destruct H as [|data hd Hp|data hd c Hp Hc]; try (split; reflexivity).
  destruct (cleanup_of_is_cleanup Hc) as [H1 H2].
  cbn [filter is_cleanup fetched_ids]. rewrite H1.
  cbn [fetched_ids] in H2. split; [reflexivity|].
  destruct c; try discriminate H2; reflexivity.
Qed.

Lemma handled_all_count (w : World) (self : JulesMonitor.t) h msgs segs n :
  handled_all w self h msgs segs n ->
  length (filter is_cleanup segs) = n /\ n <= length msgs /\
  fetched_ids segs = map meta_id msgs.
Proof.
  induction 1 as [h|h m rest seg b segs n Hh Hall IH].
  - repeat split; auto.
  - destruct IH as (IH1 & IH2 & IH3).
    destruct (handled_count Hh) as [H1 H2].
    rewrite filter_app, length_app, fetched_ids_app, H1, H2, IH1, IH3.
    repeat split; auto. simpl. destruct b; lia.
Qed.

Lemma handled_all_safe (w : World) (self : JulesMonitor.t) h msgs segs n :
  handled_all w self h msgs segs n ->
  forall pre c post,
    segs = (pre ++ c :: post)%list -> is_cleanup c = true ->
    exists pre' id data hd,
      pre = (pre' ++ [CallGet id;
                      CallPost (Notifier.url (JulesMonitor.notifier self)) data hd])%list /\
      cleanup_of id c /\
      http_post w (h ++ pre' ++ [CallGet id])%list
                (Notifier.url (JulesMonitor.notifier self)) data hd = Some 200.
Proof.
  induction 1 as [h|h m rest seg b segs n Hh Hall IH]; intros pre c post Heq Hc.
  - destruct pre; discriminate.
  - apply app_eq_app in Heq. destruct Heq as (l & [[Hseg Hl]|[Hpre Hsegs]]).
    + destruct l as [|x l].
      * simpl in Hl. symmetry in Hl.
        destruct (IH [] c post Hl Hc) as (pre' & id & data & hd & Hnil & _).
        destruct pre'; discriminate.
      * simpl in Hl. injection Hl as <- _.
        destruct Hh as [|data hd Hp|data hd c0 Hp Hc0].
        -- destruct pre as [|p1 pre]; simpl in Hseg.
           ++ injection Hseg as <- _. discriminate.
           ++ injection Hseg as _ Hseg. destruct pre; discriminate.
        -- destruct pre as [|p1 [|p2 pre]]; simpl in Hseg.
           ++ injection Hseg as <- _. discriminate.
           ++ injection Hseg as _ <- _. discriminate.
           ++ injection Hseg as _ _ Hseg. destruct pre; discriminate.
        -- destruct pre as [|p1 [|p2 [|p3 pre]]]; simpl in Hseg.
           ++ injection Hseg as <- _. discriminate.
           ++ injection Hseg as _ <- _. discriminate.
           ++ injection Hseg as <- <- <- _.
              exists [], (meta_id m), data, hd. simpl. repeat split; auto.
           ++ injection Hseg as _ _ _ Hseg. destruct pre; discriminate.
    + destruct (IH l c post Hsegs Hc) as (pre' & id & data & hd & -> & Hid & Hp).
      exists (seg ++ pre')%list, id, data, hd. subst pre.
      rewrite <- !app_assoc in *. repeat split; auto.
Qed.

(** X18.  One round of the monitor returns, leaves the parser's module
    state alone, and trashes or unlabels a message only directly after the
    notification post for that message was answered with status 200: every
    such call follows the fetch of its message and a post to the notifier's
    URL, and the answer to that post was 200. *)
Theorem cleanup_only_after_delivery (w : World) (bs : MarkupLibrary)
        (self : JulesMonitor.t) (st : state) :
  exists n calls,
    JulesMonitor.check_once w bs self st
    = (Returns n,
       mkState (st_globals st)
               (st_trace st ++ CallList (JulesMonitor.gmail_query self) :: calls)%list
               (processed_count st + n)) /\
    forall pre c post,
      calls = (pre ++ c :: post)%list -> is_cleanup c = true ->
      exists pre' id data hd,
        pre = (pre' ++ [CallGet id;
                        CallPost (Notifier.url (JulesMonitor.notifier self)) data hd])%list /\
        cleanup_of id c /\
        http_post w (st_trace st ++ CallList (JulesMonitor.gmail_query self)
                       :: pre' ++ [CallGet id])%list
                  (Notifier.url (JulesMonitor.notifier self)) data hd = Some 200.
Proof.
  destruct (check_once_runs w bs self st) as (segs & n & Hall & Hrun).
  exists n, segs. split; [exact Hrun|].
  intros pre c post Heq Hc.
  destruct (handled_all_safe Hall pre c post Heq Hc) as (pre' & id & data & hd & Hpre & Hid & Hp).
  exists pre', id, data, hd. repeat split; auto.
  rewrite <- app_assoc in Hp. exact Hp.
Qed.

(** X19.  The number one round returns is the number of messages it trashed
    or unlabelled, the counter of the monitor grows by it, it is at most the
    number of messages listed, and every listed message is fetched once, in
    the order listed; when the list call fails or lists nothing, no other
    call is made. *)
Theorem check_once_counts (w : World) (bs : MarkupLibrary)
        (self : JulesMonitor.t) (st : state) :
  exists n calls,
    JulesMonitor.check_once w bs self st
    = (Returns n,
       mkState (st_globals st)
               (st_trace st ++ CallList (JulesMonitor.gmail_query self) :: calls)%list
               (processed_count st + n)) /\
    n = length (filter is_cleanup calls) /\
    n <= length (listed w (st_trace st) (JulesMonitor.gmail_query self)) /\
    fetched_ids calls
    = map meta_id (listed w (st_trace st) (JulesMonitor.gmail_query self)) /\
    (listed w (st_trace st) (JulesMonitor.gmail_query self) = [] -> calls = []).
Proof.
  destruct (check_once_runs w bs self st) as (segs & n & Hall & Hrun).
  exists n, segs. split; [exact Hrun|].
  destruct (handled_all_count Hall) as (H1 & H2 & H3).
  repeat split; auto.
  intros Hnil. rewrite Hnil in Hall. inversion Hall. reflexivity.
Qed.

(* ================================================================= *)
(** ** Blank lines in the normalized body *)

Lemma leading_le (c : ascii) (s : string) : leading c s <= String.length s.
Proof.
  induction s as [|x s IH]; simpl; [lia|].
  destruct (Ascii.eqb c x); lia.
Qed.

Lemma leading_drop (c : ascii) (s : string) : leading c (drop (leading c s) s) = 0.
Proof.
  induction s as [|x s IH]; [reflexivity|].
  cbn [leading]. destruct (Ascii.eqb c x) eqn:E.
  - exact IH.
  - cbn [drop leading]. now rewrite E.
Qed.

(** A greedy repetition of line feeds before a rest that cannot fail takes
    the whole run. *)
Lemma rep_nl_greedy (R : Type) (k : cont R) (mk : marks) (s : string) :
  (forall s' pos', k s' pos' mk <> None) ->
  forall lo pos,
    rep false (Lit nl) lo None s pos mk k
    = if lo <=? leading nl s
      then k (drop (leading nl s) s) (pos + leading nl s) mk
      else None.
Proof.
  intros Hk. induction s as [|c s IH]; intros lo pos.
  - simpl. rewrite Nat.add_0_r. destruct lo; reflexivity.
  - cbn [rep hi_allows dec_hi andb atom_matches leading].
    destruct (Ascii.eqb nl c) eqn:E.
    + rewrite IH. cbn [drop].
      destruct (Nat.leb_spec (lo - 1) (leading nl s)) as [H1|H1];
        destruct (Nat.leb_spec lo (S (leading nl s))) as [H2|H2]; try lia.
      * replace (S pos + leading nl s) with (pos + S (leading nl s)) by lia.
        destruct (k (drop (leading nl s) s) _ mk) eqn:Ek; [reflexivity|].
        exfalso. eapply Hk. exact Ek.
      * destruct (Nat.eqb_spec lo 0); [lia | reflexivity].
    + cbn [drop]. rewrite Nat.add_0_r. destruct lo; reflexivity.
Qed.

Lemma blank_lines_at (s : string) (pos : nat) :
  matches_at false blank_lines s pos
  = if 3 <=? leading nl s
    then [mkMatch pos (pos + leading nl s) [] s]
    else [].
Proof.
  unfold matches_at, match_at, blank_lines. cbn [rmatch].
  rewrite rep_nl_greedy by (intros s' pos'; simpl; discriminate).
  destruct (Nat.leb_spec 3 (leading nl s)) as [H|H]; [|reflexivity].
  cbn [andb m_end].
  destruct (Nat.eqb_spec (pos + leading nl s) pos); [lia | reflexivity].
Qed.

Lemma sub_from_skip ic r repl (k : nat) :
  forall s pos,
    k <= String.length s ->
    sub_from ic r repl s pos k = sub_from ic r repl (drop k s) (pos + k) 0.
Proof.
  induction k as [|k IH]; intros s pos H.
  - rewrite Nat.add_0_r. destruct s; reflexivity.
  - destruct s as [|c s]; simpl in H; [lia|].
    cbn [sub_from drop]. rewrite IH by lia. f_equal. lia.
Qed.

Lemma sub_blank_hit (s : string) (pos : nat) :
  3 <= leading nl s ->
  sub_from false blank_lines (String nl (String nl "")) s pos 0
  = String nl (String nl
      (sub_from false blank_lines (String nl (String nl ""))
                (drop (leading nl s) s) (pos + leading nl s) 0)).
Proof.
  intros H. destruct s as [|c s]; [simpl in H; lia|].
  cbn [sub_from]. rewrite blank_lines_at.
  pose proof (leading_le nl (String c s)) as Hle.
  change (String.length (String c s)) with (S (String.length s)) in Hle.
  assert (Hd : drop (leading nl (String c s) - 1) s
               = drop (leading nl (String c s)) (String c s)).
  { destruct (leading nl (String c s)) as [|n]; [lia|]. simpl. now rewrite Nat.sub_0_r. }
  remember (leading nl (String c s)) as L eqn:EL.
  destruct (Nat.leb_spec 3 L) as [_|H']; [|lia].
  unfold last_len, m_len. cbn [rev app m_end m_start map String.concat].
  replace (pos + L - pos) with L by lia.
  destruct (Nat.eqb_spec L 0); [lia|].
  rewrite sub_from_skip by lia.
  rewrite Hd. simpl. do 3 f_equal. lia.
Qed.

Lemma sub_blank_miss (c : ascii) (s : string) (pos : nat) :
  leading nl (String c s) < 3 ->
  sub_from false blank_lines (String nl (String nl "")) (String c s) pos 0
  = String c (sub_from false blank_lines (String nl (String nl "")) s (S pos) 0).
Proof.
  intros H. cbn [sub_from]. rewrite blank_lines_at.
  destruct (Nat.leb_spec 3 (leading nl (String c s))) as [H'|_]; [lia|].
  reflexivity.
Qed.

Lemma sub_blank_empty (pos : nat) :
  sub_from false blank_lines (String nl (String nl "")) "" pos 0 = "".
Proof. reflexivity. Qed.

Lemma length_drop (k : nat) (s : string) :
  String.length (drop k s) = String.length s - k.
Proof.
  revert s. induction k as [|k IH]; intros [|c s]; simpl; auto; lia.
Qed.

Lemma prefix_nl_cons (p t : string) (x : ascii) :
  String.prefix (String nl p) (String x t) = Ascii.eqb nl x && String.prefix p t.
Proof.
  cbn [String.prefix]. destruct (ascii_dec nl x) as [<-|Hne].
  - now rewrite Ascii.eqb_refl.
  - apply Ascii.eqb_neq in Hne. now rewrite Hne.
Qed.

Lemma prefix_nl3 (t : string) : String.prefix nl3 t = (3 <=? leading nl t).
Proof.
  unfold nl3.
  destruct t as [|x1 t]; [reflexivity|].
  rewrite prefix_nl_cons. cbn [leading]. destruct (Ascii.eqb nl x1); [|reflexivity].
  destruct t as [|x2 t]; [reflexivity|].
  rewrite prefix_nl_cons. cbn [leading]. destruct (Ascii.eqb nl x2); [|reflexivity].
  destruct t as [|x3 t]; [reflexivity|].
  rewrite prefix_nl_cons. cbn [leading]. destruct (Ascii.eqb nl x3); [|reflexivity].
  destruct t; reflexivity.
Qed.

Lemma contains_nl3_cons (c : ascii) (t : string) :
  contains nl3 (String c t) = (3 <=? leading nl (String c t)) || contains nl3 t.
Proof. cbn [contains]. now rewrite prefix_nl3. Qed.

Lemma blank_collapse_invariant (n : nat) :
  forall s pos,
    String.length s <= n ->
    contains nl3 (sub_from false blank_lines (String nl (String nl "")) s pos 0) = false /\
    leading nl (sub_from false blank_lines (String nl (String nl "")) s pos 0)
    = Nat.min (leading nl s) 2.
Proof.
  induction n as [|n IH]; intros s pos Hlen.
  - destruct s; [split; reflexivity | simpl in Hlen; lia].
  - destruct s as [|c s]; [split; reflexivity|].
    change (String.length (String c s)) with (S (String.length s)) in Hlen.
    destruct (Nat.le_gt_cases 3 (leading nl (String c s))) as [Hhit|Hmiss].
    + rewrite sub_blank_hit by exact Hhit.
      assert (Hd : String.length (drop (leading nl (String c s)) (String c s)) <= n).
      { rewrite length_drop.
        change (String.length (String c s)) with (S (String.length s)). lia. }
      destruct (IH _ (pos + leading nl (String c s)) Hd) as [H1 H2].
      rewrite leading_drop in H2. cbn [Nat.min] in H2.
      set (out := sub_from false blank_lines (String nl (String nl ""))
                           (drop (leading nl (String c s)) (String c s))
                           (pos + leading nl (String c s)) 0) in *.
      split.
      * rewrite !contains_nl3_cons, H1. cbn [leading].
        rewrite Ascii.eqb_refl, H2. reflexivity.
      * rewrite (Nat.min_r _ 2) by lia. cbn [leading].
        rewrite Ascii.eqb_refl, H2. reflexivity.
    + rewrite sub_blank_miss by exact Hmiss.
      destruct (IH s (S pos) ltac:(lia)) as [H1 H2].
      set (out := sub_from false blank_lines (String nl (String nl "")) s (S pos) 0) in *.
      rewrite contains_nl3_cons, H1. cbn [leading] in *.
      destruct (Ascii.eqb nl c).
      * rewrite H2. split.
        -- rewrite orb_false_r. apply Nat.leb_gt. lia.
        -- lia.
      * split; reflexivity.
Qed.

(** The substitution leaves no three line feeds in a row. *)
Lemma blank_lines_collapsed (text : string) :
  contains nl3 (re_sub false blank_lines (String nl (String nl "")) text) = false.
Proof.
  unfold re_sub. apply (blank_collapse_invariant (n := String.length text)). lia.
Qed.

Lemma contains_lstrip (sub t : string) :
  contains sub (lstrip t) = true -> contains sub t = true.
Proof.
  induction t as [|c t IH]; [auto|].
  cbn [lstrip]. destruct (Chars.isspace c); [|auto].
  intros H. cbn [contains]. rewrite (IH H). apply orb_true_r.
Qed.

Lemma rstrip_split (t : string) : exists tail, t = rstrip t ++ tail.
Proof.
  induction t as [|c t IH]; [exists ""; reflexivity|].
  cbn [rstrip]. cbv zeta.
  destruct (negb (nonempty (rstrip t)) && Chars.isspace c).
  - exists (String c t). reflexivity.
  - destruct IH as [tail IH]. exists tail. simpl. now rewrite <- IH.
Qed.

Lemma prefix_append (p a b : string) :
  String.prefix p a = true -> String.prefix p (a ++ b) = true.
Proof.
  revert p. induction a as [|y a IH]; intros p H.
  - destruct p; [|discriminate]. destruct b; reflexivity.
  - destruct p as [|x p]; [reflexivity|].
    change (String y a ++ b) with (String y (a ++ b)).
    cbn [String.prefix] in *. destruct (ascii_dec x y); [auto | discriminate].
Qed.

Lemma contains_append_l (sub a b : string) :
  contains sub a = true -> contains sub (a ++ b) = true.
Proof.
  induction a as [|c a IH]; intros H.
  - cbn [contains] in H. rewrite orb_false_r in H.
    apply (prefix_append _ _ b) in H.
    change ("" ++ b) with b in *.
    destruct b; cbn [contains]; now rewrite H.
  - change (String c a ++ b) with (String c (a ++ b)).
    cbn [contains] in *. apply orb_prop in H. destruct H as [H|H].
    + apply (prefix_append _ _ b) in H.
      change (String c a ++ b) with (String c (a ++ b)) in H. now rewrite H.
    + rewrite (IH H). apply orb_true_r.
Qed.

Lemma contains_strip (sub t : string) :
  contains sub t = false -> contains sub (strip t) = false.
Proof.
  intros H. destruct (contains sub (strip t)) eqn:E; [|reflexivity].
  unfold strip in E. destruct (rstrip_split (lstrip t)) as [tail Ht].
  apply (contains_append_l _ _ tail) in E. rewrite <- Ht in E.
  apply contains_lstrip in E. congruence.
Qed.

(** X20.  When the markup library parses the HTML body, the normalized text
    has no white space at either end and nowhere three line feeds in a
    row. *)
Theorem normalized_body_shape (bs : MarkupLibrary) (html text : string)
        (g : globals) (sp : soup bs) :
  BeautifulSoup bs html = Ok sp ->
  visible_text bs sp = Ok text ->
  exists t,
    _html_to_text bs html g = (Ok t, g) /\
    strip t = t /\ contains nl3 t = false.
Proof.
  intros Hb Hv. rewrite _html_to_text_eq, Hb, Hv.
  eexists. split; [reflexivity|]. split.
  - apply strip_idem.
  - apply contains_strip. apply blank_lines_collapsed.
Qed.

Lemma normalized_body_shape_witness :
  exists t,
    _html_to_text
      (text_markup (String nl ("Task done" ++ String nl (String nl (String nl
                      (String nl ("See the pull request." ++ String nl (String nl ""))))))))
      "<html>" initial_globals
    = (Ok t, initial_globals) /\
    strip t = t /\ contains nl3 t = false.
Proof.
  eapply normalized_body_shape; reflexivity.
Defined.
